(** * An AI player for Othello: minimax and alpha-beta search

    A shallow embedding of [agent.py].  Python integers are [Z]; the two
    floating point infinities used as loop seeds are the two extra
    constructors of [value]; the floats of the heuristic are IEEE 754
    binary64 numbers; the global [cache] dictionary is a [gmap]
    threaded through the node functions; the functions imported from
    [othello_shared] form the interface [OthelloShared]. *)

From Stdlib Require Import ZArith List Lia Bool QArith Sorted Permutation.
From Stdlib Require Import Floats.SpecFloat.
From stdpp Require Import base option list gmap.

Open Scope Z_scope.

(** ** Python values *)

(** A board is a tuple of rows, each a tuple of 0 (empty), 1 (dark) or
    2 (light). A move is a pair (column, row). *)
Abbreviation board := (list (list Z)).
Abbreviation move := (Z * Z)%type.

(** A utility: an [int], or [float("-inf")] / [float("inf")]. *)
Inductive value : Type :=
  | NegInf : value
  | Fin : Z -> value
  | PosInf : value.

(** [x < y] on utilities. *)
Definition value_ltb (x y : value) : bool :=
  match x, y with
  | NegInf, NegInf => false
  | NegInf, _ => true
  | Fin a, Fin b => a <? b
  | Fin _, PosInf => true
  | Fin _, NegInf => false
  | PosInf, _ => false
  end.

(** [x <= y] on utilities. *)
Definition value_leb (x y : value) : bool := negb (value_ltb y x).

(** Python's [max(a, b)] and [min(a, b)]: the first argument unless the
    second is strictly better. *)
Definition py_max (a b : value) : value := if value_ltb a b then b else a.
Definition py_min (a b : value) : value := if value_ltb b a then b else a.

Definition value_lt (x y : value) : Prop := value_ltb x y = true.
Definition value_le (x y : value) : Prop := value_leb x y = true.

(** The utilities that are integers. *)
Definition is_finite (v : value) : Prop :=
  match v with Fin _ => True | _ => False end.

(** Truth value of an [int] flag: [if caching:], [not limit]. *)
Definition truthy (z : Z) : bool := negb (z =? 0).

(** The transposition cache: a dict from boards to utilities. *)
Abbreviation cache_t := (gmap board value).

(** Every cached utility is an integer. *)
Definition cache_finite (cache : gmap board value) : Prop :=
  forall bd v, cache !! bd = Some v -> is_finite v.

(** The module-level variable [cache]: [None] until a selector runs. *)
Abbreviation global_t := (option (gmap board value)).

(** What a node function returns, with the cache it leaves behind. *)
Abbreviation result := (option move * value * gmap board value)%type.

(** The two functions of the module that give a board a number. *)
Inductive evaluator : Type :=
  | ComputeUtility
  | ComputeHeuristic.

(** A call [evaluator(board, color)]. *)
Abbreviation call := (evaluator * board * Z)%type.

(** A result with the calls of the evaluators made to compute it. *)
Abbreviation traced := (result * list call)%type.

(** Python's [range(a, b)]. *)
Definition py_range (a b : Z) : list Z := seqZ a (b - a).

(** Python's [l[i]]: negative indices count from the end; [None] stands
    for [IndexError]. *)
Definition py_index {A : Type} (l : list A) (i : Z) : option A :=
  let n := Z.of_nat (length l) in
  if (0 <=? i) && (i <? n) then l !! Z.to_nat i
  else if (- n <=? i) && (i <? 0) then l !! Z.to_nat (n + i)
  else None.

(** [board[i][j]] *)
Definition board_at (bd : board) (i j : Z) : option Z :=
  match py_index bd i with
  | None => None
  | Some row => py_index row j
  end.

(** [len(board)] *)
Definition len (bd : board) : Z := Z.of_nat (length bd).

(** *** Python numbers

    An int is a [Z]. A float is an IEEE 754 binary64 number, in the
    Standard Library's specification of floating-point arithmetic:
    53 bits of precision, every operation rounded to nearest, ties to
    even. *)
Definition prec : Z := 53.
Definition emax : Z := 1024.

Inductive py_number : Type :=
  | PyInt (z : Z)
  | PyFloat (x : spec_float).

(** An int as an operand of the true division, which rounds the exact
    quotient of the two ints once: the integer itself, not rounded. *)
Definition int_operand (z : Z) : spec_float :=
  match z with
  | Z0 => S754_zero false
  | Zpos p => S754_finite false p 0
  | Zneg p => S754_finite true p 0
  end.

(** The conversion of an int operand in mixed arithmetic: the nearest
    float; [None] stands for the OverflowError of an int beyond the
    range of the floats. *)
Definition float_of_int (z : Z) : option spec_float :=
  match binary_normalize prec emax z 0 false with
  | S754_infinity _ => None
  | x => Some x
  end.

(** [a / b] on two ints: the correctly rounded quotient; [None] stands
    for the ZeroDivisionError of [b == 0] and for the OverflowError of
    a quotient beyond the range of the floats. *)
Definition py_truediv (a b : Z) : option spec_float :=
  if b =? 0 then None
  else match SFdiv prec emax (int_operand a) (int_operand b) with
       | S754_infinity _ => None
       | q => Some q
       end.

(** [k * x] with an int [k] and a float [x]. *)
Definition py_int_mul_float (k : Z) (x : spec_float) : option spec_float :=
  match float_of_int k with
  | None => None
  | Some c => Some (SFmul prec emax c x)
  end.

(** [acc + x] with a float [x]: [acc] is converted when it is an int. *)
Definition py_add_float (acc : py_number) (x : spec_float) : option py_number :=
  match acc with
  | PyInt z =>
    match float_of_int z with
    | None => None
    | Some c => Some (PyFloat (SFadd prec emax c x))
    end
  | PyFloat a => Some (PyFloat (SFadd prec emax a x))
  end.

(** ** The functions of [othello_shared] used by the agent *)

Class OthelloShared : Type := {
  get_possible_moves : board -> Z -> list move;
  play_move : board -> Z -> Z -> Z -> board;
  get_score : board -> Z * Z
}.

Section Agent.
Context `{OthelloShared}.

Definition compute_utility (bd : board) (color : Z) : Z :=
  let '(num_dark, num_light) := get_score bd in
  if color =? 1 then num_dark - num_light else num_light - num_dark.

(** [opponent = 1; if color == 1: opponent = 2] *)
Definition opponent_of (color : Z) : Z := if color =? 1 then 2 else 1.

(** The [if caching: if board in cache:] test at the head of a node. *)
Definition cache_hit (caching : Z) (cache : cache_t) (bd : board) : option value :=
  if truthy caching then cache !! bd else None.

(** [if caching: cache[board] = util] *)
Definition cache_store (caching : Z) (cache : cache_t) (bd : board) (util : value)
  : cache_t :=
  if truthy caching then <[bd := util]> cache else cache.

(** [not moves or not limit] *)
Definition is_leaf (moves : list move) (limit : Z) : bool :=
  match moves with [] => true | _ => negb (truthy limit) end.

(** *** Minimax *)

(** The [for move in moves] loop of [minimax_min_node]; [child] is the
    recursive call on the successor board. *)
Fixpoint minimax_min_loop (child : board -> cache_t -> option result)
    (bd : board) (opponent : Z) (moves : list move)
    (best_move : option move) (min_util : value) (cache : cache_t)
  : option result :=
  match moves with
  | [] => Some (best_move, min_util, cache)
  | mv :: rest =>
    let new_board := play_move bd opponent mv.1 mv.2 in
    match child new_board cache with
    | None => None
    | Some (_, new_util, cache1) =>
      if value_ltb new_util min_util
      then minimax_min_loop child bd opponent rest (Some mv) new_util cache1
      else minimax_min_loop child bd opponent rest best_move min_util cache1
    end
  end.

(** The [for move in moves] loop of [minimax_max_node]. *)
Fixpoint minimax_max_loop (child : board -> cache_t -> option result)
    (bd : board) (color : Z) (moves : list move)
    (best_move : option move) (max_util : value) (cache : cache_t)
  : option result :=
  match moves with
  | [] => Some (best_move, max_util, cache)
  | mv :: rest =>
    let new_board := play_move bd color mv.1 mv.2 in
    match child new_board cache with
    | None => None
    | Some (_, new_util, cache1) =>
      if value_ltb max_util new_util
      then minimax_max_loop child bd color rest (Some mv) new_util cache1
      else minimax_max_loop child bd color rest best_move max_util cache1
    end
  end.

(** The two node functions.  [fuel] bounds the recursion depth; [None]
    means the bound was hit. *)
Fixpoint minimax_min_node (fuel : nat) (bd : board) (color limit caching : Z)
    (cache : cache_t) {struct fuel} : option result :=
  match fuel with
  | O => None
  | S fuel' =>
    match cache_hit caching cache bd with
    | Some v => Some (None, v, cache)
    | None =>
      let opponent := opponent_of color in
      let moves := get_possible_moves bd opponent in
      if is_leaf moves limit then
        let util := compute_utility bd color in
        Some (None, Fin util, cache_store caching cache bd (Fin util))
      else
        match minimax_min_loop
                (fun new_board c =>
                   minimax_max_node fuel' new_board color (limit - 1) caching c)
                bd opponent moves None PosInf cache with
        | None => None
        | Some (best_move, min_util, cache') =>
          Some (best_move, min_util, cache_store caching cache' bd min_util)
        end
    end
  end
with minimax_max_node (fuel : nat) (bd : board) (color limit caching : Z)
    (cache : cache_t) {struct fuel} : option result :=
  match fuel with
  | O => None
  | S fuel' =>
    match cache_hit caching cache bd with
    | Some v => Some (None, v, cache)
    | None =>
      let moves := get_possible_moves bd color in
      if is_leaf moves limit then
        let util := compute_utility bd color in
        Some (None, Fin util, cache_store caching cache bd (Fin util))
      else
        match minimax_max_loop
                (fun new_board c =>
                   minimax_min_node fuel' new_board color (limit - 1) caching c)
                bd color moves None NegInf cache with
        | None => None
        | Some (best_move, max_util, cache') =>
          Some (best_move, max_util, cache_store caching cache' bd max_util)
        end
    end
  end.

(** The root call of [select_move_minimax], made on a fresh cache. *)
Definition minimax_root (fuel : nat) (bd : board) (color limit caching : Z)
  : option result :=
  minimax_max_node fuel bd color limit caching ∅.

(** [select_move_minimax]: [g] is the global [cache] before the call;
    the result is the move and the global [cache] after it. *)
Definition select_move_minimax (fuel : nat) (bd : board) (color limit caching : Z)
    (g : global_t) : option (option move * global_t) :=
  match minimax_root fuel bd color limit caching with
  | None => None
  | Some (best_move, _, cache') => Some (best_move, Some cache')
  end.

(** *** Alpha-beta pruning *)

(** [successors.append((play_move(board, player, move[0], move[1]), move))] *)
Definition successors_of (bd : board) (player : Z) (moves : list move)
  : list (board * move) :=
  map (fun mv => (play_move bd player mv.1 mv.2, mv)) moves.

(** [list.sort(key=...)] is a stable sort; these are stable insertion
    sorts, ascending and (for [reverse=True]) descending. *)
Fixpoint insert_ascending (key : board * move -> Z) (x : board * move)
    (l : list (board * move)) : list (board * move) :=
  match l with
  | [] => [x]
  | y :: l' =>
    if key y <=? key x then y :: insert_ascending key x l' else x :: y :: l'
  end.

Fixpoint insert_descending (key : board * move -> Z) (x : board * move)
    (l : list (board * move)) : list (board * move) :=
  match l with
  | [] => [x]
  | y :: l' =>
    if key x <=? key y then y :: insert_descending key x l' else x :: y :: l'
  end.

(** Elements are inserted from the first to the last, each behind the
    equal keys already placed, so equal keys keep their order. *)
Definition sort_ascending (key : board * move -> Z) (l : list (board * move))
  : list (board * move) :=
  fold_left (fun acc x => insert_ascending key x acc) l [].

Definition sort_descending (key : board * move -> Z) (l : list (board * move))
  : list (board * move) :=
  fold_left (fun acc x => insert_descending key x acc) l [].

(** Keys never increase along a list. *)
Definition descending (key : board * move -> Z) : list (board * move) -> Prop :=
  Sorted (fun s t => key t <= key s).

(** Keys never decrease along a list. *)
Definition ascending (key : board * move -> Z) : list (board * move) -> Prop :=
  Sorted (fun s t => key s <= key t).

(** The successor list of a min node, after the optional sort. *)
Definition min_successors (bd : board) (color ordering : Z) (moves : list move)
  : list (board * move) :=
  let successors := successors_of bd (opponent_of color) moves in
  if truthy ordering
  then sort_ascending (fun successor => compute_utility successor.1 color) successors
  else successors.

(** The successor list of a max node, after the optional sort. *)
Definition max_successors (bd : board) (color ordering : Z) (moves : list move)
  : list (board * move) :=
  let successors := successors_of bd color moves in
  if truthy ordering
  then sort_descending (fun successor => compute_utility successor.1 color) successors
  else successors.

(** The [for successor in successors] loop of [alphabeta_min_node]. *)
Fixpoint alphabeta_min_loop
    (child : board -> value -> value -> cache_t -> option result)
    (successors : list (board * move))
    (best_move : option move) (min_util alpha beta : value) (cache : cache_t)
  : option result :=
  match successors with
  | [] => Some (best_move, min_util, cache)
  | successor :: rest =>
    match child successor.1 alpha beta cache with
    | None => None
    | Some (_, new_util, cache1) =>
      let '(best_move1, min_util1) :=
        if value_ltb new_util min_util
        then (Some successor.2, new_util) else (best_move, min_util) in
      if value_leb min_util1 alpha
      then Some (best_move1, min_util1, cache1)
      else alphabeta_min_loop child rest best_move1 min_util1
             alpha (py_min beta min_util1) cache1
    end
  end.

(** The [for successor in successors] loop of [alphabeta_max_node]. *)
Fixpoint alphabeta_max_loop
    (child : board -> value -> value -> cache_t -> option result)
    (successors : list (board * move))
    (best_move : option move) (max_util alpha beta : value) (cache : cache_t)
  : option result :=
  match successors with
  | [] => Some (best_move, max_util, cache)
  | successor :: rest =>
    match child successor.1 alpha beta cache with
    | None => None
    | Some (_, new_util, cache1) =>
      let '(best_move1, max_util1) :=
        if value_ltb max_util new_util
        then (Some successor.2, new_util) else (best_move, max_util) in
      if value_leb beta max_util1
      then Some (best_move1, max_util1, cache1)
      else alphabeta_max_loop child rest best_move1 max_util1
             (py_max alpha max_util1) beta cache1
    end
  end.

Fixpoint alphabeta_min_node (fuel : nat) (bd : board) (color : Z)
    (alpha beta : value) (limit caching ordering : Z) (cache : cache_t)
    {struct fuel} : option result :=
  match fuel with
  | O => None
  | S fuel' =>
    match cache_hit caching cache bd with
    | Some v => Some (None, v, cache)
    | None =>
      let moves := get_possible_moves bd (opponent_of color) in
      if is_leaf moves limit then
        let util := compute_utility bd color in
        Some (None, Fin util, cache_store caching cache bd (Fin util))
      else
        match alphabeta_min_loop
                (fun new_board a b c =>
                   alphabeta_max_node fuel' new_board color a b
                     (limit - 1) caching ordering c)
                (min_successors bd color ordering moves)
                None PosInf alpha beta cache with
        | None => None
        | Some (best_move, min_util, cache') =>
          Some (best_move, min_util, cache_store caching cache' bd min_util)
        end
    end
  end
with alphabeta_max_node (fuel : nat) (bd : board) (color : Z)
    (alpha beta : value) (limit caching ordering : Z) (cache : cache_t)
    {struct fuel} : option result :=
  match fuel with
  | O => None
  | S fuel' =>
    match cache_hit caching cache bd with
    | Some v => Some (None, v, cache)
    | None =>
      let moves := get_possible_moves bd color in
      if is_leaf moves limit then
        let util := compute_utility bd color in
        Some (None, Fin util, cache_store caching cache bd (Fin util))
      else
        match alphabeta_max_loop
                (fun new_board a b c =>
                   alphabeta_min_node fuel' new_board color a b
                     (limit - 1) caching ordering c)
                (max_successors bd color ordering moves)
                None NegInf alpha beta cache with
        | None => None
        | Some (best_move, max_util, cache') =>
          Some (best_move, max_util, cache_store caching cache' bd max_util)
        end
    end
  end.

(** The root call of [select_move_alphabeta], made on a fresh cache
    with the full window and with [limit - 1]. *)
Definition alphabeta_root (fuel : nat) (bd : board) (color limit caching ordering : Z)
  : option result :=
  alphabeta_max_node fuel bd color NegInf PosInf (limit - 1) caching ordering ∅.

Definition select_move_alphabeta (fuel : nat) (bd : board)
    (color limit caching ordering : Z) (g : global_t)
  : option (option move * global_t) :=
  match alphabeta_root fuel bd color limit caching ordering with
  | None => None
  | Some (best_move, _, cache') => Some (best_move, Some cache')
  end.

(** *** The evaluator calls of a search

    [compute_utility] and [compute_heuristic] are the two functions of
    the module that give a board a number. The definitions below are the
    node functions and the selectors once more, returning beside their
    result the calls of these two functions that they make, in the order
    in which they make them: [util = compute_utility(board, color)] at a
    leaf, and the key function of [successors.sort], which Python calls
    once for every element of the list, from the first to the last. *)
Fixpoint minimax_min_loop_calls (child : board -> cache_t -> option traced)
    (bd : board) (opponent : Z) (moves : list move)
    (best_move : option move) (min_util : value) (cache : cache_t)
  : option traced :=
  match moves with
  | [] => Some (best_move, min_util, cache, [])
  | mv :: rest =>
    let new_board := play_move bd opponent mv.1 mv.2 in
    match child new_board cache with
    | None => None
    | Some (_, new_util, cache1, calls1) =>
      match
        if value_ltb new_util min_util
        then minimax_min_loop_calls child bd opponent rest (Some mv) new_util cache1
        else minimax_min_loop_calls child bd opponent rest best_move min_util cache1
      with
      | None => None
      | Some (r, calls2) => Some (r, calls1 ++ calls2)
      end
    end
  end.

Fixpoint minimax_max_loop_calls (child : board -> cache_t -> option traced)
    (bd : board) (color : Z) (moves : list move)
    (best_move : option move) (max_util : value) (cache : cache_t)
  : option traced :=
  match moves with
  | [] => Some (best_move, max_util, cache, [])
  | mv :: rest =>
    let new_board := play_move bd color mv.1 mv.2 in
    match child new_board cache with
    | None => None
    | Some (_, new_util, cache1, calls1) =>
      match
        if value_ltb max_util new_util
        then minimax_max_loop_calls child bd color rest (Some mv) new_util cache1
        else minimax_max_loop_calls child bd color rest best_move max_util cache1
      with
      | None => None
      | Some (r, calls2) => Some (r, calls1 ++ calls2)
      end
    end
  end.

Fixpoint minimax_min_node_calls (fuel : nat) (bd : board) (color limit caching : Z)
    (cache : cache_t) {struct fuel} : option traced :=
  match fuel with
  | O => None
  | S fuel' =>
    match cache_hit caching cache bd with
    | Some v => Some (None, v, cache, [])
    | None =>
      let opponent := opponent_of color in
      let moves := get_possible_moves bd opponent in
      if is_leaf moves limit then
        let util := compute_utility bd color in
        Some (None, Fin util, cache_store caching cache bd (Fin util),
              [(ComputeUtility, bd, color)])
      else
        match minimax_min_loop_calls
                (fun new_board c =>
                   minimax_max_node_calls fuel' new_board color (limit - 1) caching c)
                bd opponent moves None PosInf cache with
        | None => None
        | Some (best_move, min_util, cache', calls) =>
          Some (best_move, min_util, cache_store caching cache' bd min_util, calls)
        end
    end
  end
with minimax_max_node_calls (fuel : nat) (bd : board) (color limit caching : Z)
    (cache : cache_t) {struct fuel} : option traced :=
  match fuel with
  | O => None
  | S fuel' =>
    match cache_hit caching cache bd with
    | Some v => Some (None, v, cache, [])
    | None =>
      let moves := get_possible_moves bd color in
      if is_leaf moves limit then
        let util := compute_utility bd color in
        Some (None, Fin util, cache_store caching cache bd (Fin util),
              [(ComputeUtility, bd, color)])
      else
        match minimax_max_loop_calls
                (fun new_board c =>
                   minimax_min_node_calls fuel' new_board color (limit - 1) caching c)
                bd color moves None NegInf cache with
        | None => None
        | Some (best_move, max_util, cache', calls) =>
          Some (best_move, max_util, cache_store caching cache' bd max_util, calls)
        end
    end
  end.

(** [select_move_minimax] with its calls: the move, the global [cache]
    after the call, and the calls. *)
Definition select_move_minimax_calls (fuel : nat) (bd : board)
    (color limit caching : Z) (g : global_t)
  : option (option move * global_t * list call) :=
  match minimax_max_node_calls fuel bd color limit caching ∅ with
  | None => None
  | Some (best_move, _, cache', calls) => Some (best_move, Some cache', calls)
  end.

(** The calls of the key function of [successors.sort], none when
    ordering is off. *)
Definition sort_key_calls (color ordering : Z) (successors : list (board * move))
  : list call :=
  if truthy ordering
  then map (fun successor => (ComputeUtility, successor.1, color)) successors
  else [].

Fixpoint alphabeta_min_loop_calls
    (child : board -> value -> value -> cache_t -> option traced)
    (successors : list (board * move))
    (best_move : option move) (min_util alpha beta : value) (cache : cache_t)
  : option traced :=
  match successors with
  | [] => Some (best_move, min_util, cache, [])
  | successor :: rest =>
    match child successor.1 alpha beta cache with
    | None => None
    | Some (_, new_util, cache1, calls1) =>
      let '(best_move1, min_util1) :=
        if value_ltb new_util min_util
        then (Some successor.2, new_util) else (best_move, min_util) in
      if value_leb min_util1 alpha
      then Some (best_move1, min_util1, cache1, calls1)
      else
        match alphabeta_min_loop_calls child rest best_move1 min_util1
                alpha (py_min beta min_util1) cache1 with
        | None => None
        | Some (r, calls2) => Some (r, calls1 ++ calls2)
        end
    end
  end.

Fixpoint alphabeta_max_loop_calls
    (child : board -> value -> value -> cache_t -> option traced)
    (successors : list (board * move))
    (best_move : option move) (max_util alpha beta : value) (cache : cache_t)
  : option traced :=
  match successors with
  | [] => Some (best_move, max_util, cache, [])
  | successor :: rest =>
    match child successor.1 alpha beta cache with
    | None => None
    | Some (_, new_util, cache1, calls1) =>
      let '(best_move1, max_util1) :=
        if value_ltb max_util new_util
        then (Some successor.2, new_util) else (best_move, max_util) in
      if value_leb beta max_util1
      then Some (best_move1, max_util1, cache1, calls1)
      else
        match alphabeta_max_loop_calls child rest best_move1 max_util1
                (py_max alpha max_util1) beta cache1 with
        | None => None
        | Some (r, calls2) => Some (r, calls1 ++ calls2)
        end
    end
  end.

Fixpoint alphabeta_min_node_calls (fuel : nat) (bd : board) (color : Z)
    (alpha beta : value) (limit caching ordering : Z) (cache : cache_t)
    {struct fuel} : option traced :=
  match fuel with
  | O => None
  | S fuel' =>
    match cache_hit caching cache bd with
    | Some v => Some (None, v, cache, [])
    | None =>
      let moves := get_possible_moves bd (opponent_of color) in
      if is_leaf moves limit then
        let util := compute_utility bd color in
        Some (None, Fin util, cache_store caching cache bd (Fin util),
              [(ComputeUtility, bd, color)])
      else
        let keys :=
          sort_key_calls color ordering (successors_of bd (opponent_of color) moves) in
        match alphabeta_min_loop_calls
                (fun new_board a b c =>
                   alphabeta_max_node_calls fuel' new_board color a b
                     (limit - 1) caching ordering c)
                (min_successors bd color ordering moves)
                None PosInf alpha beta cache with
        | None => None
        | Some (best_move, min_util, cache', calls) =>
          Some (best_move, min_util, cache_store caching cache' bd min_util,
                keys ++ calls)
        end
    end
  end
with alphabeta_max_node_calls (fuel : nat) (bd : board) (color : Z)
    (alpha beta : value) (limit caching ordering : Z) (cache : cache_t)
    {struct fuel} : option traced :=
  match fuel with
  | O => None
  | S fuel' =>
    match cache_hit caching cache bd with
    | Some v => Some (None, v, cache, [])
    | None =>
      let moves := get_possible_moves bd color in
      if is_leaf moves limit then
        let util := compute_utility bd color in
        Some (None, Fin util, cache_store caching cache bd (Fin util),
              [(ComputeUtility, bd, color)])
      else
        let keys := sort_key_calls color ordering (successors_of bd color moves) in
        match alphabeta_max_loop_calls
                (fun new_board a b c =>
                   alphabeta_min_node_calls fuel' new_board color a b
                     (limit - 1) caching ordering c)
                (max_successors bd color ordering moves)
                None NegInf alpha beta cache with
        | None => None
        | Some (best_move, max_util, cache', calls) =>
          Some (best_move, max_util, cache_store caching cache' bd max_util,
                keys ++ calls)
        end
    end
  end.

(** [select_move_alphabeta] with its calls. *)
Definition select_move_alphabeta_calls (fuel : nat) (bd : board)
    (color limit caching ordering : Z) (g : global_t)
  : option (option move * global_t * list call) :=
  match alphabeta_max_node_calls fuel bd color NegInf PosInf (limit - 1)
          caching ordering ∅ with
  | None => None
  | Some (best_move, _, cache', calls) => Some (best_move, Some cache', calls)
  end.

(** *** The heuristic *)

(** The inner [for j] loop of [check_empty], on row [i]. *)
Fixpoint check_empty_cols (bd : board) (n : Z) (coordinates : Z * Z) (i : Z)
    (js : list Z) : option bool :=
  match js with
  | [] => Some false
  | j :: js' =>
    if (0 <=? j) && (j <=? n - 1)
       && negb ((i =? coordinates.1) && (j =? coordinates.2))
    then
      match board_at bd i j with
      | None => None
      | Some c =>
        if c =? 0 then Some true
        else check_empty_cols bd n coordinates i js'
      end
    else check_empty_cols bd n coordinates i js'
  end.

(** The outer [for i] loop of [check_empty]. *)
Fixpoint check_empty_rows (bd : board) (n : Z) (coordinates : Z * Z)
    (rows : list Z) : option bool :=
  match rows with
  | [] => Some false
  | i :: rows' =>
    if (0 <=? i) && (i <=? n - 1) then
      match check_empty_cols bd n coordinates i
              (py_range (coordinates.2 - 1) (coordinates.2 + 2)) with
      | None => None
      | Some true => Some true
      | Some false => check_empty_rows bd n coordinates rows'
      end
    else check_empty_rows bd n coordinates rows'
  end.

Definition check_empty (bd : board) (coordinates : Z * Z) : option bool :=
  let n := len bd in
  check_empty_rows bd n coordinates
    (py_range (coordinates.1 - 1) (coordinates.1 + 2)).

(** The inner [for j] loop of [count_empty], on row [i]. *)
Fixpoint count_empty_cols (bd : board) (color i : Z) (js : list Z) (total : Z)
  : option Z :=
  match js with
  | [] => Some total
  | j :: js' =>
    match board_at bd i j with
    | None => None
    | Some c =>
      if c =? color then
        match check_empty bd (i, j) with
        | None => None
        | Some true => count_empty_cols bd color i js' (total + 1)
        | Some false => count_empty_cols bd color i js' total
        end
      else count_empty_cols bd color i js' total
    end
  end.

(** The outer [for i] loop of [count_empty]. *)
Fixpoint count_empty_rows (bd : board) (color n : Z) (rows : list Z) (total : Z)
  : option Z :=
  match rows with
  | [] => Some total
  | i :: rows' =>
    match count_empty_cols bd color i (py_range 0 n) total with
    | None => None
    | Some total' => count_empty_rows bd color n rows' total'
    end
  end.

Definition count_empty (bd : board) (color : Z) : option Z :=
  let n := len bd in
  count_empty_rows bd color n (py_range 0 n) 0.

(** The [for corner in corners] loop of [compute_heuristic]. *)
Fixpoint count_corners (bd : board) (color opponent : Z) (corners : list (Z * Z))
    (my_corners opp_corners : Z) : option (Z * Z) :=
  match corners with
  | [] => Some (my_corners, opp_corners)
  | corner :: rest =>
    match board_at bd corner.1 corner.2 with
    | None => None
    | Some corner_color =>
      if corner_color =? color
      then count_corners bd color opponent rest (my_corners + 1) opp_corners
      else if corner_color =? opponent
      then count_corners bd color opponent rest my_corners (opp_corners + 1)
      else count_corners bd color opponent rest my_corners opp_corners
    end
  end.

(** [100 * ((mine - theirs) / (mine + theirs))]: the true division of
    two ints, then the product of the int 100 with the float quotient. *)
Definition ratio_term (mine theirs : Z) : option spec_float :=
  match py_truediv (mine - theirs) (mine + theirs) with
  | None => None
  | Some q => py_int_mul_float 100 q
  end.

(** [if mine + theirs != 0: result += 100 * (...)] *)
Definition add_ratio (acc : py_number) (mine theirs : Z) : option py_number :=
  if negb (mine + theirs =? 0)
  then match ratio_term mine theirs with
       | None => None
       | Some term => py_add_float acc term
       end
  else Some acc.

(** [None] stands for an exception; [result] starts as the int 0 and
    becomes a float with the first ratio added. *)
Definition compute_heuristic (bd : board) (color : Z) : option py_number :=
  let opponent := opponent_of color in
  let result := PyInt 0 in
  let my_mobility := Z.of_nat (length (get_possible_moves bd color)) in
  let opp_mobility := Z.of_nat (length (get_possible_moves bd opponent)) in
  match add_ratio result my_mobility opp_mobility with
  | None => None
  | Some result =>
    match count_empty bd color with
    | None => None
    | Some my_potmobility =>
      match count_empty bd opponent with
      | None => None
      | Some opp_potmobility =>
        match add_ratio result my_potmobility opp_potmobility with
        | None => None
        | Some result =>
          let n := len bd in
          let corners := [(0, 0); (0, n - 1); (n - 1, 0); (n - 1, n - 1)] in
          match count_corners bd color opponent corners 0 0 with
          | None => None
          | Some (my_corners, opp_corners) =>
            add_ratio result my_corners opp_corners
          end
        end
      end
    end
  end.

(** *** The main loop

    What [movei, movej = select_move_...(...)] and the [print] after it
    come to in one turn of [run_ai]: the move printed, or the
    [TypeError] of unpacking [None]. *)
Inductive turn_outcome : Type :=
  | Printed (movei movej : Z)
  | TypeError.

(** One turn of the main loop of [run_ai], from the board read to the
    move printed: [minimax == 1] selects [select_move_minimax], every
    other value [select_move_alphabeta]. *)
Definition run_ai_turn (fuel : nat)
    (color limit minimax caching ordering : Z) (bd : board) (g : global_t)
  : option (turn_outcome * global_t) :=
  let selected :=
    if minimax =? 1
    then select_move_minimax fuel bd color limit caching g
    else select_move_alphabeta fuel bd color limit caching ordering g in
  match selected with
  | None => None
  | Some (None, g') => Some (TypeError, g')
  | Some (Some (movei, movej), g') => Some (Printed movei movej, g')
  end.

(** *** Notions used to state the properties *)

(** The utility of a node's result. *)
Definition value_of (r : option result) : option value :=
  match r with Some (_, v, _) => Some v | None => None end.

(** The move and the utility of a node's result, without the cache. *)
Definition answer_of (r : option result) : option (option move * value) :=
  match r with Some (m, v, _) => Some (m, v) | None => None end.

(** [child], run from the cache [g], agrees with the exact utility
    [tv bd] of a board as far as the window it was given allows: a
    result below [b] is an upper bound of that utility, a result above
    [a] a lower bound, and the cache is left as it was. *)
Definition window_sound
    (child : board -> value -> value -> cache_t -> option result)
    (g : cache_t) (tv : board -> option value) (bd : board) : Prop :=
  exists u, tv bd = Some u
    /\ forall a b, exists m r,
         child bd a b g = Some (m, r, g)
         /\ (value_lt r b -> value_le u r)
         /\ (value_lt a r -> value_le r u).

(** Every move lowers the rank of the board by exactly one. *)
Definition graded (rank : board -> nat) : Prop :=
  forall bd player mv,
    In mv (get_possible_moves bd player) ->
    S (rank (play_move bd player mv.1 mv.2)) = rank bd.

(** The minimax search without caching of the node at which a search
    meets the board [bd], when that node is fixed by the rank of [bd]:
    its kind by the parity of the rank, its fuel and its depth limit by
    the offsets [cF] and [cL]. *)
Definition exact_search (rank : board -> nat) (color : Z)
    (cF cL : Z) (par : bool) (bd : board) : option result :=
  let fuel := Z.to_nat (cF + Z.of_nat (rank bd)) in
  let limit := cL + Z.of_nat (rank bd) in
  if Bool.eqb (Nat.even (rank bd)) par
  then minimax_max_node fuel bd color limit 0 ∅
  else minimax_min_node fuel bd color limit 0 ∅.

(** Every cached utility is the one the search without caching finds. *)
Definition cache_exact (rank : board -> nat) (color : Z)
    (cF cL : Z) (par : bool) (cache : cache_t) : Prop :=
  forall bd v,
    cache !! bd = Some v ->
    value_of (exact_search rank color cF cL par bd) = Some v.

(** Two successive calls of a selector, the second on the global state
    left by the first. *)
Definition twice {A : Type} (select : global_t -> option (A * global_t))
    (g : global_t) : option (A * A) :=
  match select g with
  | None => None
  | Some (r1, g1) =>
    match select g1 with
    | None => None
    | Some (r2, _) => Some (r1, r2)
    end
  end.

(** [count(color)] read off [get_score], which returns the dark count
    and the light count; color 1 is dark. *)
Definition piece_count (bd : board) (color : Z) : Z :=
  if color =? 1 then (get_score bd).1 else (get_score bd).2.

(** The four node functions. *)
Inductive node_kind : Type :=
  | MinimaxMin | MinimaxMax | AlphabetaMin | AlphabetaMax.

(** A call of one of the node functions; the minimax nodes take no
    window and no ordering flag. *)
Definition run_node (k : node_kind) (fuel : nat) (bd : board)
    (color : Z) (alpha beta : value) (limit caching ordering : Z) (cache : cache_t)
  : option result :=
  match k with
  | MinimaxMin => minimax_min_node fuel bd color limit caching cache
  | MinimaxMax => minimax_max_node fuel bd color limit caching cache
  | AlphabetaMin => alphabeta_min_node fuel bd color alpha beta limit caching ordering cache
  | AlphabetaMax => alphabeta_max_node fuel bd color alpha beta limit caching ordering cache
  end.

(** The same call with the evaluator calls it makes. *)
Definition run_node_calls (k : node_kind) (fuel : nat) (bd : board)
    (color : Z) (alpha beta : value) (limit caching ordering : Z) (cache : cache_t)
  : option traced :=
  match k with
  | MinimaxMin => minimax_min_node_calls fuel bd color limit caching cache
  | MinimaxMax => minimax_max_node_calls fuel bd color limit caching cache
  | AlphabetaMin =>
    alphabeta_min_node_calls fuel bd color alpha beta limit caching ordering cache
  | AlphabetaMax =>
    alphabeta_max_node_calls fuel bd color alpha beta limit caching ordering cache
  end.

(** No call of [compute_heuristic] among the calls. *)
Definition heuristic_free (calls : list call) : Prop :=
  forall bd color, ~ In (ComputeHeuristic, bd, color) calls.

(** Every call is [compute_utility(b, color)] for some board [b]. *)
Definition utility_calls (color : Z) (calls : list call) : Prop :=
  Forall (fun c : call => c.1.1 = ComputeUtility /\ c.2 = color) calls.

(** The player whose moves a node expands. *)
Definition mover (k : node_kind) (color : Z) : Z :=
  match k with
  | MinimaxMax | AlphabetaMax => color
  | MinimaxMin | AlphabetaMin => opponent_of color
  end.

(** What a node leaves in the cache: every entry it found, and, with
    caching on, its own board with the utility it returns; with caching
    off the cache is returned as it was. *)
Definition cache_kept (caching : Z) (cache : cache_t) (bd : board) (v : value)
    (c' : cache_t) : Prop :=
  cache ⊆ c' /\ (if truthy caching then c' !! bd = Some v else c' = cache).

(** The elements of key [k], in the order of the list. *)
Definition with_key (key : board * move -> Z) (k : Z) (l : list (board * move))
  : list (board * move) :=
  List.filter (fun s => key s =? k) l.

(** Some row is shorter than the board is high. *)
Definition has_short_row (bd : board) : Prop :=
  Exists (fun row => (length row < length bd)%nat) bd.

(** The utility seen from the other side. *)
Definition value_opp (v : value) : value :=
  match v with NegInf => PosInf | Fin z => Fin (- z) | PosInf => NegInf end.

(** A node's result with its utility seen from the other side. *)
Definition result_opp (r : result) : result := (r.1.1, value_opp r.1.2, r.2).

(** *** The heuristic as the specification words it

    These definitions follow section 4.1 of the specification, not the
    code; they are compared with [compute_heuristic] below. *)

(** A board is a square grid with at least one row. *)
Definition square (bd : board) : Prop :=
  (0 < length bd)%nat /\ Forall (fun row => length row = length bd) bd.

(** The cell at row [p.1], column [p.2] holds [c]. *)
Definition cell_is (bd : board) (p : Z * Z) (c : Z) : bool :=
  match bd !! Z.to_nat p.1 with
  | Some row =>
    match row !! Z.to_nat p.2 with
    | Some x => x =? c
    | None => false
    end
  | None => false
  end.

(** The position lies on an [n] by [n] board. *)
Definition on_board (n : Z) (p : Z * Z) : bool :=
  (0 <=? p.1) && (p.1 <? n) && (0 <=? p.2) && (p.2 <? n).

(** The 8-neighborhood of a position. *)
Definition neighbours (p : Z * Z) : list (Z * Z) :=
  [(p.1 - 1, p.2 - 1); (p.1 - 1, p.2); (p.1 - 1, p.2 + 1);
   (p.1, p.2 - 1); (p.1, p.2 + 1);
   (p.1 + 1, p.2 - 1); (p.1 + 1, p.2); (p.1 + 1, p.2 + 1)].

(** At least one neighboring cell, clipped at the board edge, is empty. *)
Definition has_empty_neighbour (bd : board) (p : Z * Z) : bool :=
  existsb (fun q => on_board (len bd) q && cell_is bd q 0) (neighbours p).

(** The test [check_empty] makes on the cell [(i, j)] next to
    [coordinates]. *)
Definition probe (bd : board) (coordinates : Z * Z) (i j : Z) : bool :=
  on_board (len bd) (i, j)
  && negb ((i =? coordinates.1) && (j =? coordinates.2))
  && cell_is bd (i, j) 0.

(** A piece of [color] with an empty neighboring cell. *)
Definition counted (bd : board) (color : Z) (p : Z * Z) : bool :=
  cell_is bd p color && has_empty_neighbour bd p.

(** The numbers 0, 1, ..., n - 1. *)
Definition indices (n : Z) : list Z := map Z.of_nat (seq 0 (Z.to_nat n)).

(** All positions of an [n] by [n] board, row by row. *)
Definition squares (n : Z) : list (Z * Z) :=
  flat_map (fun i => map (fun j => (i, j)) (indices n)) (indices n).

(** The number of positions of [l] that satisfy [f]. *)
Definition count_where (f : Z * Z -> bool) (l : list (Z * Z)) : Z :=
  Z.of_nat (length (List.filter f l)).

(** The pieces of [color] that have an empty neighboring cell. *)
Definition spec_potential (bd : board) (color : Z) : Z :=
  count_where (counted bd color) (squares (len bd)).

(** The corners occupied by [color]. *)
Definition spec_corners (bd : board) (color : Z) : Z :=
  let n := len bd in
  count_where (fun p => cell_is bd p color)
              [(0, 0); (0, n - 1); (n - 1, 0); (n - 1, n - 1)].

(** The legal moves of [color]. *)
Definition spec_mobility (bd : board) (color : Z) : Z :=
  Z.of_nat (length (get_possible_moves bd color)).

(** [100 x (mine - theirs) / (mine + theirs)], and 0 when the
    denominator is 0. *)
Definition spec_ratio (mine theirs : Z) : Q :=
  if mine + theirs =? 0 then 0%Q
  else (100 * inject_Z (mine - theirs) / inject_Z (mine + theirs))%Q.

Definition spec_mobility_ratio (bd : board) (color : Z) : Q :=
  spec_ratio (spec_mobility bd color) (spec_mobility bd (opponent_of color)).

Definition spec_potential_ratio (bd : board) (color : Z) : Q :=
  spec_ratio (spec_potential bd color) (spec_potential bd (opponent_of color)).

Definition spec_corner_ratio (bd : board) (color : Z) : Q :=
  spec_ratio (spec_corners bd color) (spec_corners bd (opponent_of color)).

(** The sum of the three ratios, each with weight one, in exact
    arithmetic. *)
Definition spec_heuristic (bd : board) (color : Z) : Q :=
  (spec_mobility_ratio bd color + spec_potential_ratio bd color
   + spec_corner_ratio bd color)%Q.

(** *** The heuristic in floating-point arithmetic

    The same three ratios and their sum when every operation is the
    binary64 one. *)

(** The rational [m x 2^e] that a finite float stands for; none for an
    infinity or a NaN. *)
Definition float_value (x : spec_float) : option Q :=
  match x with
  | S754_zero _ => Some 0%Q
  | S754_finite s m e =>
    Some (inject_Z (cond_Zopp s (Zpos m) * 2 ^ Z.max e 0)
          / inject_Z (2 ^ Z.max (- e) 0))%Q
  | _ => None
  end.

Definition number_value (x : py_number) : option Q :=
  match x with
  | PyInt z => Some (inject_Z z)
  | PyFloat f => float_value f
  end.

(** The float stands for a number between [lo] and [hi]. *)
Definition float_in_range (lo hi : Z) (x : spec_float) : Prop :=
  exists v, float_value x = Some v /\ (inject_Z lo <= v)%Q /\ (v <= inject_Z hi)%Q.

(** The float nearest to an integer. *)
Definition nearest_float (z : Z) : spec_float := binary_normalize prec emax z 0 false.

(** A ratio in floating point: the quotient rounded to nearest, then its
    product with 100 rounded to nearest; no ratio at all when the
    denominator is zero. *)
Definition rounded_ratio (mine theirs : Z) : option spec_float :=
  if mine + theirs =? 0 then None
  else Some (SFmul prec emax (nearest_float 100)
               (SFdiv prec emax (int_operand (mine - theirs))
                                (int_operand (mine + theirs)))).

(** A ratio added to a sum, the addition rounded to nearest; a ratio
    that does not exist leaves the sum as it is. *)
Definition add_rounded (sum : py_number) (ratio : option spec_float) : py_number :=
  match ratio with
  | None => sum
  | Some x =>
    PyFloat (SFadd prec emax
               (match sum with PyInt z => nearest_float z | PyFloat a => a end) x)
  end.

(** The sum of the ratios that exist, added one after the other to the
    int 0; the int 0 itself when there is none. *)
Definition rounded_sum (ratios : list (option spec_float)) : py_number :=
  fold_left add_rounded ratios (PyInt 0).

(** *** Notions used to reason about rounding *)

(** Nothing was lost in the shifts so far: the round bit and the sticky
    bit are off. *)
Definition shr_exact (mrs : shr_record) : Prop :=
  shr_r mrs = false /\ shr_s mrs = false.

(** The magnitude of a float is at most [K * 2^E], and the float is on
    the grid of [2^E] or on a finer one. *)
Definition bounded_by (K E : Z) (x : spec_float) : Prop :=
  match x with
  | S754_zero _ => True
  | S754_finite _ m e => e <= E /\ Zpos m <= K * 2 ^ (E - e)
  | _ => False
  end.

(** A result of the heuristic so far: the int 0, or a float of magnitude
    at most [K]. *)
Definition bounded_result (K : Z) (acc : py_number) : Prop :=
  acc = PyInt 0 \/ exists a, acc = PyFloat a /\ bounded_by K 0 a.

(** Two floats that stand for opposite numbers. *)
Definition float_opp (x y : spec_float) : Prop :=
  match x, y with
  | S754_zero _, S754_zero _ => True
  | S754_finite s m e, S754_finite s' m' e' => s' = negb s /\ m' = m /\ e' = e
  | _, _ => False
  end.

(** Two results of the heuristic that stand for opposite numbers: the
    int 0 twice, or two floats that are bounded by [K] and opposite. *)
Definition opposite_results (K : Z) (a b : py_number) : Prop :=
  (a = PyInt 0 /\ b = PyInt 0)
  \/ exists x y, a = PyFloat x /\ b = PyFloat y /\ bounded_by K 0 x /\ float_opp x y.

End Agent.

(** ** The rules of Othello *)

(** Modelled from the spec: the module [othello_shared] is not part of
    the sources; section 6 of the specification fixes its interface
    ([legalMoves], [applyMove], [score]) and the rules are those of
    Othello: a move on an empty square is legal when it brackets at least
    one straight line of opposing discs, and playing it flips them.
    Moves are enumerated column by column. *)
Module Othello.

(** [board[v][u]]; a position outside of the grid reads as -1, which is
    neither empty nor a disc. *)
Definition cell (bd : board) (u v : Z) : Z :=
  if (0 <=? u) && (0 <=? v)
  then default (-1) (bd !! Z.to_nat v ≫= fun row => row !! Z.to_nat u)
  else -1.

Definition size (bd : board) : Z := Z.of_nat (length bd).

Definition directions : list (Z * Z) :=
  [(0, 1); (1, 1); (1, 0); (1, -1); (0, -1); (-1, -1); (-1, 0); (-1, 1)].

(** Walk from [(u, v)] along [(xdir, ydir)] collecting opposing discs;
    [Some line] when the walk ends on a disc of [player]. *)
Fixpoint walk (steps : nat) (bd : board) (player u v xdir ydir : Z)
    (line : list move) : option (list move) :=
  match steps with
  | O => None
  | S steps' =>
    if (0 <=? u) && (u <? size bd) && (0 <=? v) && (v <? size bd) then
      if cell bd u v =? 0 then None
      else if cell bd u v =? player then Some line
      else walk steps' bd player (u + xdir) (v + ydir) xdir ydir (line ++ [(u, v)])
    else None
  end.

(** The lines of discs captured by [player] playing column [i], row [j]. *)
Definition find_lines (bd : board) (i j player : Z) : list (list move) :=
  flat_map
    (fun d : Z * Z =>
       match walk (S (length bd)) bd player (i + d.1) (j + d.2) d.1 d.2 [] with
       | Some (p :: line) => [p :: line]
       | _ => []
       end)
    directions.

Definition range (n : Z) : list Z := map Z.of_nat (seq 0 (Z.to_nat n)).

Definition possible_moves (bd : board) (player : Z) : list move :=
  flat_map
    (fun i =>
       flat_map
         (fun j =>
            if cell bd i j =? 0 then
              match find_lines bd i j player with
              | [] => []
              | _ => [(i, j)]
              end
            else [])
         (range (size bd)))
    (range (size bd)).

(** [new_board[v][u] = player] *)
Definition set_cell (bd : board) (u v player : Z) : board :=
  alter (fun row => <[Z.to_nat u := player]> row) (Z.to_nat v) bd.

Definition play (bd : board) (player i j : Z) : board :=
  fold_left
    (fun b line => fold_left (fun b' (p : move) => set_cell b' p.1 p.2 player) line b)
    (find_lines bd i j player)
    (set_cell bd i j player).

Definition count (c : Z) (bd : board) : Z :=
  Z.of_nat (length (filter (fun x => x = c) (concat bd))).

Definition score (bd : board) : Z * Z := (count 1 bd, count 2 bd).

(** The number of empty cells of a row, and of a board. *)
Fixpoint zeros (row : list Z) : nat :=
  match row with
  | [] => O
  | x :: row' => ((if (x =? 0)%Z then 1 else 0) + zeros row')%nat
  end.

Fixpoint empties (bd : board) : nat :=
  match bd with
  | [] => O
  | row :: bd' => (zeros row + empties bd')%nat
  end.

Definition shared : OthelloShared :=
  {| get_possible_moves := possible_moves;
     play_move := play;
     get_score := score |}.

(** The opening position on a 4x4 board. *)
Definition start4 : board :=
  [[0; 0; 0; 0];
   [0; 2; 1; 0];
   [0; 1; 2; 0];
   [0; 0; 0; 0]].

(** A 4x4 position after eight moves. *)
Definition midgame4 : board :=
  [[0; 0; 1; 1];
   [0; 1; 1; 1];
   [1; 1; 2; 1];
   [0; 2; 0; 2]].

(** The cell in column [u] of row [v], when there is one. *)
Definition lookup2 (bd : board) (u v : nat) : option Z :=
  bd !! v ≫= fun row => row !! u.

(** A cell that a capture may flip: on the grid and not empty. *)
Definition flippable (bd : board) (q : move) : Prop :=
  0 <= q.1 /\ 0 <= q.2 /\ cell bd q.1 q.2 <> 0.

(** A 4x4 position in which light has no disc left, hence no move. *)
Definition wiped4 : board :=
  [[0; 0; 0; 0];
   [0; 1; 1; 1];
   [0; 1; 1; 0];
   [0; 0; 0; 0]].

(** The opening position on the standard 8x8 board. *)
Definition start8 : board :=
  [[0; 0; 0; 0; 0; 0; 0; 0];
   [0; 0; 0; 0; 0; 0; 0; 0];
   [0; 0; 0; 0; 0; 0; 0; 0];
   [0; 0; 0; 2; 1; 0; 0; 0];
   [0; 0; 0; 1; 2; 0; 0; 0];
   [0; 0; 0; 0; 0; 0; 0; 0];
   [0; 0; 0; 0; 0; 0; 0; 0];
   [0; 0; 0; 0; 0; 0; 0; 0]].

(** A 3x3 position on which the three ratios of the heuristic are
    100, -200/3 and -100/3 for dark. *)
Definition thirds3 : board :=
  [[0; 0; 2];
   [2; 0; 2];
   [1; 2; 2]].

End Othello.

(** * Properties *)

(** ** The order on utilities *)

Ltac value_order :=
  intros;
  unfold value_lt, value_le, value_leb, py_max, py_min in *;
  repeat match goal with v : value |- _ => destruct v end;
  simpl in *;
  repeat match goal with
         | |- context [(?a <? ?b)] => destruct (Z.ltb_spec a b)
         | H : context [(?a <? ?b)] |- _ => destruct (Z.ltb_spec a b)
         end;
  simpl in *; try congruence; try lia; try (f_equal; lia).

Lemma value_ltb_irrefl (x : value) : value_ltb x x = false.
Proof. value_order. Qed.

Lemma value_lt_le (x y : value) : value_lt x y -> value_le x y.
Proof. value_order. Qed.

Lemma value_le_refl (x : value) : value_le x x.
Proof. value_order. Qed.

Lemma value_le_trans (x y z : value) : value_le x y -> value_le y z -> value_le x z.
Proof. value_order. Qed.

Lemma value_lt_le_trans (x y z : value) : value_lt x y -> value_le y z -> value_lt x z.
Proof. value_order. Qed.

Lemma value_le_lt_trans (x y z : value) : value_le x y -> value_lt y z -> value_lt x z.
Proof. value_order. Qed.

Lemma value_le_antisym (x y : value) : value_le x y -> value_le y x -> x = y.
Proof. value_order. Qed.

Lemma value_ltb_false_le (x y : value) : value_ltb x y = false -> value_le y x.
Proof. value_order. Qed.

Section Leaves.
Context `{OthelloShared}.

Lemma cache_hit_off (cache : cache_t) (bd : board) : cache_hit 0 cache bd = None.
Proof. reflexivity. Qed.

Lemma cache_hit_empty (caching : Z) (bd : board) : cache_hit caching ∅ bd = None.
Proof. unfold cache_hit. destruct (truthy caching); [apply lookup_empty | reflexivity]. Qed.

Lemma cache_store_off (cache : cache_t) (bd : board) (v : value) :
  cache_store 0 cache bd v = cache.
Proof. reflexivity. Qed.

Lemma is_leaf_nil (limit : Z) : is_leaf [] limit = true.
Proof. reflexivity. Qed.

Lemma is_leaf_zero (moves : list move) : is_leaf moves 0 = true.
Proof. destruct moves; reflexivity. Qed.

Lemma is_leaf_false (moves : list move) (limit : Z) :
  moves <> [] -> limit <> 0 -> is_leaf moves limit = false.
Proof.
  intros Hm Hl. destruct moves as [|mv rest]; [congruence|].
  simpl. unfold truthy. destruct (Z.eqb_spec limit 0); [congruence | reflexivity].
Qed.

(** A node that misses the cache and is a leaf returns no move and the
    exact score differential, whatever the node function. *)
Lemma minimax_max_node_leaf fuel bd color limit caching cache :
  cache_hit caching cache bd = None ->
  is_leaf (get_possible_moves bd color) limit = true ->
  minimax_max_node (S fuel) bd color limit caching cache
  = Some (None, Fin (compute_utility bd color),
          cache_store caching cache bd (Fin (compute_utility bd color))).
Proof. intros Hc Hl. simpl. rewrite Hc, Hl. reflexivity. Qed.

Lemma minimax_min_node_leaf fuel bd color limit caching cache :
  cache_hit caching cache bd = None ->
  is_leaf (get_possible_moves bd (opponent_of color)) limit = true ->
  minimax_min_node (S fuel) bd color limit caching cache
  = Some (None, Fin (compute_utility bd color),
          cache_store caching cache bd (Fin (compute_utility bd color))).
Proof. intros Hc Hl. simpl. rewrite Hc, Hl. reflexivity. Qed.

Lemma alphabeta_max_node_leaf fuel bd color alpha beta limit caching ordering cache :
  cache_hit caching cache bd = None ->
  is_leaf (get_possible_moves bd color) limit = true ->
  alphabeta_max_node (S fuel) bd color alpha beta limit caching ordering cache
  = Some (None, Fin (compute_utility bd color),
          cache_store caching cache bd (Fin (compute_utility bd color))).
Proof. intros Hc Hl. simpl. rewrite Hc, Hl. reflexivity. Qed.

Lemma alphabeta_min_node_leaf fuel bd color alpha beta limit caching ordering cache :
  cache_hit caching cache bd = None ->
  is_leaf (get_possible_moves bd (opponent_of color)) limit = true ->
  alphabeta_min_node (S fuel) bd color alpha beta limit caching ordering cache
  = Some (None, Fin (compute_utility bd color),
          cache_store caching cache bd (Fin (compute_utility bd color))).
Proof. intros Hc Hl. simpl. rewrite Hc, Hl. reflexivity. Qed.

End Leaves.

(** ** The loops of the minimax nodes *)

Section MinimaxLoops.
Context `{OthelloShared}.
Variables (P : cache_t -> Prop) (V : value -> Prop).
Variable child : board -> cache_t -> option result.

(** What a finished max loop returns, from what its children return:
    [P] is kept along the caches, and the result is either the seed or
    a child utility that beat the seed, with a move of the list. *)
Lemma minimax_max_loop_rule bd color moves :
  (forall mv c m v c', In mv moves -> P c ->
     child (play_move bd color mv.1 mv.2) c = Some (m, v, c') -> V v /\ P c') ->
  forall best mu cache best' v c',
    P cache ->
    minimax_max_loop child bd color moves best mu cache = Some (best', v, c') ->
    P c' /\ ((v = mu /\ best' = best)
             \/ (V v /\ value_lt mu v /\ exists mv, best' = Some mv /\ In mv moves)).
Proof.
  induction moves as [|mv rest IH]; intros Hchild best mu cache best' v c' HP Hrun.
  - simpl in Hrun. inversion Hrun; subst. auto.
  - simpl in Hrun.
    destruct (child (play_move bd color mv.1 mv.2) cache) as [[[m v1] c1]|] eqn:Hc;
      [|discriminate].
    destruct (Hchild mv cache m v1 c1 (or_introl eq_refl) HP Hc) as [HV HP1].
    assert (Hrest : forall mv0 c m0 v0 c0, In mv0 rest -> P c ->
               child (play_move bd color mv0.1 mv0.2) c = Some (m0, v0, c0) ->
               V v0 /\ P c0)
      by (intros; eapply Hchild; eauto; right; assumption).
    destruct (value_ltb mu v1) eqn:Hlt.
    + destruct (IH Hrest _ _ _ _ _ _ HP1 Hrun) as [HP' [[-> ->] | (HV' & Hlt' & mv' & -> & Hin)]].
      * split; [assumption|]. right. repeat split; auto. exists mv. split; auto. left; auto.
      * split; [assumption|]. right. repeat split; auto.
        -- revert Hlt Hlt'. clear. value_order.
        -- exists mv'. split; auto. right; auto.
    + destruct (IH Hrest _ _ _ _ _ _ HP1 Hrun) as [HP' [[-> ->] | (HV' & Hlt' & mv' & -> & Hin)]].
      * auto.
      * split; [assumption|]. right. repeat split; auto.
        exists mv'. split; auto. right; auto.
Qed.

Lemma minimax_min_loop_rule bd opponent moves :
  (forall mv c m v c', In mv moves -> P c ->
     child (play_move bd opponent mv.1 mv.2) c = Some (m, v, c') -> V v /\ P c') ->
  forall best mu cache best' v c',
    P cache ->
    minimax_min_loop child bd opponent moves best mu cache = Some (best', v, c') ->
    P c' /\ ((v = mu /\ best' = best)
             \/ (V v /\ value_lt v mu /\ exists mv, best' = Some mv /\ In mv moves)).
Proof.
  induction moves as [|mv rest IH]; intros Hchild best mu cache best' v c' HP Hrun.
  - simpl in Hrun. inversion Hrun; subst. auto.
  - simpl in Hrun.
    destruct (child (play_move bd opponent mv.1 mv.2) cache) as [[[m v1] c1]|] eqn:Hc;
      [|discriminate].
    destruct (Hchild mv cache m v1 c1 (or_introl eq_refl) HP Hc) as [HV HP1].
    assert (Hrest : forall mv0 c m0 v0 c0, In mv0 rest -> P c ->
               child (play_move bd opponent mv0.1 mv0.2) c = Some (m0, v0, c0) ->
               V v0 /\ P c0)
      by (intros; eapply Hchild; eauto; right; assumption).
    destruct (value_ltb v1 mu) eqn:Hlt.
    + destruct (IH Hrest _ _ _ _ _ _ HP1 Hrun) as [HP' [[-> ->] | (HV' & Hlt' & mv' & -> & Hin)]].
      * split; [assumption|]. right. repeat split; auto. exists mv. split; auto. left; auto.
      * split; [assumption|]. right. repeat split; auto.
        -- revert Hlt Hlt'. clear. value_order.
        -- exists mv'. split; auto. right; auto.
    + destruct (IH Hrest _ _ _ _ _ _ HP1 Hrun) as [HP' [[-> ->] | (HV' & Hlt' & mv' & -> & Hin)]].
      * auto.
      * split; [assumption|]. right. repeat split; auto.
        exists mv'. split; auto. right; auto.
Qed.

(** A loop returns as soon as each of its children does. *)
Lemma minimax_max_loop_returns bd color moves :
  (forall mv c, In mv moves -> P c ->
     exists m v c', child (play_move bd color mv.1 mv.2) c = Some (m, v, c') /\ P c') ->
  forall best mu cache,
    P cache -> is_Some (minimax_max_loop child bd color moves best mu cache).
Proof.
  induction moves as [|mv rest IH]; intros Hchild best mu cache HP.
  - simpl. eauto.
  - simpl. destruct (Hchild mv cache (or_introl eq_refl) HP) as (m & v & c1 & -> & HP1).
    destruct (value_ltb mu v); apply IH; auto; intros; apply Hchild; auto; right; auto.
Qed.

Lemma minimax_min_loop_returns bd opponent moves :
  (forall mv c, In mv moves -> P c ->
     exists m v c', child (play_move bd opponent mv.1 mv.2) c = Some (m, v, c') /\ P c') ->
  forall best mu cache,
    P cache -> is_Some (minimax_min_loop child bd opponent moves best mu cache).
Proof.
  induction moves as [|mv rest IH]; intros Hchild best mu cache HP.
  - simpl. eauto.
  - simpl. destruct (Hchild mv cache (or_introl eq_refl) HP) as (m & v & c1 & -> & HP1).
    destruct (value_ltb v mu); apply IH; auto; intros; apply Hchild; auto; right; auto.
Qed.

(** On a non-empty list whose child utilities all beat the seed, the
    loop returns a child utility and a move of the list. *)
Lemma minimax_max_loop_rule_nonempty bd color moves :
  moves <> [] ->
  (forall mv c m v c', In mv moves -> P c ->
     child (play_move bd color mv.1 mv.2) c = Some (m, v, c') -> V v /\ P c') ->
  forall best mu cache best' v c',
    (forall w, V w -> value_lt mu w) ->
    P cache ->
    minimax_max_loop child bd color moves best mu cache = Some (best', v, c') ->
    P c' /\ V v /\ exists mv, best' = Some mv /\ In mv moves.
Proof.
  destruct moves as [|mv rest]; [congruence|].
  intros _ Hchild best mu cache best' v c' Hseed HP Hrun. simpl in Hrun.
  destruct (child (play_move bd color mv.1 mv.2) cache) as [[[m v1] c1]|] eqn:Hc;
    [|discriminate].
  destruct (Hchild mv cache m v1 c1 (or_introl eq_refl) HP Hc) as [HV HP1].
  rewrite (Hseed v1 HV) in Hrun.
  eapply minimax_max_loop_rule in Hrun; eauto.
  - destruct Hrun as [HP' [[-> ->] | (HV' & _ & mv' & -> & Hin)]].
    + repeat split; auto. exists mv. split; auto. left; auto.
    + repeat split; auto. exists mv'. split; auto. right; auto.
  - intros; eapply Hchild; eauto. right; assumption.
Qed.

Lemma minimax_min_loop_rule_nonempty bd opponent moves :
  moves <> [] ->
  (forall mv c m v c', In mv moves -> P c ->
     child (play_move bd opponent mv.1 mv.2) c = Some (m, v, c') -> V v /\ P c') ->
  forall best mu cache best' v c',
    (forall w, V w -> value_lt w mu) ->
    P cache ->
    minimax_min_loop child bd opponent moves best mu cache = Some (best', v, c') ->
    P c' /\ V v /\ exists mv, best' = Some mv /\ In mv moves.
Proof.
  destruct moves as [|mv rest]; [congruence|].
  intros _ Hchild best mu cache best' v c' Hseed HP Hrun. simpl in Hrun.
  destruct (child (play_move bd opponent mv.1 mv.2) cache) as [[[m v1] c1]|] eqn:Hc;
    [|discriminate].
  destruct (Hchild mv cache m v1 c1 (or_introl eq_refl) HP Hc) as [HV HP1].
  rewrite (Hseed v1 HV) in Hrun.
  eapply minimax_min_loop_rule in Hrun; eauto.
  - destruct Hrun as [HP' [[-> ->] | (HV' & _ & mv' & -> & Hin)]].
    + repeat split; auto. exists mv. split; auto. left; auto.
    + repeat split; auto. exists mv'. split; auto. right; auto.
  - intros; eapply Hchild; eauto. right; assumption.
Qed.

End MinimaxLoops.

(** ** The minimax nodes *)

Section MinimaxNodes.
Context `{OthelloShared}.

Lemma is_leaf_false_inv (moves : list move) (limit : Z) :
  is_leaf moves limit = false -> moves <> [] /\ limit <> 0.
Proof.
  intros Hl. split; intros ->.
  - rewrite is_leaf_nil in Hl. discriminate.
  - rewrite is_leaf_zero in Hl. discriminate.
Qed.

Lemma cache_hit_finite caching cache bd v :
  (truthy caching = true -> cache_finite cache) ->
  cache_hit caching cache bd = Some v -> is_finite v.
Proof.
  unfold cache_hit. destruct (truthy caching); [|discriminate].
  intros Hf Hl. exact (Hf eq_refl bd v Hl).
Qed.

Lemma cache_finite_empty : cache_finite ∅.
Proof. intros b w Hl. rewrite lookup_empty in Hl. discriminate. Qed.

Lemma cache_store_finite caching cache bd v :
  is_finite v ->
  (truthy caching = true -> cache_finite cache) ->
  (truthy caching = true -> cache_finite (cache_store caching cache bd v)).
Proof.
  intros Hv Hf Ht. unfold cache_store. rewrite Ht.
  intros b w. rewrite lookup_insert. case_decide.
  - intros [= <-]. exact Hv.
  - apply (Hf Ht).
Qed.

(** Every utility returned by a minimax node is an integer, and the
    cache only ever holds integers. *)
Lemma minimax_finite fuel caching color :
  forall bd limit cache m v c',
    (truthy caching = true -> cache_finite cache) ->
    (minimax_max_node fuel bd color limit caching cache = Some (m, v, c') ->
     is_finite v /\ (truthy caching = true -> cache_finite c'))
    /\ (minimax_min_node fuel bd color limit caching cache = Some (m, v, c') ->
        is_finite v /\ (truthy caching = true -> cache_finite c')).
Proof.
  induction fuel as [|fuel IH]; intros bd limit cache m v c' HP;
    [split; discriminate|].
  split; intros Hrun; simpl in Hrun;
    (destruct (cache_hit caching cache bd) as [v0|] eqn:Hhit;
     [ inversion Hrun; subst; split; [eapply cache_hit_finite; eauto | assumption] |]).
  - destruct (is_leaf (get_possible_moves bd color) limit) eqn:Hleaf.
    + inversion Hrun; subst. split; [exact I|]. apply cache_store_finite; [exact I | assumption].
    + destruct (minimax_max_loop _ bd color _ None NegInf cache)
        as [[[best mu] c1]|] eqn:Hloop; [|discriminate].
      inversion Hrun; subst. apply is_leaf_false_inv in Hleaf as [Hne _].
      eapply (minimax_max_loop_rule_nonempty
                (fun c => truthy caching = true -> cache_finite c) is_finite)
        in Hloop as (HP1 & HV & _); eauto.
      * split; [assumption|]. apply cache_store_finite; assumption.
      * intros mv c m0 v0 c0 _ HPc Hc. exact (proj2 (IH _ _ _ m0 v0 c0 HPc) Hc).
      * intros w Hw. destruct w; simpl in Hw; try contradiction; reflexivity.
  - destruct (is_leaf (get_possible_moves bd (opponent_of color)) limit) eqn:Hleaf.
    + inversion Hrun; subst. split; [exact I|]. apply cache_store_finite; [exact I | assumption].
    + destruct (minimax_min_loop _ bd (opponent_of color) _ None PosInf cache)
        as [[[best mu] c1]|] eqn:Hloop; [|discriminate].
      inversion Hrun; subst. apply is_leaf_false_inv in Hleaf as [Hne _].
      eapply (minimax_min_loop_rule_nonempty
                (fun c => truthy caching = true -> cache_finite c) is_finite)
        in Hloop as (HP1 & HV & _); eauto.
      * split; [assumption|]. apply cache_store_finite; assumption.
      * intros mv c m0 v0 c0 _ HPc Hc. exact (proj1 (IH _ _ _ m0 v0 c0 HPc) Hc).
      * intros w Hw. destruct w; simpl in Hw; try contradiction; reflexivity.
Qed.

(** With a non-negative depth limit the recursion is bounded by it:
    more fuel than the limit is enough for a node to return. *)
Lemma minimax_returns fuel :
  forall limit bd color caching cache,
    0 <= limit < Z.of_nat fuel ->
    is_Some (minimax_max_node fuel bd color limit caching cache)
    /\ is_Some (minimax_min_node fuel bd color limit caching cache).
Proof.
  induction fuel as [|fuel IH]; intros limit bd color caching cache Hl; [lia|].
  split; simpl; (destruct (cache_hit caching cache bd); [eauto|]).
  - destruct (is_leaf _ limit) eqn:Hleaf; [eauto|].
    apply is_leaf_false_inv in Hleaf as [_ Hnz].
    destruct (minimax_max_loop_returns (fun _ => True)
                (fun new_board c =>
                   minimax_min_node fuel new_board color (limit - 1) caching c)
                bd color (get_possible_moves bd color)) with
      (best := @None move) (mu := NegInf) (cache := cache) as [[[b v] c] ->]; eauto.
    intros mv c _ _.
    destruct (IH (limit - 1) (play_move bd color mv.1 mv.2) color caching c)
      as [_ [[[m v] c'] ->]]; [lia | eauto].
  - destruct (is_leaf _ limit) eqn:Hleaf; [eauto|].
    apply is_leaf_false_inv in Hleaf as [_ Hnz].
    destruct (minimax_min_loop_returns (fun _ => True)
                (fun new_board c =>
                   minimax_max_node fuel new_board color (limit - 1) caching c)
                bd (opponent_of color) (get_possible_moves bd (opponent_of color))) with
      (best := @None move) (mu := PosInf) (cache := cache) as [[[b v] c] ->]; eauto.
    intros mv c _ _.
    destruct (IH (limit - 1) (play_move bd (opponent_of color) mv.1 mv.2) color caching c)
      as [[[[m v] c'] ->] _]; [lia | eauto].
Qed.

(** A max node that expands its moves returns one of them. *)
Lemma minimax_max_node_picks fuel bd color limit caching cache m v c' :
  (truthy caching = true -> cache_finite cache) ->
  cache_hit caching cache bd = None ->
  is_leaf (get_possible_moves bd color) limit = false ->
  minimax_max_node fuel bd color limit caching cache = Some (m, v, c') ->
  exists mv, m = Some mv /\ In mv (get_possible_moves bd color).
Proof.
  intros HP Hhit Hleaf Hrun. destruct fuel as [|fuel]; [discriminate|].
  simpl in Hrun. rewrite Hhit, Hleaf in Hrun.
  destruct (minimax_max_loop _ bd color _ None NegInf cache)
    as [[[best mu] c1]|] eqn:Hloop; [|discriminate].
  inversion Hrun; subst. apply is_leaf_false_inv in Hleaf as [Hne _].
  eapply (minimax_max_loop_rule_nonempty
            (fun c => truthy caching = true -> cache_finite c) is_finite)
    in Hloop as (_ & _ & Hmv); eauto.
  - intros mv c m0 v0 c0 _ HPc Hc.
    exact (proj2 (minimax_finite fuel caching color _ _ _ m0 v0 c0 HPc) Hc).
  - intros w Hw. destruct w; simpl in Hw; try contradiction; reflexivity.
Qed.

End MinimaxNodes.

(** X4: with a non-negative depth limit, the minimax selector returns as
    soon as the recursion may go one level deeper than the limit,
    whatever the board, the color and the caching flag. *)
Theorem minimax_returns_within_limit `{OthelloShared}
    (fuel : nat) (bd : board) (color limit caching : Z) (g : global_t) :
  0 <= limit < Z.of_nat fuel ->
  is_Some (minimax_root fuel bd color limit caching)
  /\ is_Some (select_move_minimax fuel bd color limit caching g).
Proof.
  intros Hl. unfold select_move_minimax, minimax_root.
  destruct (minimax_returns fuel limit bd color caching ∅ Hl) as [[[[m v] c] ->] _].
  eauto.
Qed.

(** The witness: the 8x8 opening position at depth limit 2. *)
Lemma minimax_returns_within_limit_witness :
  is_Some (minimax_root (H := Othello.shared) 3 Othello.start8 1 2 1)
  /\ is_Some (select_move_minimax (H := Othello.shared) 3 Othello.start8 1 2 1 None).
Proof.
  apply (minimax_returns_within_limit (H := Othello.shared) 3 Othello.start8 1 2 1 None).
  lia.
Defined.

(** ** Boards without a legal move *)

(** C3: when the acting color has no legal move, the minimax and the
    alpha-beta max node (entered on a board that is not in the cache,
    as the root always is) return no move paired with the exact score
    differential of that color, for every depth limit, window and flag
    setting, and both selectors return no move. The result is produced
    as soon as one level of recursion is allowed: nothing is raised. *)
Theorem no_legal_move_is_none `{OthelloShared}
    (fuel : nat) (bd : board) (color limit caching ordering : Z)
    (alpha beta : value) (cache : cache_t) (g : global_t) :
  get_possible_moves bd color = [] ->
  cache_hit caching cache bd = None ->
  let util := Fin (compute_utility bd color) in
  minimax_max_node (S fuel) bd color limit caching cache
    = Some (None, util, cache_store caching cache bd util)
  /\ alphabeta_max_node (S fuel) bd color alpha beta limit caching ordering cache
    = Some (None, util, cache_store caching cache bd util)
  /\ minimax_root (S fuel) bd color limit caching
    = Some (None, util, cache_store caching ∅ bd util)
  /\ alphabeta_root (S fuel) bd color limit caching ordering
    = Some (None, util, cache_store caching ∅ bd util)
  /\ select_move_minimax (S fuel) bd color limit caching g
    = Some (None, Some (cache_store caching ∅ bd util))
  /\ select_move_alphabeta (S fuel) bd color limit caching ordering g
    = Some (None, Some (cache_store caching ∅ bd util)).
Proof.
  intros Hmoves Hmiss util.
  assert (Hleaf : forall l, is_leaf (get_possible_moves bd color) l = true)
    by (intros l; rewrite Hmoves; apply is_leaf_nil).
  assert (Hroot_mm : minimax_root (S fuel) bd color limit caching
                     = Some (None, util, cache_store caching ∅ bd util)).
  { unfold minimax_root. apply minimax_max_node_leaf; [apply cache_hit_empty | apply Hleaf]. }
  assert (Hroot_ab : alphabeta_root (S fuel) bd color limit caching ordering
                     = Some (None, util, cache_store caching ∅ bd util)).
  { unfold alphabeta_root. apply alphabeta_max_node_leaf; [apply cache_hit_empty | apply Hleaf]. }
  repeat split.
  - apply minimax_max_node_leaf; [exact Hmiss | apply Hleaf].
  - apply alphabeta_max_node_leaf; [exact Hmiss | apply Hleaf].
  - exact Hroot_mm.
  - exact Hroot_ab.
  - unfold select_move_minimax. rewrite Hroot_mm. reflexivity.
  - unfold select_move_alphabeta. rewrite Hroot_ab. reflexivity.
Qed.

(** The witness of C3: light to move on a board without light discs. *)
Lemma no_legal_move_is_none_witness :
  minimax_root (H := Othello.shared) 1 Othello.wiped4 2 3 1
    = Some (None, Fin (-5), {[ Othello.wiped4 := Fin (-5) ]})
  /\ alphabeta_root (H := Othello.shared) 1 Othello.wiped4 2 3 1 1
    = Some (None, Fin (-5), {[ Othello.wiped4 := Fin (-5) ]})
  /\ select_move_minimax (H := Othello.shared) 1 Othello.wiped4 2 3 1 None
    = Some (None, Some {[ Othello.wiped4 := Fin (-5) ]})
  /\ select_move_alphabeta (H := Othello.shared) 1 Othello.wiped4 2 3 1 1 None
    = Some (None, Some {[ Othello.wiped4 := Fin (-5) ]}).
Proof.
  apply (no_legal_move_is_none (H := Othello.shared)
           0 Othello.wiped4 2 3 1 1 NegInf PosInf ∅ None).
  - vm_compute. reflexivity.
  - apply cache_hit_empty.
Defined.

(** ** The exact utility *)

(** C6: for the two valid colors, [compute_utility] is the piece count
    of the color minus the piece count of its opponent, the counts being
    those of [get_score] (dark first, light second; color 1 is dark). *)
Theorem compute_utility_is_differential `{OthelloShared} (bd : board) (color : Z) :
  color = 1 \/ color = 2 ->
  compute_utility bd color
  = piece_count bd color - piece_count bd (opponent_of color).
Proof.
  intros [-> | ->]; unfold compute_utility, piece_count, opponent_of;
    destruct (get_score bd) as [num_dark num_light]; reflexivity.
Qed.

(** The witness of C6: light on the 4x4 midgame position, 3 discs
    against 8. *)
Lemma compute_utility_is_differential_witness :
  compute_utility (H := Othello.shared) Othello.midgame4 2 = 3 - 8.
Proof.
  exact (compute_utility_is_differential (H := Othello.shared) Othello.midgame4 2
           (or_intror eq_refl)).
Defined.

(** ** Determinism of the selectors *)

(** C8: a selector's result does not depend on the global cache left by
    earlier calls, since it starts from a fresh dictionary; hence two
    successive calls with the same arguments give the same move. *)
Theorem selectors_are_deterministic `{OthelloShared}
    (fuel : nat) (bd : board) (color limit caching ordering : Z) (g g' : global_t) :
  select_move_minimax fuel bd color limit caching g
    = select_move_minimax fuel bd color limit caching g'
  /\ select_move_alphabeta fuel bd color limit caching ordering g
    = select_move_alphabeta fuel bd color limit caching ordering g'
  /\ twice (select_move_minimax fuel bd color limit caching) g
    = match select_move_minimax fuel bd color limit caching g with
      | Some (mv, _) => Some (mv, mv)
      | None => None
      end
  /\ twice (select_move_alphabeta fuel bd color limit caching ordering) g
    = match select_move_alphabeta fuel bd color limit caching ordering g with
      | Some (mv, _) => Some (mv, mv)
      | None => None
      end.
Proof.
  repeat split; try reflexivity; unfold twice.
  - unfold select_move_minimax.
    destruct (minimax_root fuel bd color limit caching) as [[[mv v] c]|]; reflexivity.
  - unfold select_move_alphabeta.
    destruct (alphabeta_root fuel bd color limit caching ordering) as [[[mv v] c]|];
      reflexivity.
Qed.

(** ** Depth limit one *)

(** C9: with depth limit 1, [select_move_alphabeta] enters its root max
    node with [limit - 1 = 0], which returns the static evaluation and no
    move, whether or not the acting color has a legal move and whatever
    the flags; [select_move_minimax] with depth limit 1 returns one of
    the legal moves as soon as there is one. *)
Theorem alphabeta_depth_one_is_none `{OthelloShared}
    (fuel : nat) (bd : board) (color caching ordering : Z) (g : global_t) :
  alphabeta_root (S fuel) bd color 1 caching ordering
    = Some (None, Fin (compute_utility bd color),
            cache_store caching ∅ bd (Fin (compute_utility bd color)))
  /\ select_move_alphabeta (S fuel) bd color 1 caching ordering g
    = Some (None, Some (cache_store caching ∅ bd (Fin (compute_utility bd color))))
  /\ (get_possible_moves bd color <> [] ->
      exists mv g',
        select_move_minimax (S (S fuel)) bd color 1 caching g = Some (Some mv, g')
        /\ In mv (get_possible_moves bd color)).
Proof.
  assert (Hroot : alphabeta_root (S fuel) bd color 1 caching ordering
                  = Some (None, Fin (compute_utility bd color),
                          cache_store caching ∅ bd (Fin (compute_utility bd color)))).
  { unfold alphabeta_root. change (1 - 1) with 0.
    apply alphabeta_max_node_leaf; [apply cache_hit_empty | apply is_leaf_zero]. }
  split; [exact Hroot|]. split.
  - unfold select_move_alphabeta. rewrite Hroot. reflexivity.
  - intros Hmoves. unfold select_move_minimax, minimax_root.
    destruct (minimax_returns (S (S fuel)) 1 bd color caching ∅) as [[[[m v] c] Hrun] _];
      [lia|].
    rewrite Hrun.
    destruct (minimax_max_node_picks _ _ _ _ _ _ _ _ _
                (fun _ => cache_finite_empty)
                (cache_hit_empty caching bd)
                (is_leaf_false _ 1 Hmoves ltac:(lia)) Hrun) as (mv & -> & Hin).
    eauto.
Qed.

(** The witness of C9: the opening position of a 4x4 board, dark to move. *)
Lemma alphabeta_depth_one_is_none_witness :
  alphabeta_root (H := Othello.shared) 1 Othello.start4 1 1 0 0 = Some (None, Fin 0, ∅)
  /\ exists mv g',
      select_move_minimax (H := Othello.shared) 2 Othello.start4 1 1 0 None
      = Some (Some mv, g')
      /\ In mv (get_possible_moves (OthelloShared := Othello.shared) Othello.start4 1).
Proof.
  destruct (alphabeta_depth_one_is_none (H := Othello.shared) 0 Othello.start4 1 0 0 None)
    as (Hroot & _ & Hmm).
  split; [exact Hroot|]. apply Hmm. vm_compute. discriminate.
Defined.

(** ** Minimax without caching: the first best move *)

Section FirstBest.
Context `{OthelloShared}.

(** With caching off a node leaves the cache as it found it. *)
Lemma minimax_cache_off fuel color :
  forall bd limit cache m v c',
    (minimax_max_node fuel bd color limit 0 cache = Some (m, v, c') -> c' = cache)
    /\ (minimax_min_node fuel bd color limit 0 cache = Some (m, v, c') -> c' = cache).
Proof.
  induction fuel as [|fuel IH]; intros bd limit cache m v c'; [split; discriminate|].
  split; intros Hrun; simpl in Hrun; unfold cache_store in Hrun; simpl in Hrun.
  - destruct (is_leaf (get_possible_moves bd color) limit); [congruence|].
    destruct (minimax_max_loop _ bd color _ None NegInf cache)
      as [[[best mu] c1]|] eqn:Hloop; [|discriminate].
    inversion Hrun; subst.
    eapply (minimax_max_loop_rule (fun c => c = cache) (fun _ => True)) in Hloop
      as [-> _]; eauto.
    intros mv c m0 v0 c0 _ -> Hc. split; [exact I|]. exact (proj2 (IH _ _ _ _ _ _) Hc).
  - destruct (is_leaf (get_possible_moves bd (opponent_of color)) limit); [congruence|].
    destruct (minimax_min_loop _ bd (opponent_of color) _ None PosInf cache)
      as [[[best mu] c1]|] eqn:Hloop; [|discriminate].
    inversion Hrun; subst.
    eapply (minimax_min_loop_rule (fun c => c = cache) (fun _ => True)) in Hloop
      as [-> _]; eauto.
    intros mv c m0 v0 c0 _ -> Hc. split; [exact I|]. exact (proj1 (IH _ _ _ _ _ _) Hc).
Qed.

Variable child : board -> cache_t -> option result.
Variable g : cache_t.
Hypothesis child_keeps_cache :
  forall bd m v c', child bd g = Some (m, v, c') -> c' = g.



End FirstBest.



(** ** The move-ordering sort *)

Section Sorting.
Variable key : board * move -> Z.

Lemma insert_descending_perm x l : Permutation (insert_descending key x l) (x :: l).
Proof.
  induction l as [|y l IH]; simpl; [reflexivity|].
  destruct (key x <=? key y); [|reflexivity].
  rewrite IH. apply perm_swap.
Qed.

Lemma insert_ascending_perm x l : Permutation (insert_ascending key x l) (x :: l).
Proof.
  induction l as [|y l IH]; simpl; [reflexivity|].
  destruct (key y <=? key x); [|reflexivity].
  rewrite IH. apply perm_swap.
Qed.

Lemma sort_descending_perm l : Permutation (sort_descending key l) l.
Proof.
  unfold sort_descending.
  enough (Hgen : forall acc,
             Permutation (fold_left (fun acc x => insert_descending key x acc) l acc)
                         (l ++ acc))
    by (rewrite Hgen; rewrite app_nil_r; reflexivity).
  induction l as [|x l IH]; intros acc; simpl; [reflexivity|].
  rewrite IH, insert_descending_perm. symmetry. apply Permutation_middle.
Qed.

Lemma sort_ascending_perm l : Permutation (sort_ascending key l) l.
Proof.
  unfold sort_ascending.
  enough (Hgen : forall acc,
             Permutation (fold_left (fun acc x => insert_ascending key x acc) l acc)
                         (l ++ acc))
    by (rewrite Hgen; rewrite app_nil_r; reflexivity).
  induction l as [|x l IH]; intros acc; simpl; [reflexivity|].
  rewrite IH, insert_ascending_perm. symmetry. apply Permutation_middle.
Qed.

Lemma insert_descending_sorted x l : descending key l -> descending key (insert_descending key x l).
Proof.
  unfold descending. induction 1 as [|y l Hs IH Hhd]; simpl.
  - repeat constructor.
  - destruct (Z.leb_spec (key x) (key y)).
    + constructor; [exact IH|].
      destruct l as [|z l]; simpl.
      * constructor. assumption.
      * destruct (Z.leb_spec (key x) (key z)); constructor;
          [inversion Hhd; assumption | assumption].
    + constructor; [constructor; assumption|]. constructor. lia.
Qed.

Lemma insert_ascending_sorted x l : ascending key l -> ascending key (insert_ascending key x l).
Proof.
  unfold ascending. induction 1 as [|y l Hs IH Hhd]; simpl.
  - repeat constructor.
  - destruct (Z.leb_spec (key y) (key x)).
    + constructor; [exact IH|].
      destruct l as [|z l]; simpl.
      * constructor. assumption.
      * destruct (Z.leb_spec (key z) (key x)); constructor;
          [inversion Hhd; assumption | assumption].
    + constructor; [constructor; assumption|]. constructor. lia.
Qed.

Lemma sort_descending_sorted l : descending key (sort_descending key l).
Proof.
  unfold sort_descending.
  enough (Hgen : forall acc, descending key acc ->
             descending key (fold_left (fun acc x => insert_descending key x acc) l acc))
    by (apply Hgen; constructor).
  induction l as [|x l IH]; intros acc Hacc; simpl; [exact Hacc|].
  apply IH, insert_descending_sorted, Hacc.
Qed.

Lemma sort_ascending_sorted l : ascending key (sort_ascending key l).
Proof.
  unfold sort_ascending.
  enough (Hgen : forall acc, ascending key acc ->
             ascending key (fold_left (fun acc x => insert_ascending key x acc) l acc))
    by (apply Hgen; constructor).
  induction l as [|x l IH]; intros acc Hacc; simpl; [exact Hacc|].
  apply IH, insert_ascending_sorted, Hacc.
Qed.

End Sorting.

(** Equal keys keep their order. *)
Section Stability.
Variable key : board * move -> Z.

Lemma with_key_app k l1 l2 : with_key key k (l1 ++ l2) = with_key key k l1 ++ with_key key k l2.
Proof. apply List.filter_app. Qed.

Lemma with_key_cons k y l : with_key key k (y :: l) = with_key key k [y] ++ with_key key k l.
Proof. apply (with_key_app k [y] l). Qed.

Lemma descending_head y l :
  descending key (y :: l) -> forall s, In s l -> key s <= key y.
Proof.
  intros Hs. apply Sorted_StronglySorted in Hs; [|intros a b c; lia].
  inversion Hs as [|? ? _ Hall]; subst. intros s Hin.
  rewrite List.Forall_forall in Hall. exact (Hall s Hin).
Qed.

Lemma ascending_head y l :
  ascending key (y :: l) -> forall s, In s l -> key y <= key s.
Proof.
  intros Hs. apply Sorted_StronglySorted in Hs; [|intros a b c; lia].
  inversion Hs as [|? ? _ Hall]; subst. intros s Hin.
  rewrite List.Forall_forall in Hall. exact (Hall s Hin).
Qed.

Lemma with_key_none k l : (forall s, In s l -> key s <> k) -> with_key key k l = [].
Proof.
  induction l as [|y l IH]; intros Hne; [reflexivity|]. unfold with_key in *. simpl.
  destruct (Z.eqb_spec (key y) k) as [E|_]; [destruct (Hne y (or_introl eq_refl) E)|].
  apply IH. intros; apply Hne; right; assumption.
Qed.

(** An element is inserted behind the elements of its own key. *)
Lemma insert_descending_stable k x l :
  descending key l ->
  with_key key k (insert_descending key x l) = with_key key k l ++ with_key key k [x].
Proof.
  induction l as [|y l IH]; intros Hs; [reflexivity|]. cbn [insert_descending].
  destruct (Z.leb_spec (key x) (key y)) as [Hle|Hlt].
  - rewrite (with_key_cons k y (insert_descending key x l)), (with_key_cons k y l).
    rewrite IH by (inversion Hs; assumption). apply app_assoc.
  - rewrite (with_key_cons k x (y :: l)).
    destruct (Z.eqb_spec (key x) k) as [E|Hne].
    + rewrite (with_key_none k (y :: l)); [apply app_nil_r|].
      intros s [<- | Hin]; [lia|]. pose proof (descending_head y l Hs s Hin). lia.
    + rewrite (with_key_none k [x]); [rewrite app_nil_r; reflexivity|].
      intros s [<- | []]. exact Hne.
Qed.

Lemma insert_ascending_stable k x l :
  ascending key l ->
  with_key key k (insert_ascending key x l) = with_key key k l ++ with_key key k [x].
Proof.
  induction l as [|y l IH]; intros Hs; [reflexivity|]. cbn [insert_ascending].
  destruct (Z.leb_spec (key y) (key x)) as [Hle|Hlt].
  - rewrite (with_key_cons k y (insert_ascending key x l)), (with_key_cons k y l).
    rewrite IH by (inversion Hs; assumption). apply app_assoc.
  - rewrite (with_key_cons k x (y :: l)).
    destruct (Z.eqb_spec (key x) k) as [E|Hne].
    + rewrite (with_key_none k (y :: l)); [apply app_nil_r|].
      intros s [<- | Hin]; [lia|]. pose proof (ascending_head y l Hs s Hin). lia.
    + rewrite (with_key_none k [x]); [rewrite app_nil_r; reflexivity|].
      intros s [<- | []]. exact Hne.
Qed.

Lemma sort_descending_stable k l :
  with_key key k (sort_descending key l) = with_key key k l.
Proof.
  unfold sort_descending.
  enough (Hgen : forall acc, descending key acc ->
             with_key key k (fold_left (fun acc x => insert_descending key x acc) l acc)
             = with_key key k acc ++ with_key key k l)
    by (rewrite Hgen; [reflexivity | constructor]).
  induction l as [|x l IH]; intros acc Hacc; cbn [fold_left];
    [symmetry; apply (app_nil_r (with_key key k acc))|].
  rewrite IH by (apply insert_descending_sorted; exact Hacc).
  rewrite insert_descending_stable by exact Hacc.
  rewrite (with_key_cons k x l). symmetry. apply app_assoc.
Qed.

Lemma sort_ascending_stable k l :
  with_key key k (sort_ascending key l) = with_key key k l.
Proof.
  unfold sort_ascending.
  enough (Hgen : forall acc, ascending key acc ->
             with_key key k (fold_left (fun acc x => insert_ascending key x acc) l acc)
             = with_key key k acc ++ with_key key k l)
    by (rewrite Hgen; [reflexivity | constructor]).
  induction l as [|x l IH]; intros acc Hacc; cbn [fold_left];
    [symmetry; apply (app_nil_r (with_key key k acc))|].
  rewrite IH by (apply insert_ascending_sorted; exact Hacc).
  rewrite insert_ascending_stable by exact Hacc.
  rewrite (with_key_cons k x l). symmetry. apply app_assoc.
Qed.

End Stability.

(** ** Leaf evaluation *)

Section TracedLoops.
Context `{OthelloShared}.
Variable P : list call -> Prop.
Hypothesis P_nil : P [].
Hypothesis P_app : forall l1 l2, P l1 -> P l2 -> P (l1 ++ l2).

(** A loop with its calls returns the result of the plain loop, and its
    calls are those of its children. *)
Lemma minimax_min_loop_calls_spec child child_calls bd opponent moves :
  (forall b c, fst <$> child_calls b c = child b c) ->
  (forall b c r calls, child_calls b c = Some (r, calls) -> P calls) ->
  forall best mu cache,
    fst <$> minimax_min_loop_calls child_calls bd opponent moves best mu cache
    = minimax_min_loop child bd opponent moves best mu cache
    /\ forall r calls,
         minimax_min_loop_calls child_calls bd opponent moves best mu cache
         = Some (r, calls) -> P calls.
Proof.
  intros Herase Hcalls. induction moves as [|mv rest IH]; intros best mu cache; simpl.
  - split; [reflexivity|]. intros r calls [= <- <-]. exact P_nil.
  - rewrite <- (Herase (play_move bd opponent mv.1 mv.2) cache).
    destruct (child_calls (play_move bd opponent mv.1 mv.2) cache)
      as [[[[m v] c1] calls1]|] eqn:Hc; simpl; [|split; [reflexivity | discriminate]].
    pose proof (Hcalls _ _ _ _ Hc) as HP1.
    destruct (value_ltb v mu).
    + destruct (IH (Some mv) v c1) as [IHe IHp]. rewrite <- IHe.
      destruct (minimax_min_loop_calls child_calls bd opponent rest (Some mv) v c1)
        as [[r2 calls2]|]; simpl; [|split; [reflexivity | discriminate]].
      split; [reflexivity|]. intros r calls [= <- <-]. apply P_app; eauto.
    + destruct (IH best mu c1) as [IHe IHp]. rewrite <- IHe.
      destruct (minimax_min_loop_calls child_calls bd opponent rest best mu c1)
        as [[r2 calls2]|]; simpl; [|split; [reflexivity | discriminate]].
      split; [reflexivity|]. intros r calls [= <- <-]. apply P_app; eauto.
Qed.

Lemma minimax_max_loop_calls_spec child child_calls bd color moves :
  (forall b c, fst <$> child_calls b c = child b c) ->
  (forall b c r calls, child_calls b c = Some (r, calls) -> P calls) ->
  forall best mu cache,
    fst <$> minimax_max_loop_calls child_calls bd color moves best mu cache
    = minimax_max_loop child bd color moves best mu cache
    /\ forall r calls,
         minimax_max_loop_calls child_calls bd color moves best mu cache
         = Some (r, calls) -> P calls.
Proof.
  intros Herase Hcalls. induction moves as [|mv rest IH]; intros best mu cache; simpl.
  - split; [reflexivity|]. intros r calls [= <- <-]. exact P_nil.
  - rewrite <- (Herase (play_move bd color mv.1 mv.2) cache).
    destruct (child_calls (play_move bd color mv.1 mv.2) cache)
      as [[[[m v] c1] calls1]|] eqn:Hc; simpl; [|split; [reflexivity | discriminate]].
    pose proof (Hcalls _ _ _ _ Hc) as HP1.
    destruct (value_ltb mu v).
    + destruct (IH (Some mv) v c1) as [IHe IHp]. rewrite <- IHe.
      destruct (minimax_max_loop_calls child_calls bd color rest (Some mv) v c1)
        as [[r2 calls2]|]; simpl; [|split; [reflexivity | discriminate]].
      split; [reflexivity|]. intros r calls [= <- <-]. apply P_app; eauto.
    + destruct (IH best mu c1) as [IHe IHp]. rewrite <- IHe.
      destruct (minimax_max_loop_calls child_calls bd color rest best mu c1)
        as [[r2 calls2]|]; simpl; [|split; [reflexivity | discriminate]].
      split; [reflexivity|]. intros r calls [= <- <-]. apply P_app; eauto.
Qed.

Lemma alphabeta_min_loop_calls_spec child child_calls successors :
  (forall b a0 b0 c, fst <$> child_calls b a0 b0 c = child b a0 b0 c) ->
  (forall b a0 b0 c r calls, child_calls b a0 b0 c = Some (r, calls) -> P calls) ->
  forall best mu alpha beta cache,
    fst <$> alphabeta_min_loop_calls child_calls successors best mu alpha beta cache
    = alphabeta_min_loop child successors best mu alpha beta cache
    /\ forall r calls,
         alphabeta_min_loop_calls child_calls successors best mu alpha beta cache
         = Some (r, calls) -> P calls.
Proof.
  intros Herase Hcalls.
  induction successors as [|s rest IH]; intros best mu alpha beta cache; simpl.
  - split; [reflexivity|]. intros r calls [= <- <-]. exact P_nil.
  - rewrite <- (Herase s.1 alpha beta cache).
    destruct (child_calls s.1 alpha beta cache)
      as [[[[m v] c1] calls1]|] eqn:Hc; simpl; [|split; [reflexivity | discriminate]].
    pose proof (Hcalls _ _ _ _ _ _ Hc) as HP1.
    destruct (value_ltb v mu).
    + destruct (value_leb v alpha); simpl.
      * split; [reflexivity|]. intros r calls [= <- <-]. exact HP1.
      * destruct (IH (Some s.2) v alpha (py_min beta v) c1) as [IHe IHp]. rewrite <- IHe.
        destruct (alphabeta_min_loop_calls child_calls rest (Some s.2) v alpha
                    (py_min beta v) c1)
          as [[r2 calls2]|]; simpl; [|split; [reflexivity | discriminate]].
        split; [reflexivity|]. intros r calls [= <- <-]. apply P_app; eauto.
    + destruct (value_leb mu alpha); simpl.
      * split; [reflexivity|]. intros r calls [= <- <-]. exact HP1.
      * destruct (IH best mu alpha (py_min beta mu) c1) as [IHe IHp]. rewrite <- IHe.
        destruct (alphabeta_min_loop_calls child_calls rest best mu alpha
                    (py_min beta mu) c1)
          as [[r2 calls2]|]; simpl; [|split; [reflexivity | discriminate]].
        split; [reflexivity|]. intros r calls [= <- <-]. apply P_app; eauto.
Qed.

Lemma alphabeta_max_loop_calls_spec child child_calls successors :
  (forall b a0 b0 c, fst <$> child_calls b a0 b0 c = child b a0 b0 c) ->
  (forall b a0 b0 c r calls, child_calls b a0 b0 c = Some (r, calls) -> P calls) ->
  forall best mu alpha beta cache,
    fst <$> alphabeta_max_loop_calls child_calls successors best mu alpha beta cache
    = alphabeta_max_loop child successors best mu alpha beta cache
    /\ forall r calls,
         alphabeta_max_loop_calls child_calls successors best mu alpha beta cache
         = Some (r, calls) -> P calls.
Proof.
  intros Herase Hcalls.
  induction successors as [|s rest IH]; intros best mu alpha beta cache; simpl.
  - split; [reflexivity|]. intros r calls [= <- <-]. exact P_nil.
  - rewrite <- (Herase s.1 alpha beta cache).
    destruct (child_calls s.1 alpha beta cache)
      as [[[[m v] c1] calls1]|] eqn:Hc; simpl; [|split; [reflexivity | discriminate]].
    pose proof (Hcalls _ _ _ _ _ _ Hc) as HP1.
    destruct (value_ltb mu v).
    + destruct (value_leb beta v); simpl.
      * split; [reflexivity|]. intros r calls [= <- <-]. exact HP1.
      * destruct (IH (Some s.2) v (py_max alpha v) beta c1) as [IHe IHp]. rewrite <- IHe.
        destruct (alphabeta_max_loop_calls child_calls rest (Some s.2) v
                    (py_max alpha v) beta c1)
          as [[r2 calls2]|]; simpl; [|split; [reflexivity | discriminate]].
        split; [reflexivity|]. intros r calls [= <- <-]. apply P_app; eauto.
    + destruct (value_leb beta mu); simpl.
      * split; [reflexivity|]. intros r calls [= <- <-]. exact HP1.
      * destruct (IH best mu (py_max alpha mu) beta c1) as [IHe IHp]. rewrite <- IHe.
        destruct (alphabeta_max_loop_calls child_calls rest best mu
                    (py_max alpha mu) beta c1)
          as [[r2 calls2]|]; simpl; [|split; [reflexivity | discriminate]].
        split; [reflexivity|]. intros r calls [= <- <-]. apply P_app; eauto.
Qed.

End TracedLoops.

Section TracedNodes.
Context `{OthelloShared}.

Lemma utility_calls_nil color : utility_calls color [].
Proof. constructor. Qed.

Lemma utility_calls_app color l1 l2 :
  utility_calls color l1 -> utility_calls color l2 -> utility_calls color (l1 ++ l2).
Proof. intros H1 H2. apply List.Forall_app. split; assumption. Qed.

Lemma utility_calls_leaf color bd : utility_calls color [(ComputeUtility, bd, color)].
Proof. repeat constructor. Qed.

Lemma utility_calls_keys color ordering successors :
  utility_calls color (sort_key_calls color ordering successors).
Proof.
  unfold sort_key_calls. destruct (truthy ordering); [|constructor].
  induction successors as [|s rest IH]; simpl; constructor; [split; reflexivity | exact IH].
Qed.

Lemma utility_calls_heuristic_free color calls :
  utility_calls color calls -> heuristic_free calls.
Proof.
  intros Hall bd c Hin. unfold utility_calls in Hall.
  rewrite List.Forall_forall in Hall. destruct (Hall _ Hin) as [E _]. discriminate E.
Qed.

(** A node with its calls returns what the node returns, and calls
    [compute_utility] only, for the color it searches for. *)
Lemma run_node_calls_spec (fuel : nat) :
  forall k bd color alpha beta limit caching ordering cache,
    fst <$> run_node_calls k fuel bd color alpha beta limit caching ordering cache
    = run_node k fuel bd color alpha beta limit caching ordering cache
    /\ forall r calls,
         run_node_calls k fuel bd color alpha beta limit caching ordering cache
         = Some (r, calls) -> utility_calls color calls.
Proof.
  induction fuel as [|fuel IH]; intros k bd color alpha beta limit caching ordering cache.
  - destruct k; simpl; (split; [reflexivity | discriminate]).
  - destruct k; simpl;
      (destruct (cache_hit caching cache bd) as [v|];
       [simpl; split; [reflexivity | intros r calls [= <- <-]; apply utility_calls_nil]|]).
    + destruct (is_leaf (get_possible_moves bd (opponent_of color)) limit);
        [simpl; split; [reflexivity | intros r calls [= <- <-]; apply utility_calls_leaf]|].
      destruct (minimax_min_loop_calls_spec (utility_calls color)
                  (utility_calls_nil color) (utility_calls_app color)
                  (fun b c => minimax_max_node fuel b color (limit - 1) caching c)
                  (fun b c => minimax_max_node_calls fuel b color (limit - 1) caching c)
                  bd (opponent_of color) (get_possible_moves bd (opponent_of color))
                  (fun b c => proj1 (IH MinimaxMax b color alpha beta (limit - 1)
                                       caching ordering c))
                  (fun b c => proj2 (IH MinimaxMax b color alpha beta (limit - 1)
                                       caching ordering c))
                  None PosInf cache) as [He Hp].
      rewrite <- He.
      destruct (minimax_min_loop_calls _ bd (opponent_of color) _ None PosInf cache)
        as [[[[m v] c'] calls']|]; simpl; [|split; [reflexivity | discriminate]].
      split; [reflexivity|]. intros r calls [= <- <-]. exact (Hp _ _ eq_refl).
    + destruct (is_leaf (get_possible_moves bd color) limit);
        [simpl; split; [reflexivity | intros r calls [= <- <-]; apply utility_calls_leaf]|].
      destruct (minimax_max_loop_calls_spec (utility_calls color)
                  (utility_calls_nil color) (utility_calls_app color)
                  (fun b c => minimax_min_node fuel b color (limit - 1) caching c)
                  (fun b c => minimax_min_node_calls fuel b color (limit - 1) caching c)
                  bd color (get_possible_moves bd color)
                  (fun b c => proj1 (IH MinimaxMin b color alpha beta (limit - 1)
                                       caching ordering c))
                  (fun b c => proj2 (IH MinimaxMin b color alpha beta (limit - 1)
                                       caching ordering c))
                  None NegInf cache) as [He Hp].
      rewrite <- He.
      destruct (minimax_max_loop_calls _ bd color _ None NegInf cache)
        as [[[[m v] c'] calls']|]; simpl; [|split; [reflexivity | discriminate]].
      split; [reflexivity|]. intros r calls [= <- <-]. exact (Hp _ _ eq_refl).
    + destruct (is_leaf (get_possible_moves bd (opponent_of color)) limit);
        [simpl; split; [reflexivity | intros r calls [= <- <-]; apply utility_calls_leaf]|].
      destruct (alphabeta_min_loop_calls_spec (utility_calls color)
                  (utility_calls_nil color) (utility_calls_app color)
                  (fun b a0 b0 c => alphabeta_max_node fuel b color a0 b0 (limit - 1)
                                      caching ordering c)
                  (fun b a0 b0 c => alphabeta_max_node_calls fuel b color a0 b0 (limit - 1)
                                      caching ordering c)
                  (min_successors bd color ordering
                     (get_possible_moves bd (opponent_of color)))
                  (fun b a0 b0 c => proj1 (IH AlphabetaMax b color a0 b0 (limit - 1)
                                             caching ordering c))
                  (fun b a0 b0 c => proj2 (IH AlphabetaMax b color a0 b0 (limit - 1)
                                             caching ordering c))
                  None PosInf alpha beta cache) as [He Hp].
      rewrite <- He.
      destruct (alphabeta_min_loop_calls _ _ None PosInf alpha beta cache)
        as [[[[m v] c'] calls']|]; simpl; [|split; [reflexivity | discriminate]].
      split; [reflexivity|]. intros r calls [= <- <-].
      apply utility_calls_app; [apply utility_calls_keys | exact (Hp _ _ eq_refl)].
    + destruct (is_leaf (get_possible_moves bd color) limit);
        [simpl; split; [reflexivity | intros r calls [= <- <-]; apply utility_calls_leaf]|].
      destruct (alphabeta_max_loop_calls_spec (utility_calls color)
                  (utility_calls_nil color) (utility_calls_app color)
                  (fun b a0 b0 c => alphabeta_min_node fuel b color a0 b0 (limit - 1)
                                      caching ordering c)
                  (fun b a0 b0 c => alphabeta_min_node_calls fuel b color a0 b0 (limit - 1)
                                      caching ordering c)
                  (max_successors bd color ordering (get_possible_moves bd color))
                  (fun b a0 b0 c => proj1 (IH AlphabetaMin b color a0 b0 (limit - 1)
                                             caching ordering c))
                  (fun b a0 b0 c => proj2 (IH AlphabetaMin b color a0 b0 (limit - 1)
                                             caching ordering c))
                  None NegInf alpha beta cache) as [He Hp].
      rewrite <- He.
      destruct (alphabeta_max_loop_calls _ _ None NegInf alpha beta cache)
        as [[[[m v] c'] calls']|]; simpl; [|split; [reflexivity | discriminate]].
      split; [reflexivity|]. intros r calls [= <- <-].
      apply utility_calls_app; [apply utility_calls_keys | exact (Hp _ _ eq_refl)].
Qed.

(** The selectors with their calls return what the selectors return,
    and call [compute_utility] only. *)
Lemma select_move_minimax_calls_spec fuel bd color limit caching g :
  fst <$> select_move_minimax_calls fuel bd color limit caching g
  = select_move_minimax fuel bd color limit caching g
  /\ forall r calls,
       select_move_minimax_calls fuel bd color limit caching g = Some (r, calls) ->
       utility_calls color calls.
Proof.
  unfold select_move_minimax_calls, select_move_minimax, minimax_root.
  destruct (run_node_calls_spec fuel MinimaxMax bd color NegInf PosInf limit caching 0 ∅)
    as [He Hp]. simpl in He, Hp. rewrite <- He.
  destruct (minimax_max_node_calls fuel bd color limit caching ∅)
    as [[[[m v] c'] calls']|]; simpl; [|split; [reflexivity | discriminate]].
  split; [reflexivity|]. intros r calls [= <- <-]. exact (Hp _ _ eq_refl).
Qed.

Lemma select_move_alphabeta_calls_spec fuel bd color limit caching ordering g :
  fst <$> select_move_alphabeta_calls fuel bd color limit caching ordering g
  = select_move_alphabeta fuel bd color limit caching ordering g
  /\ forall r calls,
       select_move_alphabeta_calls fuel bd color limit caching ordering g
       = Some (r, calls) ->
       utility_calls color calls.
Proof.
  unfold select_move_alphabeta_calls, select_move_alphabeta, alphabeta_root.
  destruct (run_node_calls_spec fuel AlphabetaMax bd color NegInf PosInf (limit - 1)
              caching ordering ∅) as [He Hp]. simpl in He, Hp. rewrite <- He.
  destruct (alphabeta_max_node_calls fuel bd color NegInf PosInf (limit - 1)
              caching ordering ∅)
    as [[[[m v] c'] calls']|]; simpl; [|split; [reflexivity | discriminate]].
  split; [reflexivity|]. intros r calls [= <- <-]. exact (Hp _ _ eq_refl).
Qed.

End TracedNodes.

(** C10: every number a search takes from a board is
    [compute_utility] of that board for the searching color.
    In both search families a node that misses the cache and either has
    no move to expand or has exhausted the depth limit returns
    [compute_utility] of its board, and this is the one evaluator call it
    makes. With ordering on, the successor lists of the alpha-beta nodes
    are the successors of the moves rearranged by [compute_utility] of
    the successor boards, descending in a max node and ascending in a min
    node, equal keys in the order of the moves; with ordering off they
    are the successors in the order of the moves. For every input and
    every setting of the flags, the node functions and the selectors
    with their calls return what the node functions and the selectors
    return, and every call they make is a call of [compute_utility] for
    the searching color: no call of [compute_heuristic] is made. *)
Theorem leaves_use_compute_utility `{OthelloShared}
    (fuel : nat) (bd : board) (color limit caching ordering : Z)
    (alpha beta : value) (cache : cache_t) :
  let util := compute_utility bd color in
  let leaf := Some (None, Fin util, cache_store caching cache bd (Fin util)) in
  let leaf_calls :=
    Some (None, Fin util, cache_store caching cache bd (Fin util),
          [(ComputeUtility, bd, color)]) in
  let key := fun successor : board * move => compute_utility successor.1 color in
  (cache_hit caching cache bd = None ->
   (get_possible_moves bd color = [] \/ limit = 0 ->
    minimax_max_node (S fuel) bd color limit caching cache = leaf
    /\ alphabeta_max_node (S fuel) bd color alpha beta limit caching ordering cache = leaf
    /\ minimax_max_node_calls (S fuel) bd color limit caching cache = leaf_calls
    /\ alphabeta_max_node_calls (S fuel) bd color alpha beta limit caching ordering cache
       = leaf_calls)
   /\ (get_possible_moves bd (opponent_of color) = [] \/ limit = 0 ->
       minimax_min_node (S fuel) bd color limit caching cache = leaf
       /\ alphabeta_min_node (S fuel) bd color alpha beta limit caching ordering cache = leaf
       /\ minimax_min_node_calls (S fuel) bd color limit caching cache = leaf_calls
       /\ alphabeta_min_node_calls (S fuel) bd color alpha beta limit caching ordering cache
          = leaf_calls))
  /\ (ordering <> 0 ->
      forall moves,
        (Permutation (max_successors bd color ordering moves) (successors_of bd color moves)
         /\ descending key (max_successors bd color ordering moves)
         /\ forall k, with_key key k (max_successors bd color ordering moves)
                      = with_key key k (successors_of bd color moves))
        /\ (Permutation (min_successors bd color ordering moves)
              (successors_of bd (opponent_of color) moves)
            /\ ascending key (min_successors bd color ordering moves)
            /\ forall k, with_key key k (min_successors bd color ordering moves)
                         = with_key key k (successors_of bd (opponent_of color) moves)))
  /\ (ordering = 0 ->
      forall moves,
        max_successors bd color ordering moves = successors_of bd color moves
        /\ min_successors bd color ordering moves
           = successors_of bd (opponent_of color) moves)
  /\ (forall k,
        fst <$> run_node_calls k fuel bd color alpha beta limit caching ordering cache
        = run_node k fuel bd color alpha beta limit caching ordering cache
        /\ forall r calls,
             run_node_calls k fuel bd color alpha beta limit caching ordering cache
             = Some (r, calls) ->
             utility_calls color calls /\ heuristic_free calls)
  /\ (forall g,
        fst <$> select_move_minimax_calls fuel bd color limit caching g
        = select_move_minimax fuel bd color limit caching g
        /\ forall r calls,
             select_move_minimax_calls fuel bd color limit caching g = Some (r, calls) ->
             utility_calls color calls /\ heuristic_free calls)
  /\ (forall g,
        fst <$> select_move_alphabeta_calls fuel bd color limit caching ordering g
        = select_move_alphabeta fuel bd color limit caching ordering g
        /\ forall r calls,
             select_move_alphabeta_calls fuel bd color limit caching ordering g
             = Some (r, calls) ->
             utility_calls color calls /\ heuristic_free calls).
Proof.
  intros util leaf leaf_calls key. split; [|split; [|split; [|split; [|split]]]].
  - intros Hmiss. split; intros Hleaf.
    + assert (Hl : is_leaf (get_possible_moves bd color) limit = true)
        by (destruct Hleaf as [-> | ->]; [apply is_leaf_nil | apply is_leaf_zero]).
      repeat apply conj.
      * apply minimax_max_node_leaf; assumption.
      * apply alphabeta_max_node_leaf; assumption.
      * simpl. rewrite Hmiss, Hl. reflexivity.
      * simpl. rewrite Hmiss, Hl. reflexivity.
    + assert (Hl : is_leaf (get_possible_moves bd (opponent_of color)) limit = true)
        by (destruct Hleaf as [-> | ->]; [apply is_leaf_nil | apply is_leaf_zero]).
      repeat apply conj.
      * apply minimax_min_node_leaf; assumption.
      * apply alphabeta_min_node_leaf; assumption.
      * simpl. rewrite Hmiss, Hl. reflexivity.
      * simpl. rewrite Hmiss, Hl. reflexivity.
  - intros Hord moves. unfold max_successors, min_successors, truthy.
    destruct (Z.eqb_spec ordering 0) as [->|_]; [congruence|]. simpl. fold key.
    repeat apply conj.
    + apply sort_descending_perm.
    + apply sort_descending_sorted.
    + intros k. apply sort_descending_stable.
    + apply sort_ascending_perm.
    + apply sort_ascending_sorted.
    + intros k. apply sort_ascending_stable.
  - intros -> moves. split; reflexivity.
  - intros k.
    destruct (run_node_calls_spec fuel k bd color alpha beta limit caching ordering cache)
      as [He Hp].
    split; [exact He|]. intros r calls Hrun.
    split; [|apply (utility_calls_heuristic_free color)]; exact (Hp r calls Hrun).
  - intros g.
    destruct (select_move_minimax_calls_spec fuel bd color limit caching g) as [He Hp].
    split; [exact He|]. intros r calls Hrun.
    split; [|apply (utility_calls_heuristic_free color)]; exact (Hp r calls Hrun).
  - intros g.
    destruct (select_move_alphabeta_calls_spec fuel bd color limit caching ordering g)
      as [He Hp].
    split; [exact He|]. intros r calls Hrun.
    split; [|apply (utility_calls_heuristic_free color)]; exact (Hp r calls Hrun).
Qed.

(** The witness of C10: light on a 4x4 midgame position at depth limit
    0, where the score differential is -5 and the heuristic is 0.0. *)
Lemma leaves_use_compute_utility_witness :
  compute_utility (H := Othello.shared) Othello.midgame4 2 = -5
  /\ compute_heuristic (H := Othello.shared) Othello.midgame4 2
     = Some (PyFloat (S754_zero false))
  /\ alphabeta_max_node_calls (H := Othello.shared) 1 Othello.midgame4 2
       NegInf PosInf 0 0 1 ∅
     = Some (None, Fin (compute_utility (H := Othello.shared) Othello.midgame4 2),
             cache_store 0 ∅ Othello.midgame4
               (Fin (compute_utility (H := Othello.shared) Othello.midgame4 2)),
             [(ComputeUtility, Othello.midgame4, 2)]).
Proof.
  split; [vm_compute; reflexivity|]. split; [vm_compute; reflexivity|].
  exact (proj2 (proj2 (proj2
           (proj1 (proj1 (leaves_use_compute_utility (H := Othello.shared)
                            0 Othello.midgame4 2 0 0 1 NegInf PosInf ∅)
                         (cache_hit_off ∅ Othello.midgame4))
                  (or_intror eq_refl))))).
Defined.

(** ** Rounding to nearest

    Bounds on the results of the binary64 operations, from the
    definitions of the Standard Library's specification. *)

Section Digits.

Lemma digits2_pos_size (p : positive) : digits2_pos p = Pos.size p.
Proof. induction p as [p IH|p IH|]; simpl; rewrite ?IH; reflexivity. Qed.

Lemma Zdigits2_upper (p : positive) : Zpos p < 2 ^ Zpos (digits2_pos p).
Proof.
  rewrite digits2_pos_size. pose proof (Pos.size_gt p) as Hgt.
  apply Pos2Z.pos_lt_pos in Hgt. rewrite Pos2Z.inj_pow in Hgt. exact Hgt.
Qed.

Lemma Zdigits2_le (p : positive) (k : Z) :
  0 <= k -> Zpos p < 2 ^ k -> Zpos (digits2_pos p) <= k.
Proof.
  intros Hk Hlt. rewrite digits2_pos_size.
  pose proof (Pos.size_le p) as Hle.
  apply Pos2Z.pos_le_pos in Hle. rewrite Pos2Z.inj_pow in Hle.
  change (Zpos p~0) with (2 * Zpos p) in Hle.
  destruct (Z_le_gt_dec (Zpos (Pos.size p)) k) as [|Hgt]; [assumption|exfalso].
  assert (Hpow : 2 ^ (k + 1) <= 2 ^ Zpos (Pos.size p))
    by (apply Z.pow_le_mono_r; lia).
  rewrite Z.pow_add_r in Hpow by lia. lia.
Qed.

End Digits.

Section Shifts.

Lemma iter_pos_nat {A : Type} (f : A -> A) (p : positive) (x : A) :
  SpecFloat.iter_pos f p x = Nat.iter (Pos.to_nat p) f x.
Proof.
  transitivity (Pos.iter f x p); [|rewrite Pos2Nat.inj_iter; reflexivity]. revert x.
  induction p as [p IH|p IH|]; intros x; simpl.
  - rewrite !IH. rewrite <- !Pos.iter_swap. reflexivity.
  - rewrite !IH. reflexivity.
  - reflexivity.
Qed.

Lemma shr_1_spec (mrs : shr_record) :
  0 <= shr_m mrs ->
  shr_m (shr_1 mrs) = shr_m mrs / 2
  /\ shr_r (shr_1 mrs) = Z.odd (shr_m mrs)
  /\ shr_s (shr_1 mrs) = shr_r mrs || shr_s mrs.
Proof.
  destruct mrs as [m r s]. simpl. intros Hm.
  destruct m as [|[p|p|]|p]; try lia; simpl; repeat split; try reflexivity.
  - rewrite Pos2Z.inj_xI. apply Z.div_unique with 1; lia.
  - rewrite Pos2Z.inj_xO. apply Z.div_unique with 0; lia.
Qed.

Lemma shr_iter_spec (n : nat) (mrs : shr_record) :
  0 <= shr_m mrs ->
  let res := Nat.iter n shr_1 mrs in
  shr_m res = shr_m mrs / 2 ^ Z.of_nat n
  /\ (shr_exact res <-> shr_exact mrs /\ shr_m mrs = 2 ^ Z.of_nat n * shr_m res).
Proof.
  intros Hm. induction n as [|n [IHm IHx]].
  - simpl. rewrite Z.div_1_r. split; [reflexivity|]. split; [intros; split; [assumption|lia]|tauto].
  - cbn zeta in *. rewrite Nat.iter_succ.
    set (prev := Nat.iter n shr_1 mrs) in *.
    assert (Hprev : 0 <= shr_m prev)
      by (rewrite IHm; apply Z.div_pos; [assumption | apply Z.pow_pos_nonneg; lia]).
    destruct (shr_1_spec prev Hprev) as (Em & Er & Es).
    assert (Hpow : 2 ^ Z.of_nat (S n) = 2 ^ Z.of_nat n * 2)
      by (rewrite Nat2Z.inj_succ, Z.pow_succ_r by lia; lia).
    split.
    + rewrite Em, IHm, Hpow, Z.div_div; [reflexivity| |lia].
      apply Z.pow_nonzero; lia.
    + unfold shr_exact in *. rewrite Er, Es, Em. split.
      * intros [Hodd Hor]. apply orb_false_iff in Hor.
        destruct (proj1 IHx Hor) as [Hin Heq]. split; [exact Hin|].
        rewrite Hpow, Heq. 
        assert (Heven : shr_m prev = 2 * (shr_m prev / 2)).
        { pose proof (Z.div_mod (shr_m prev) 2 ltac:(lia)) as D.
          rewrite Zmod_odd, Hodd in D. lia. }
        lia.
      * intros [Hin Heq].
        assert (Hdiv : shr_m prev = 2 * (shr_m prev / 2)).
        { set (h := shr_m prev / 2) in *. rewrite IHm, Heq, Hpow.
          replace (2 ^ Z.of_nat n * 2 * h) with ((2 * h) * 2 ^ Z.of_nat n) by lia.
          apply Z.div_mul. apply Z.pow_nonzero; lia. }
        assert (Hodd : Z.odd (shr_m prev) = false).
        { rewrite Hdiv. rewrite Z.odd_mul. reflexivity. }
        split; [exact Hodd|]. apply orb_false_iff. apply IHx. split; [exact Hin|].
        rewrite Heq, Hpow. lia.
Qed.

End Shifts.

Section Rounding.

Lemma shr_spec (mrs : shr_record) (e n : Z) :
  0 <= shr_m mrs ->
  (shr mrs e n).2 = e + Z.max n 0
  /\ shr_m (shr mrs e n).1 = shr_m mrs / 2 ^ Z.max n 0
  /\ (shr_exact (shr mrs e n).1
      <-> shr_exact mrs /\ shr_m mrs = 2 ^ Z.max n 0 * shr_m (shr mrs e n).1).
Proof.
  intros Hm.
  assert (Hnone : forall k, k <= 0 ->
            e = e + Z.max k 0
            /\ shr_m mrs = shr_m mrs / 2 ^ Z.max k 0
            /\ (shr_exact mrs <-> shr_exact mrs /\ shr_m mrs = 2 ^ Z.max k 0 * shr_m mrs)).
  { intros k Hk. replace (Z.max k 0) with 0 by lia. rewrite Z.pow_0_r, Z.div_1_r.
    split; [lia|]. split; [reflexivity|]. split; [intros; split; [assumption|lia] | tauto]. }
  unfold shr. destruct n as [|p|p]; cbn [fst snd].
  - apply Hnone. lia.
  - rewrite iter_pos_nat. destruct (shr_iter_spec (Pos.to_nat p) mrs Hm) as [Em Ex].
    rewrite positive_nat_Z in Em, Ex. change (Z.max (Z.pos p) 0) with (Z.pos p).
    split; [reflexivity|]. split; [exact Em | exact Ex].
  - apply Hnone. lia.
Qed.

Lemma shr_record_of_loc_exact (m : Z) (l : location) :
  shr_m (shr_record_of_loc m l) = m
  /\ (shr_exact (shr_record_of_loc m l) <-> l = loc_Exact).
Proof.
  unfold shr_exact. destruct l as [|[]]; simpl; split; try reflexivity;
    split; try tauto; try discriminate; intros [A B]; discriminate.
Qed.

Lemma round_nearest_even_bounds (mrs : shr_record) :
  shr_m mrs <= round_nearest_even (shr_m mrs) (loc_of_shr_record mrs) <= shr_m mrs + 1
  /\ (shr_exact mrs -> round_nearest_even (shr_m mrs) (loc_of_shr_record mrs) = shr_m mrs).
Proof.
  unfold shr_exact. destruct mrs as [m [] []]; simpl; split;
    try (intros [A B]; discriminate); try reflexivity; try lia.
  destruct (Z.even m); lia.
Qed.

Lemma fexp_le (K E m e : Z) :
  0 < K < 2 ^ prec -> emin prec emax <= E -> e <= E ->
  0 <= m <= K * 2 ^ (E - e) ->
  fexp prec emax (Zdigits2 m + e) <= E.
Proof.
  intros HK HE He Hm. unfold fexp. apply Z.max_lub; [|exact HE].
  destruct m as [|p|p]; [simpl; unfold prec; lia| |lia]. simpl.
  assert (Hlt : Zpos p < 2 ^ (prec + (E - e))).
  { rewrite Z.pow_add_r by (unfold prec; lia).
    assert (0 < 2 ^ (E - e)) by (apply Z.pow_pos_nonneg; lia). nia. }
  pose proof (Zdigits2_le p (prec + (E - e)) ltac:(unfold prec; lia) Hlt). lia.
Qed.

Lemma div_pow_le (m K a b : Z) :
  0 <= a -> 0 <= b -> m <= K * 2 ^ (a + b) -> m / 2 ^ a <= K * 2 ^ b.
Proof.
  intros Ha Hb Hm. rewrite Z.pow_add_r in Hm by assumption.
  assert (H2 : 0 < 2 ^ a) by (apply Z.pow_pos_nonneg; lia).
  apply Z.div_le_upper_bound; [exact H2 | lia].
Qed.

(** Rounding never goes beyond a bound that is itself on the grid. *)
Lemma binary_round_aux_bound (s : bool) (mx ex : Z) (lx : location) (K E : Z) :
  0 < K < 2 ^ prec -> emin prec emax <= E <= emax - prec -> ex <= E ->
  0 <= mx <= K * 2 ^ (E - ex) ->
  (lx <> loc_Exact -> mx < K * 2 ^ (E - ex)) ->
  bounded_by K E (binary_round_aux prec emax s mx ex lx).
Proof.
  intros HK HE Hex Hmx Hstrict. unfold binary_round_aux, shr_fexp.
  set (n1 := fexp prec emax (Zdigits2 mx + ex) - ex).
  destruct (shr_record_of_loc_exact mx lx) as [Em0 Ex0].
  destruct (shr_spec (shr_record_of_loc mx lx) ex n1) as (Ee1 & Em1 & Ex1);
    [rewrite Em0; lia|].
  destruct (shr (shr_record_of_loc mx lx) ex n1) as [mrs1 e1]. simpl in Ee1, Em1, Ex1.
  rewrite Em0 in Em1, Ex1.
  assert (Hf1 : fexp prec emax (Zdigits2 mx + ex) <= E)
    by (apply (fexp_le K); lia).
  assert (He1 : ex <= e1 <= E) by (subst n1; lia).
  assert (Hd1 : Z.max n1 0 = e1 - ex) by lia. rewrite Hd1 in Em1, Ex1.
  assert (Hm1 : 0 <= shr_m mrs1 <= K * 2 ^ (E - e1)).
  { rewrite Em1. split; [apply Z.div_pos; [lia | apply Z.pow_pos_nonneg; lia]|].
    apply div_pow_le; [lia | lia |]. replace (e1 - ex + (E - e1)) with (E - ex) by lia. lia. }
  destruct (round_nearest_even_bounds mrs1) as [Hr Hrx].
  set (m2 := round_nearest_even (shr_m mrs1) (loc_of_shr_record mrs1)) in *.
  assert (Hm2 : 0 <= m2 <= K * 2 ^ (E - e1)).
  { split; [lia|].
    destruct (Z_lt_le_dec (shr_m mrs1) (K * 2 ^ (E - e1))) as [|Hge]; [lia|].
    assert (Heq : shr_m mrs1 = K * 2 ^ (E - e1)) by lia.
    assert (Hp : 0 < 2 ^ (e1 - ex)) by (apply Z.pow_pos_nonneg; lia).
    assert (Hsplit : K * 2 ^ (E - ex) = 2 ^ (e1 - ex) * (K * 2 ^ (E - e1))).
    { replace (E - ex) with ((e1 - ex) + (E - e1)) by lia.
      rewrite Z.pow_add_r by lia. lia. }
    assert (Hlow : 2 ^ (e1 - ex) * shr_m mrs1 <= mx).
    { rewrite Em1. apply Z.mul_div_le. exact Hp. }
    assert (Hmxeq : mx = 2 ^ (e1 - ex) * shr_m mrs1) by (rewrite Heq in *; lia).
    assert (Hlx : lx = loc_Exact).
    { destruct lx as [|c]; [reflexivity|]. exfalso.
      assert (mx < K * 2 ^ (E - ex)) by (apply Hstrict; discriminate).
      rewrite Heq in Hmxeq. lia. }
    rewrite Hrx; [lia|]. apply Ex1. split; [apply Ex0; exact Hlx | exact Hmxeq]. }
  set (n2 := fexp prec emax (Zdigits2 m2 + e1) - e1).
  destruct (shr_record_of_loc_exact m2 loc_Exact) as [Em20 _].
  destruct (shr_spec (shr_record_of_loc m2 loc_Exact) e1 n2) as (Ee3 & Em3 & _);
    [rewrite Em20; lia|].
  destruct (shr (shr_record_of_loc m2 loc_Exact) e1 n2) as [mrs3 e3].
  simpl in Ee3, Em3.
  assert (Hf2 : fexp prec emax (Zdigits2 m2 + e1) <= E)
    by (apply (fexp_le K); lia).
  assert (He3 : e1 <= e3 <= E) by (subst n2; lia).
  assert (Hd3 : Z.max n2 0 = e3 - e1) by lia. rewrite Hd3 in Em3.
  assert (Hm3 : 0 <= shr_m mrs3 <= K * 2 ^ (E - e3)).
  { rewrite Em3. split; [apply Z.div_pos; [lia | apply Z.pow_pos_nonneg; lia]|].
    apply div_pow_le; [lia | lia |]. replace (e3 - e1 + (E - e3)) with (E - e1) by lia. lia. }
  destruct (shr_m mrs3) as [|m3|m3]; simpl; [exact I | | lia].
  destruct (Z.leb_spec e3 (emax - prec)); [|lia]. simpl. split; lia.
Qed.

End Rounding.

Section Operations.

Lemma bounded_by_mono (K K' E : Z) (x : spec_float) :
  K <= K' -> bounded_by K E x -> bounded_by K' E x.
Proof.
  intros HK. destruct x as [| | |s m e]; simpl; auto. intros [He Hm]. split; [exact He|].
  assert (0 < 2 ^ (E - e)) by (apply Z.pow_pos_nonneg; lia). nia.
Qed.

Lemma pos_iter_xO (m d : positive) : Zpos (Pos.iter xO m d) = Zpos m * 2 ^ Zpos d.
Proof.
  induction d as [|d IH] using Pos.peano_ind.
  - simpl. lia.
  - rewrite Pos.iter_succ, Pos2Z.inj_xO, IH, Pos2Z.inj_succ, Z.pow_succ_r by lia. lia.
Qed.

Lemma shl_align_spec (mx : positive) (ex ex' : Z) :
  (shl_align mx ex ex').2 <= ex
  /\ Zpos (shl_align mx ex ex').1 = Zpos mx * 2 ^ (ex - (shl_align mx ex ex').2)
  /\ (shl_align mx ex ex').2 = Z.min ex ex'.
Proof.
  unfold shl_align. destruct (ex' - ex) as [|d|d] eqn:Hd; cbn [fst snd].
  - rewrite Z.sub_diag. simpl. lia.
  - rewrite Z.sub_diag. simpl. lia.
  - split; [lia|]. split; [|lia]. rewrite pos_iter_xO. f_equal. f_equal. lia.
Qed.

Lemma binary_round_bound (s : bool) (mx : positive) (ex K E : Z) :
  0 < K < 2 ^ prec -> emin prec emax <= E <= emax - prec -> ex <= E ->
  Zpos mx <= K * 2 ^ (E - ex) ->
  bounded_by K E (binary_round prec emax s mx ex).
Proof.
  intros HK HE Hex Hmx. unfold binary_round.
  destruct (shl_align_spec mx ex (fexp prec emax (Zpos (digits2_pos mx) + ex)))
    as (Hez & Hmz & _).
  destruct (shl_align mx ex _) as [mz ez]. cbn [fst snd] in Hez, Hmz.
  apply binary_round_aux_bound; try assumption; try lia; [|intros H; congruence].
  split; [lia|]. rewrite Hmz.
  replace (E - ez) with ((ex - ez) + (E - ex)) by lia. rewrite Z.pow_add_r by lia.
  assert (0 < 2 ^ (ex - ez)) by (apply Z.pow_pos_nonneg; lia). nia.
Qed.

Lemma binary_normalize_bound (z ez K E : Z) (szero : bool) :
  0 < K < 2 ^ prec -> emin prec emax <= E <= emax - prec -> ez <= E ->
  Z.abs z <= K * 2 ^ (E - ez) ->
  bounded_by K E (binary_normalize prec emax z ez szero).
Proof.
  intros HK HE Hez Hz. destruct z as [|p|p]; simpl; [exact I| |];
    apply binary_round_bound; assumption || lia.
Qed.

(** The sum of two bounded floats is bounded by the sum of the bounds. *)
Lemma SFadd_bound (K1 K2 : Z) (x y : spec_float) :
  0 < K1 -> 0 < K2 -> K1 + K2 < 2 ^ prec ->
  bounded_by K1 0 x -> bounded_by K2 0 y ->
  bounded_by (K1 + K2) 0 (SFadd prec emax x y).
Proof.
  intros H1 H2 HK Hx Hy.
  destruct x as [sx| | |sx mx ex], y as [sy| | |sy my ey]; simpl in Hx, Hy; try contradiction.
  - simpl. destruct sx, sy; exact I.
  - simpl. destruct Hy. split; [assumption|].
    assert (0 < 2 ^ (0 - ey)) by (apply Z.pow_pos_nonneg; lia). nia.
  - simpl. destruct Hx. split; [assumption|].
    assert (0 < 2 ^ (0 - ex)) by (apply Z.pow_pos_nonneg; lia). nia.
  - destruct Hx as [Hex Hmx], Hy as [Hey Hmy]. unfold SFadd.
    destruct (shl_align_spec mx ex (Z.min ex ey)) as (_ & Ex & Ee1).
    destruct (shl_align_spec my ey (Z.min ex ey)) as (_ & Ey & Ee2).
    rewrite Ee1 in Ex. rewrite Ee2 in Ey.
    replace (Z.min ex (Z.min ex ey)) with (Z.min ex ey) in Ex by lia.
    replace (Z.min ey (Z.min ex ey)) with (Z.min ex ey) in Ey by lia.
    set (ez := Z.min ex ey) in *.
    apply binary_normalize_bound; [lia | unfold emin, emax, prec; lia | lia |].
    assert (Hx' : Zpos (shl_align mx ex ez).1 <= K1 * 2 ^ (0 - ez)).
    { rewrite Ex. replace (0 - ez) with ((ex - ez) + (0 - ex)) by lia.
      rewrite Z.pow_add_r by lia.
      assert (0 < 2 ^ (ex - ez)) by (apply Z.pow_pos_nonneg; lia). nia. }
    assert (Hy' : Zpos (shl_align my ey ez).1 <= K2 * 2 ^ (0 - ez)).
    { rewrite Ey. replace (0 - ez) with ((ey - ez) + (0 - ey)) by lia.
      rewrite Z.pow_add_r by lia.
      assert (0 < 2 ^ (ey - ez)) by (apply Z.pow_pos_nonneg; lia). nia. }
    unfold cond_Zopp. destruct sx, sy; lia.
Qed.

(** The product of two bounded floats is bounded by the product of the
    bounds. *)
Lemma SFmul_bound (K1 K2 : Z) (x y : spec_float) :
  0 < K1 -> 0 < K2 -> K1 * K2 < 2 ^ prec ->
  bounded_by K1 0 x -> bounded_by K2 0 y ->
  bounded_by (K1 * K2) 0 (SFmul prec emax x y).
Proof.
  intros H1 H2 HK Hx Hy.
  destruct x as [sx| | |sx mx ex], y as [sy| | |sy my ey]; simpl in Hx, Hy; try contradiction;
    try exact I.
  destruct Hx as [Hex Hmx], Hy as [Hey Hmy]. unfold SFmul.
  apply binary_round_aux_bound; [lia | unfold emin, emax, prec; lia | lia | | congruence].
  split; [lia|]. rewrite Pos2Z.inj_mul.
  replace (0 - (ex + ey)) with ((0 - ex) + (0 - ey)) by lia. rewrite Z.pow_add_r by lia.
  assert (0 < 2 ^ (0 - ex)) by (apply Z.pow_pos_nonneg; lia).
  assert (0 < 2 ^ (0 - ey)) by (apply Z.pow_pos_nonneg; lia). nia.
Qed.

Lemma new_location_exact (nb_steps k : Z) : k = 0 -> new_location nb_steps k = loc_Exact.
Proof.
  intros ->. unfold new_location, new_location_even, new_location_odd.
  destruct (Z.even nb_steps); reflexivity.
Qed.

(** The quotient of two integers, the first no greater than the second
    in magnitude, is at most one in magnitude. *)
Lemma SFdiv_bound (sa sb : bool) (ma mb : positive) :
  (ma <= mb)%positive ->
  bounded_by 1 0 (SFdiv prec emax (S754_finite sa ma 0) (S754_finite sb mb 0)).
Proof.
  intros Hle. unfold SFdiv, SFdiv_core_binary.
  set (e' := Z.min (fexp prec emax (Zdigits2 (Zpos ma) + 0 - (Zdigits2 (Zpos mb) + 0)))
                   (0 - 0)).
  assert (He' : e' <= 0) by (subst e'; lia).
  set (m' := match 0 - 0 - e' with
             | 0 => Zpos ma
             | Zpos _ => Z.shiftl (Zpos ma) (0 - 0 - e')
             | Zneg _ => 0
             end).
  assert (Hm' : m' = Zpos ma * 2 ^ (0 - e')).
  { subst m'. replace (0 - 0 - e') with (0 - e') by lia.
    destruct (0 - e') as [|p|p] eqn:Hs; [simpl; lia| |lia].
    rewrite Z.shiftl_mul_pow2 by lia. reflexivity. }
  assert (Hp : 0 < 2 ^ (0 - e')) by (apply Z.pow_pos_nonneg; lia).
  pose proof (Z.div_eucl_eq m' (Zpos mb) ltac:(lia)) as Hdm.
  pose proof (Z.mod_pos_bound m' (Zpos mb) ltac:(lia)) as Hmod.
  unfold Z.modulo in Hmod.
  destruct (Z.div_eucl m' (Zpos mb)) as [q r].
  assert (Hmb : 0 < Zpos mb) by lia.
  assert (Hq0 : 0 <= q) by nia.
  assert (Hle' : Zpos ma <= Zpos mb) by lia.
  apply binary_round_aux_bound; [unfold prec; lia | unfold emin, emax, prec; lia | lia | |].
  - split; [exact Hq0|]. rewrite Z.mul_1_l. nia.
  - intros Hloc. rewrite Z.mul_1_l.
    assert (Hr : r <> 0) by (intros ->; apply Hloc, new_location_exact; reflexivity).
    nia.
Qed.

End Operations.

(** ** The heuristic *)

Section HeuristicFacts.
Context `{OthelloShared}.

Lemma py_index_in_range {A : Type} (l : list A) (i : Z) :
  0 <= i < Z.of_nat (length l) -> py_index l i = l !! Z.to_nat i.
Proof.
  intros Hi. unfold py_index.
  destruct (Z.leb_spec 0 i); [|lia].
  destruct (Z.ltb_spec i (Z.of_nat (length l))); [reflexivity | lia].
Qed.

Lemma board_at_square bd i j :
  square bd -> 0 <= i < len bd -> 0 <= j < len bd ->
  exists x, board_at bd i j = Some x /\ forall c, cell_is bd (i, j) c = (x =? c).
Proof.
  intros [_ Hrows] Hi Hj. unfold len in *.
  destruct (lookup_lt_is_Some_2 bd (Z.to_nat i)) as [row Hrow]; [lia|].
  assert (Hlen : length row = length bd).
  { rewrite Forall_forall in Hrows. apply Hrows.
    eapply list_elem_of_lookup_2; eauto. }
  destruct (lookup_lt_is_Some_2 row (Z.to_nat j)) as [x Hx]; [lia|].
  exists x. unfold board_at, cell_is. simpl.
  rewrite py_index_in_range by lia. rewrite Hrow.
  rewrite py_index_in_range by lia. rewrite Hx. auto.
Qed.

Lemma py_range_three c : py_range (c - 1) (c + 2) = [c - 1; c; c + 1].
Proof.
  unfold py_range. replace (c + 2 - (c - 1)) with 3 by lia.
  unfold seqZ. simpl.
  replace (Z.of_nat 0 + (c - 1)) with (c - 1) by lia.
  replace (Z.of_nat 1 + (c - 1)) with c by lia.
  replace (Z.of_nat 2 + (c - 1)) with (c + 1) by lia.
  reflexivity.
Qed.

Lemma py_range_bounds n : Forall (fun i => 0 <= i < n) (py_range 0 n).
Proof.
  apply Forall_forall. intros i Hi.
  unfold py_range in Hi. apply elem_of_seqZ in Hi. lia.
Qed.

Lemma check_empty_cols_spec bd coordinates i js :
  square bd -> 0 <= i < len bd ->
  check_empty_cols bd (len bd) coordinates i js
  = Some (existsb (probe bd coordinates i) js).
Proof.
  intros Hsq Hi. induction js as [|j js IH]; [reflexivity|].
  simpl. unfold probe at 1, on_board. simpl.
  destruct (Z.leb_spec 0 i); [|lia]. destruct (Z.ltb_spec i (len bd)); [|lia].
  destruct (Z.leb_spec 0 j); simpl; [|exact IH].
  destruct (Z.leb_spec j (len bd - 1)), (Z.ltb_spec j (len bd)); try lia;
    simpl; [|exact IH].
  destruct (negb ((i =? coordinates.1) && (j =? coordinates.2))); simpl; [|exact IH].
  destruct (board_at_square bd i j Hsq) as (x & -> & Hcell); [lia | lia |].
  rewrite Hcell. destruct (x =? 0); [reflexivity | exact IH].
Qed.

Lemma check_empty_rows_spec bd coordinates rows :
  square bd ->
  check_empty_rows bd (len bd) coordinates rows
  = Some (existsb
            (fun i => existsb (probe bd coordinates i)
                        (py_range (coordinates.2 - 1) (coordinates.2 + 2)))
            rows).
Proof.
  intros Hsq. induction rows as [|i rows IH]; [reflexivity|].
  simpl.
  destruct (Z.leb_spec 0 i); simpl.
  - destruct (Z.leb_spec i (len bd - 1)); simpl.
    + rewrite check_empty_cols_spec by (auto; lia).
      destruct (existsb (probe bd coordinates i) _); simpl; [reflexivity | exact IH].
    + rewrite IH. f_equal. symmetry.
      replace (existsb (probe bd coordinates i) _) with false; [reflexivity|].
      symmetry. apply not_true_is_false. intros Hex.
      apply existsb_exists in Hex as (j & _ & Hj). unfold probe, on_board in Hj.
      simpl in Hj. destruct (Z.ltb_spec i (len bd)); [lia|].
      rewrite andb_false_r in Hj. discriminate.
  - rewrite IH. f_equal. symmetry.
    replace (existsb (probe bd coordinates i) _) with false; [reflexivity|].
    symmetry. apply not_true_is_false. intros Hex.
    apply existsb_exists in Hex as (j & _ & Hj). unfold probe, on_board in Hj.
    simpl in Hj. destruct (Z.leb_spec 0 i); [lia|]. discriminate.
Qed.

Lemma check_empty_spec bd p :
  square bd -> check_empty bd p = Some (has_empty_neighbour bd p).
Proof.
  intros Hsq. unfold check_empty. rewrite check_empty_rows_spec by assumption.
  f_equal. destruct p as [ci cj]. unfold has_empty_neighbour, neighbours.
  rewrite !py_range_three. unfold probe. simpl.
  assert (E1 : (ci - 1 =? ci) = false) by (apply Z.eqb_neq; lia).
  assert (E2 : (ci + 1 =? ci) = false) by (apply Z.eqb_neq; lia).
  assert (E3 : (cj - 1 =? cj) = false) by (apply Z.eqb_neq; lia).
  assert (E4 : (cj + 1 =? cj) = false) by (apply Z.eqb_neq; lia).
  rewrite E1, E2, E3, E4, !Z.eqb_refl. simpl.
  rewrite !andb_true_r, !andb_false_r, !orb_false_r. simpl.
  repeat match goal with
         | |- context [on_board ?n ?q && cell_is ?b ?q ?c] =>
           generalize (on_board n q && cell_is b q c); intro
         end.
  repeat match goal with b : bool |- _ => destruct b end; reflexivity.
Qed.

Lemma count_where_app f l1 l2 :
  count_where f (l1 ++ l2) = count_where f l1 + count_where f l2.
Proof. unfold count_where. rewrite List.filter_app, length_app. lia. Qed.

Lemma count_where_cons f p l :
  count_where f (p :: l) = (if f p then 1 else 0) + count_where f l.
Proof. unfold count_where. simpl. destruct (f p); simpl; lia. Qed.

Lemma count_where_nonneg f l : 0 <= count_where f l.
Proof. unfold count_where. lia. Qed.

Lemma count_empty_cols_spec bd color i js total :
  square bd -> 0 <= i < len bd -> Forall (fun j => 0 <= j < len bd) js ->
  count_empty_cols bd color i js total
  = Some (total + count_where (counted bd color) (map (fun j => (i, j)) js)).
Proof.
  intros Hsq Hi Hjs. revert total.
  induction Hjs as [|j js Hj _ IH]; intros total; simpl.
  - unfold count_where. simpl. f_equal. lia.
  - destruct (board_at_square bd i j Hsq Hi Hj) as (x & -> & Hcell).
    rewrite count_where_cons. unfold counted at 1. rewrite Hcell.
    destruct (x =? color); simpl.
    + rewrite check_empty_spec by assumption.
      destruct (has_empty_neighbour bd (i, j)); rewrite IH; f_equal; lia.
    + rewrite IH. f_equal.
Qed.

Lemma count_empty_rows_spec bd color rows total :
  square bd -> Forall (fun i => 0 <= i < len bd) rows ->
  count_empty_rows bd color (len bd) rows total
  = Some (total
          + count_where (counted bd color)
              (flat_map (fun i => map (fun j => (i, j)) (py_range 0 (len bd))) rows)).
Proof.
  intros Hsq Hrows. revert total.
  induction Hrows as [|i rows Hi _ IH]; intros total; simpl.
  - unfold count_where. simpl. f_equal. lia.
  - rewrite count_empty_cols_spec by auto using py_range_bounds.
    rewrite IH, count_where_app. f_equal. lia.
Qed.

Lemma py_range_indices n : py_range 0 n = indices n.
Proof.
  unfold py_range, indices, seqZ. rewrite Z.sub_0_r. apply map_ext. intros i. lia.
Qed.

Lemma count_empty_spec bd color :
  square bd -> count_empty bd color = Some (spec_potential bd color).
Proof.
  intros Hsq. unfold count_empty, spec_potential, squares.
  rewrite count_empty_rows_spec by auto using py_range_bounds.
  rewrite py_range_indices. reflexivity.
Qed.

Lemma opponent_of_differs color : opponent_of color <> color.
Proof. unfold opponent_of. destruct (Z.eqb_spec color 1); lia. Qed.

Lemma count_corners_spec bd color opponent corners my_corners opp_corners :
  square bd -> opponent <> color ->
  Forall (fun p => 0 <= p.1 < len bd /\ 0 <= p.2 < len bd) corners ->
  count_corners bd color opponent corners my_corners opp_corners
  = Some (my_corners + count_where (fun p => cell_is bd p color) corners,
          opp_corners + count_where (fun p => cell_is bd p opponent) corners).
Proof.
  intros Hsq Hne Hcs. revert my_corners opp_corners.
  induction Hcs as [|[i j] corners [Hi Hj] _ IH]; intros my_corners opp_corners; simpl.
  - unfold count_where. simpl. f_equal; f_equal; lia.
  - simpl in Hi, Hj.
    destruct (board_at_square bd i j Hsq Hi Hj) as (x & -> & Hcell).
    rewrite !count_where_cons, !Hcell.
    destruct (Z.eqb_spec x color) as [->|Hc].
    + destruct (Z.eqb_spec color opponent); [congruence|].
      rewrite IH. f_equal; f_equal; lia.
    + destruct (Z.eqb_spec x opponent); rewrite IH; f_equal; f_equal; lia.
Qed.

Lemma count_empty_cols_nonneg bd color i js total n :
  count_empty_cols bd color i js total = Some n -> total <= n.
Proof.
  revert total. induction js as [|j js IH]; intros total Hn; simpl in Hn.
  - injection Hn as <-. lia.
  - destruct (board_at bd i j) as [c|]; [|discriminate].
    destruct (c =? color); [|exact (IH _ Hn)].
    destruct (check_empty bd (i, j)) as [[]|]; [|exact (IH _ Hn)|discriminate].
    apply IH in Hn. lia.
Qed.

Lemma count_empty_rows_nonneg bd color m rows total n :
  count_empty_rows bd color m rows total = Some n -> total <= n.
Proof.
  revert total. induction rows as [|i rows IH]; intros total Hn; simpl in Hn.
  - injection Hn as <-. lia.
  - destruct (count_empty_cols bd color i (py_range 0 m) total) as [total'|] eqn:Hc;
      [|discriminate].
    apply count_empty_cols_nonneg in Hc. apply IH in Hn. lia.
Qed.

Lemma count_empty_nonneg bd color n : count_empty bd color = Some n -> 0 <= n.
Proof. apply count_empty_rows_nonneg. Qed.

Lemma count_corners_nonneg bd color opponent corners my_corners opp_corners a b :
  count_corners bd color opponent corners my_corners opp_corners = Some (a, b) ->
  my_corners <= a /\ opp_corners <= b.
Proof.
  revert my_corners opp_corners.
  induction corners as [|corner rest IH]; intros my_corners opp_corners Hc; simpl in Hc.
  - injection Hc as <- <-. lia.
  - destruct (board_at bd corner.1 corner.2) as [c|]; [|discriminate].
    destruct (c =? color); [apply IH in Hc; lia|].
    destruct (c =? opponent); apply IH in Hc; lia.
Qed.

(** *** The arithmetic of a ratio *)

Lemma float_of_int_zero : float_of_int 0 = Some (nearest_float 0).
Proof. reflexivity. Qed.

Lemma float_of_int_hundred : float_of_int 100 = Some (nearest_float 100).
Proof. vm_compute. reflexivity. Qed.

Lemma nearest_float_hundred_bound : bounded_by 100 0 (nearest_float 100).
Proof. vm_compute. split; discriminate. Qed.

(** The quotient of the true division in a ratio is at most one in
    magnitude, so the division raises neither of its two errors. *)
Lemma int_division_bound (n d : Z) :
  0 < d -> Z.abs n <= d ->
  bounded_by 1 0 (SFdiv prec emax (int_operand n) (int_operand d)).
Proof.
  intros Hd Hn. destruct d as [|d|d]; try lia.
  destruct n as [|n|n]; [exact I | |]; apply SFdiv_bound; lia.
Qed.

Lemma ratio_term_rounded (mine theirs : Z) :
  0 <= mine -> 0 <= theirs -> mine + theirs <> 0 ->
  exists term,
    ratio_term mine theirs = Some term
    /\ rounded_ratio mine theirs = Some term
    /\ bounded_by 100 0 term.
Proof.
  intros Hm Ht Hne. unfold ratio_term, rounded_ratio, py_truediv, py_int_mul_float.
  destruct (Z.eqb_spec (mine + theirs) 0) as [|_]; [contradiction|].
  pose proof (int_division_bound (mine - theirs) (mine + theirs)
                ltac:(lia) ltac:(lia)) as Hq.
  assert (Hterm : bounded_by 100 0
                    (SFmul prec emax (nearest_float 100)
                       (SFdiv prec emax (int_operand (mine - theirs))
                                        (int_operand (mine + theirs)))))
    by (apply (SFmul_bound 100 1);
        [lia | lia | unfold prec; lia | exact nearest_float_hundred_bound | exact Hq]).
  destruct (SFdiv prec emax (int_operand (mine - theirs)) (int_operand (mine + theirs)));
    simpl in Hq; try contradiction; rewrite float_of_int_hundred; eauto.
Qed.

Lemma rounded_ratio_none (mine theirs : Z) :
  rounded_ratio mine theirs = None <-> mine + theirs = 0.
Proof.
  unfold rounded_ratio. destruct (Z.eqb_spec (mine + theirs) 0); split; congruence.
Qed.

Lemma bounded_by_range (K : Z) (x : spec_float) :
  bounded_by K 0 x -> 0 <= K -> float_in_range (- K) K x.
Proof.
  unfold float_in_range. destruct x as [s| | |s m e]; simpl; try contradiction.
  - intros _ HK. exists 0%Q. split; [reflexivity|].
    change 0%Q with (inject_Z 0). rewrite <- !Zle_Qle. lia.
  - intros [He Hm] HK. eexists. split; [reflexivity|].
    replace (Z.max e 0) with 0 by lia. replace (Z.max (- e) 0) with (0 - e) by lia.
    rewrite Z.pow_0_r, Z.mul_1_r.
    assert (Hp : 0 < 2 ^ (0 - e)) by (apply Z.pow_pos_nonneg; lia).
    assert (HpQ : (0 < inject_Z (2 ^ (0 - e)))%Q)
      by (change 0%Q with (inject_Z 0); rewrite <- Zlt_Qlt; exact Hp).
    split.
    + apply Qle_shift_div_l; [exact HpQ|].
      rewrite <- inject_Z_mult, <- Zle_Qle. destruct s; simpl; lia.
    + apply Qle_shift_div_r; [exact HpQ|].
      rewrite <- inject_Z_mult, <- Zle_Qle. destruct s; simpl; lia.
Qed.

Lemma bounded_result_mono (K K' : Z) (acc : py_number) :
  K <= K' -> bounded_result K acc -> bounded_result K' acc.
Proof.
  intros HK [-> | (a & -> & Ha)]; [left; reflexivity|]. right. exists a.
  split; [reflexivity|]. exact (bounded_by_mono K K' 0 a HK Ha).
Qed.

(** [add_ratio] adds the rounded ratio of its two counts, and raises
    nothing. *)
Lemma add_ratio_rounded (K : Z) (acc : py_number) (mine theirs : Z) :
  0 <= mine -> 0 <= theirs -> 0 < K -> K + 100 < 2 ^ prec ->
  bounded_result K acc ->
  add_ratio acc mine theirs = Some (add_rounded acc (rounded_ratio mine theirs))
  /\ bounded_result (K + 100) (add_rounded acc (rounded_ratio mine theirs)).
Proof.
  intros Hm Ht HK HK' Hacc. unfold add_ratio.
  destruct (Z.eqb_spec (mine + theirs) 0) as [Hz|Hnz]; simpl.
  - rewrite (proj2 (rounded_ratio_none mine theirs) Hz). simpl.
    split; [reflexivity|]. apply (bounded_result_mono K); [lia | exact Hacc].
  - destruct (ratio_term_rounded mine theirs Hm Ht Hnz) as (term & -> & -> & Hterm).
    simpl. destruct Hacc as [-> | (a & -> & Ha)]; simpl.
    + split; [reflexivity|]. right. eexists. split; [reflexivity|].
      apply (bounded_by_mono 100); [lia|].
      destruct term as [s| | |s m e]; simpl in Hterm |- *; try contradiction;
        [destruct s; exact I | exact Hterm].
    + split; [reflexivity|]. right. eexists. split; [reflexivity|].
      apply SFadd_bound; [lia | lia | lia | exact Ha | exact Hterm].
Qed.

End HeuristicFacts.

(** The counterexample of C7: in exact arithmetic the three ratios
    of dark on the 3x3 position [thirds3] are 100, -200/3 and -100/3 and
    their sum is 0, but [compute_heuristic], which rounds every
    operation, returns the float 2^-46. *)
Lemma compute_heuristic_is_not_the_exact_sum :
  exists h v,
    compute_heuristic (H := Othello.shared) Othello.thirds3 1 = Some h
    /\ number_value h = Some v
    /\ ~ (v == spec_heuristic (H := Othello.shared) Othello.thirds3 1)%Q.
Proof.
  exists (PyFloat (S754_finite false 4503599627370496 (-98))).
  eexists. split; [vm_compute; reflexivity|]. split; [reflexivity|].
  intros Heq. vm_compute in Heq. discriminate Heq.
Qed.

Lemma rounded_ratio_range (mine theirs : Z) (x : spec_float) :
  0 <= mine -> 0 <= theirs ->
  rounded_ratio mine theirs = Some x -> float_in_range (-100) 100 x.
Proof.
  intros Hm Ht Hx.
  destruct (Z.eq_dec (mine + theirs) 0) as [Hz|Hnz].
  - rewrite (proj2 (rounded_ratio_none mine theirs) Hz) in Hx. discriminate.
  - destruct (ratio_term_rounded mine theirs Hm Ht Hnz) as (term & _ & Hr & Hb).
    rewrite Hr in Hx. injection Hx as <-. apply (bounded_by_range 100); [exact Hb | lia].
Qed.

Lemma bounded_result_value (K : Z) (acc : py_number) :
  bounded_result K acc -> is_Some (number_value acc).
Proof.
  intros [-> | (a & -> & Ha)]; simpl; [eauto|].
  destruct a; simpl in Ha |- *; try contradiction; eauto.
Qed.

(** C7: on a square board [compute_heuristic] returns, and what it
    returns is the sum, each with weight one and in the order mobility,
    potential mobility, corners, of the three ratios
    100 x (mine - theirs) / (mine + theirs), computed in binary64
    arithmetic: every division, product and addition is rounded to
    nearest. A ratio whose denominator is zero does not exist and adds
    nothing (the sum of no ratio is the int 0); every ratio that exists
    lies between -100 and 100. The potential-mobility counts are the
    own pieces with an empty cell among their eight neighbours, clipped
    at the edge. *)
Theorem compute_heuristic_is_rounded_sum `{OthelloShared} (bd : board) (color : Z) :
  square bd ->
  let opponent := opponent_of color in
  let mobility := rounded_ratio (spec_mobility bd color) (spec_mobility bd opponent) in
  let potential := rounded_ratio (spec_potential bd color) (spec_potential bd opponent) in
  let corners := rounded_ratio (spec_corners bd color) (spec_corners bd opponent) in
  compute_heuristic bd color = Some (rounded_sum [mobility; potential; corners])
  /\ is_Some (number_value (rounded_sum [mobility; potential; corners]))
  /\ (mobility = None <-> spec_mobility bd color + spec_mobility bd opponent = 0)
  /\ (potential = None <-> spec_potential bd color + spec_potential bd opponent = 0)
  /\ (corners = None <-> spec_corners bd color + spec_corners bd opponent = 0)
  /\ (forall x,
        mobility = Some x \/ potential = Some x \/ corners = Some x ->
        float_in_range (-100) 100 x).
Proof.
  intros Hsq opponent mobility potential corners.
  subst opponent mobility potential corners.
  assert (Hmob : forall c, 0 <= spec_mobility bd c) by (intros; unfold spec_mobility; lia).
  assert (Hpot : forall c, 0 <= spec_potential bd c)
    by (intros; apply count_where_nonneg).
  assert (Hcor : forall c, 0 <= spec_corners bd c)
    by (intros; apply count_where_nonneg).
  set (mobility := rounded_ratio (spec_mobility bd color)
                     (spec_mobility bd (opponent_of color))).
  set (potential := rounded_ratio (spec_potential bd color)
                      (spec_potential bd (opponent_of color))).
  set (corners := rounded_ratio (spec_corners bd color)
                    (spec_corners bd (opponent_of color))).
  destruct (add_ratio_rounded 1 (PyInt 0) (spec_mobility bd color)
              (spec_mobility bd (opponent_of color))) as [E1 B1];
    [auto | auto | lia | unfold prec; lia | left; reflexivity |].
  destruct (add_ratio_rounded (1 + 100) (add_rounded (PyInt 0) mobility)
              (spec_potential bd color) (spec_potential bd (opponent_of color)))
    as [E2 B2]; [auto | auto | lia | unfold prec; lia | exact B1 |].
  destruct (add_ratio_rounded (1 + 100 + 100)
              (add_rounded (add_rounded (PyInt 0) mobility) potential)
              (spec_corners bd color) (spec_corners bd (opponent_of color)))
    as [E3 B3]; [auto | auto | lia | unfold prec; lia | exact B2 |].
  fold mobility in E1. fold potential in E2. fold corners in E3.
  split; [|split; [exact (bounded_result_value _ _ B3)|]].
  - unfold compute_heuristic.
    fold (spec_mobility bd color). fold (spec_mobility bd (opponent_of color)).
    rewrite E1. rewrite !count_empty_spec by assumption. rewrite E2.
    rewrite count_corners_spec; [| assumption | apply opponent_of_differs |].
    + rewrite !Z.add_0_l. exact E3.
    + destruct Hsq as [Hpos _]. unfold len. repeat constructor; simpl; lia.
  - split; [apply rounded_ratio_none|]. split; [apply rounded_ratio_none|].
    split; [apply rounded_ratio_none|].
    intros x [Hx | [Hx | Hx]].
    + exact (rounded_ratio_range _ _ x (Hmob _) (Hmob _) Hx).
    + exact (rounded_ratio_range _ _ x (Hpot _) (Hpot _) Hx).
    + exact (rounded_ratio_range _ _ x (Hcor _) (Hcor _) Hx).
Qed.

(** The witness of C7: light on the 4x4 midgame position. *)
Lemma compute_heuristic_is_rounded_sum_witness :
  compute_heuristic (H := Othello.shared) Othello.midgame4 2
  = Some (rounded_sum
            [rounded_ratio (spec_mobility (H := Othello.shared) Othello.midgame4 2)
                           (spec_mobility (H := Othello.shared) Othello.midgame4
                              (opponent_of 2));
             rounded_ratio (spec_potential Othello.midgame4 2)
                           (spec_potential Othello.midgame4 (opponent_of 2));
             rounded_ratio (spec_corners Othello.midgame4 2)
                           (spec_corners Othello.midgame4 (opponent_of 2))]).
Proof.
  assert (Hsq : square Othello.midgame4) by (split; [simpl; lia | repeat constructor]).
  exact (proj1 (compute_heuristic_is_rounded_sum (H := Othello.shared)
                  Othello.midgame4 2 Hsq)).
Defined.

(** ** Alpha-beta without caching *)

Section AlphaBetaLoops.
Variable child : board -> value -> value -> cache_t -> option result.
Variable g : cache_t.
Variable tv : board -> option value.

Lemma alphabeta_max_loop_sound successors beta :
  (forall s, In s successors -> window_sound child g tv s.1) ->
  forall best mu a,
    value_le mu a ->
    exists best' r,
      alphabeta_max_loop child successors best mu a beta g = Some (best', r, g)
      /\ value_le mu r
      /\ (value_lt r beta ->
          forall s u, In s successors -> tv s.1 = Some u -> value_le u r)
      /\ (value_lt a r ->
          exists s u, In s successors /\ tv s.1 = Some u /\ value_le r u).
Proof.
  induction successors as [|s rest IH]; intros Hsound best mu a Hmu.
  - exists best, mu. simpl. repeat split; auto using value_le_refl.
    + intros _ s u [].
    + intros Hlt. exfalso. revert Hmu Hlt. clear. value_order.
  - destruct (Hsound s (or_introl eq_refl)) as (u & Hu & Hchild).
    destruct (Hchild a beta) as (m & rs & Hrun & Hup & Hlow).
    simpl. rewrite Hrun.
    assert (Hrest : forall s0, In s0 rest -> window_sound child g tv s0.1)
      by (intros; apply Hsound; right; assumption).
    destruct (value_ltb mu rs) eqn:Hbetter.
    + destruct (value_leb beta rs) eqn:Hcut.
      * exists (Some s.2), rs. repeat split.
        -- revert Hbetter. clear. value_order.
        -- intros Hlt. exfalso. revert Hcut Hlt. clear. value_order.
        -- intros Hlt. exists s, u. repeat split; auto.
      * destruct (IH Hrest (Some s.2) rs (py_max a rs)) as (best' & r & -> & Hle & Hub & Hlb).
        { clear. value_order. }
        exists best', r. repeat split.
        -- revert Hbetter Hle. clear. value_order.
        -- intros Hlt s0 u0 [<- | Hin] Hu0.
           ++ rewrite Hu in Hu0. injection Hu0 as <-.
              assert (Hrs : value_lt rs beta) by (revert Hcut; clear; value_order).
              specialize (Hup Hrs). revert Hup Hle. clear. value_order.
           ++ eapply Hub; eauto.
        -- intros Hlt. destruct (value_ltb (py_max a rs) r) eqn:Hmore.
           ++ destruct (Hlb Hmore) as (s0 & u0 & Hin & Hu0 & Hr).
              exists s0, u0. repeat split; auto.
           ++ exists s, u. split; [left; reflexivity|]. split; [assumption|].
              assert (Hars : value_lt a rs)
                by (revert Hlt Hmore Hle; clear; value_order).
              specialize (Hlow Hars). revert Hlow Hlt Hmore Hle. clear. value_order.
    + destruct (value_leb beta mu) eqn:Hcut.
      * exists best, mu. repeat split; auto using value_le_refl.
        -- intros Hlt. exfalso. revert Hcut Hlt. clear. value_order.
        -- intros Hlt. exfalso. revert Hmu Hlt. clear. value_order.
      * destruct (IH Hrest best mu (py_max a mu)) as (best' & r & -> & Hle & Hub & Hlb).
        { clear. value_order. }
        exists best', r. repeat split; auto.
        -- intros Hlt s0 u0 [<- | Hin] Hu0.
           ++ rewrite Hu in Hu0. injection Hu0 as <-.
              assert (Hrs : value_lt rs beta)
                by (revert Hcut Hbetter; clear; value_order).
              specialize (Hup Hrs). revert Hup Hle Hbetter. clear. value_order.
           ++ eapply Hub; eauto.
        -- intros Hlt. destruct (value_ltb (py_max a mu) r) eqn:Hmore.
           ++ destruct (Hlb Hmore) as (s0 & u0 & Hin & Hu0 & Hr).
              exists s0, u0. repeat split; auto.
           ++ exfalso. revert Hmu Hlt Hmore Hle. clear. value_order.
Qed.

Lemma alphabeta_min_loop_sound successors alpha :
  (forall s, In s successors -> window_sound child g tv s.1) ->
  forall best mu b,
    value_le b mu ->
    exists best' r,
      alphabeta_min_loop child successors best mu alpha b g = Some (best', r, g)
      /\ value_le r mu
      /\ (value_lt alpha r ->
          forall s u, In s successors -> tv s.1 = Some u -> value_le r u)
      /\ (value_lt r b ->
          exists s u, In s successors /\ tv s.1 = Some u /\ value_le u r).
Proof.
  induction successors as [|s rest IH]; intros Hsound best mu b Hmu.
  - exists best, mu. simpl. repeat split; auto using value_le_refl.
    + intros _ s u [].
    + intros Hlt. exfalso. revert Hmu Hlt. clear. value_order.
  - destruct (Hsound s (or_introl eq_refl)) as (u & Hu & Hchild).
    destruct (Hchild alpha b) as (m & rs & Hrun & Hup & Hlow).
    simpl. rewrite Hrun.
    assert (Hrest : forall s0, In s0 rest -> window_sound child g tv s0.1)
      by (intros; apply Hsound; right; assumption).
    destruct (value_ltb rs mu) eqn:Hbetter.
    + destruct (value_leb rs alpha) eqn:Hcut.
      * exists (Some s.2), rs. repeat split.
        -- revert Hbetter. clear. value_order.
        -- intros Hlt. exfalso. revert Hcut Hlt. clear. value_order.
        -- intros Hlt. exists s, u. repeat split; auto.
      * destruct (IH Hrest (Some s.2) rs (py_min b rs)) as (best' & r & -> & Hle & Hlb & Hub).
        { clear. value_order. }
        exists best', r. repeat split.
        -- revert Hbetter Hle. clear. value_order.
        -- intros Hlt s0 u0 [<- | Hin] Hu0.
           ++ rewrite Hu in Hu0. injection Hu0 as <-.
              assert (Hrs : value_lt alpha rs) by (revert Hcut; clear; value_order).
              specialize (Hlow Hrs). revert Hlow Hle. clear. value_order.
           ++ eapply Hlb; eauto.
        -- intros Hlt. destruct (value_ltb r (py_min b rs)) eqn:Hless.
           ++ destruct (Hub Hless) as (s0 & u0 & Hin & Hu0 & Hr).
              exists s0, u0. repeat split; auto.
           ++ exists s, u. split; [left; reflexivity|]. split; [assumption|].
              assert (Hrsb : value_lt rs b)
                by (revert Hlt Hless Hle; clear; value_order).
              specialize (Hup Hrsb). revert Hup Hlt Hless Hle. clear. value_order.
    + destruct (value_leb mu alpha) eqn:Hcut.
      * exists best, mu. repeat split; auto using value_le_refl.
        -- intros Hlt. exfalso. revert Hcut Hlt. clear. value_order.
        -- intros Hlt. exfalso. revert Hmu Hlt. clear. value_order.
      * destruct (IH Hrest best mu (py_min b mu)) as (best' & r & -> & Hle & Hlb & Hub).
        { clear. value_order. }
        exists best', r. repeat split; auto.
        -- intros Hlt s0 u0 [<- | Hin] Hu0.
           ++ rewrite Hu in Hu0. injection Hu0 as <-.
              assert (Hrs : value_lt alpha rs)
                by (revert Hcut Hbetter; clear; value_order).
              specialize (Hlow Hrs). revert Hlow Hle Hbetter. clear. value_order.
           ++ eapply Hlb; eauto.
        -- intros Hlt. destruct (value_ltb r (py_min b mu)) eqn:Hless.
           ++ destruct (Hub Hless) as (s0 & u0 & Hin & Hu0 & Hr).
              exists s0, u0. repeat split; auto.
           ++ exfalso. revert Hmu Hlt Hless Hle. clear. value_order.
Qed.

End AlphaBetaLoops.

Section MinimaxValues.
Context `{OthelloShared}.
Variable child : board -> cache_t -> option result.
Variable g : cache_t.
Hypothesis child_keeps_cache :
  forall bd m v c', child bd g = Some (m, v, c') -> c' = g.

(** What the utility returned by a finished max loop is, in terms of the
    utilities of the children: an upper bound of all of them, and the
    seed or one of them. *)
Lemma minimax_max_loop_value bd color moves :
  forall best mu best' v g',
    minimax_max_loop child bd color moves best mu g = Some (best', v, g') ->
    g' = g
    /\ value_le mu v
    /\ (forall mv, In mv moves ->
          exists u, value_of (child (play_move bd color mv.1 mv.2) g) = Some u
                    /\ value_le u v)
    /\ (v = mu
        \/ exists mv, In mv moves
                      /\ value_of (child (play_move bd color mv.1 mv.2) g) = Some v).
Proof.
  induction moves as [|mv rest IH]; intros best mu best' v g' Hrun; simpl in Hrun.
  - inversion Hrun; subst. repeat split; auto using value_le_refl. intros mv [].
  - destruct (child (play_move bd color mv.1 mv.2) g) as [[[m v1] c1]|] eqn:Hc;
      [|discriminate].
    rewrite (child_keeps_cache _ _ _ _ Hc) in Hrun.
    destruct (value_ltb mu v1) eqn:Hlt;
      apply IH in Hrun as (-> & Hle & Hall & Hcase); (split; [reflexivity|]).
    + split; [revert Hlt Hle; clear; value_order|]. split.
      * intros mv0 [<- | Hin]; [|auto]. rewrite Hc. simpl. eauto.
      * right. destruct Hcase as [-> | (mv0 & Hin & Hv)].
        -- exists mv. rewrite Hc. simpl. split; [left; reflexivity | reflexivity].
        -- exists mv0. split; [right; assumption | assumption].
    + split; [exact Hle|]. split.
      * intros mv0 [<- | Hin]; [|auto]. rewrite Hc. simpl. exists v1.
        split; [reflexivity|]. revert Hlt Hle. clear. value_order.
      * destruct Hcase as [-> | (mv0 & Hin & Hv)]; [auto|]. right. exists mv0.
        split; [right; assumption | assumption].
Qed.

Lemma minimax_min_loop_value bd opponent moves :
  forall best mu best' v g',
    minimax_min_loop child bd opponent moves best mu g = Some (best', v, g') ->
    g' = g
    /\ value_le v mu
    /\ (forall mv, In mv moves ->
          exists u, value_of (child (play_move bd opponent mv.1 mv.2) g) = Some u
                    /\ value_le v u)
    /\ (v = mu
        \/ exists mv, In mv moves
                      /\ value_of (child (play_move bd opponent mv.1 mv.2) g) = Some v).
Proof.
  induction moves as [|mv rest IH]; intros best mu best' v g' Hrun; simpl in Hrun.
  - inversion Hrun; subst. repeat split; auto using value_le_refl. intros mv [].
  - destruct (child (play_move bd opponent mv.1 mv.2) g) as [[[m v1] c1]|] eqn:Hc;
      [|discriminate].
    rewrite (child_keeps_cache _ _ _ _ Hc) in Hrun.
    destruct (value_ltb v1 mu) eqn:Hlt;
      apply IH in Hrun as (-> & Hle & Hall & Hcase); (split; [reflexivity|]).
    + split; [revert Hlt Hle; clear; value_order|]. split.
      * intros mv0 [<- | Hin]; [|auto]. rewrite Hc. simpl. eauto.
      * right. destruct Hcase as [-> | (mv0 & Hin & Hv)].
        -- exists mv. rewrite Hc. simpl. split; [left; reflexivity | reflexivity].
        -- exists mv0. split; [right; assumption | assumption].
    + split; [exact Hle|]. split.
      * intros mv0 [<- | Hin]; [|auto]. rewrite Hc. simpl. exists v1.
        split; [reflexivity|]. revert Hlt Hle. clear. value_order.
      * destruct Hcase as [-> | (mv0 & Hin & Hv)]; [auto|]. right. exists mv0.
        split; [right; assumption | assumption].
Qed.

End MinimaxValues.

Section AlphaBetaNodes.
Context `{OthelloShared}.

Lemma max_successors_in bd color ordering moves s :
  In s (max_successors bd color ordering moves)
  <-> exists mv, In mv moves /\ s = (play_move bd color mv.1 mv.2, mv).
Proof.
  unfold max_successors.
  assert (Hmap : In s (successors_of bd color moves)
                 <-> exists mv, In mv moves /\ s = (play_move bd color mv.1 mv.2, mv)).
  { unfold successors_of. rewrite in_map_iff. split; intros (mv & A & B); eauto. }
  destruct (truthy ordering); [|exact Hmap].
  rewrite <- Hmap. split; apply Permutation_in;
    [|symmetry]; apply sort_descending_perm.
Qed.

Lemma min_successors_in bd color ordering moves s :
  In s (min_successors bd color ordering moves)
  <-> exists mv, In mv moves
                 /\ s = (play_move bd (opponent_of color) mv.1 mv.2, mv).
Proof.
  unfold min_successors.
  assert (Hmap : In s (successors_of bd (opponent_of color) moves)
                 <-> exists mv, In mv moves
                                /\ s = (play_move bd (opponent_of color) mv.1 mv.2, mv)).
  { unfold successors_of. rewrite in_map_iff. split; intros (mv & A & B); eauto. }
  destruct (truthy ordering); [|exact Hmap].
  rewrite <- Hmap. split; apply Permutation_in;
    [|symmetry]; apply sort_ascending_perm.
Qed.

(** With caching off, an alpha-beta node returns whenever the minimax
    node with the same remaining depth does, and its result bounds the
    minimax utility [v] as far as the window allows. *)
Lemma alphabeta_window_sound fuel color ordering g :
  forall bd limit alpha beta m v g',
    (minimax_max_node fuel bd color limit 0 g = Some (m, v, g') ->
     exists m' r,
       alphabeta_max_node fuel bd color alpha beta limit 0 ordering g = Some (m', r, g)
       /\ (value_lt r beta -> value_le v r)
       /\ (value_lt alpha r -> value_le r v))
    /\ (minimax_min_node fuel bd color limit 0 g = Some (m, v, g') ->
        exists m' r,
          alphabeta_min_node fuel bd color alpha beta limit 0 ordering g = Some (m', r, g)
          /\ (value_lt r beta -> value_le v r)
          /\ (value_lt alpha r -> value_le r v)).
Proof.
  induction fuel as [|fuel IH]; intros bd limit alpha beta m v g'; [split; discriminate|].
  split; intros Hrun; simpl in Hrun |- *; unfold cache_store in *; simpl in *.
  - destruct (is_leaf (get_possible_moves bd color) limit).
    + inversion Hrun; subst. exists None, (Fin (compute_utility bd color)).
      repeat split; auto using value_le_refl.
    + destruct (minimax_max_loop _ bd color _ None NegInf g)
        as [[[best mu] c1]|] eqn:Hloop; [|discriminate].
      inversion Hrun; subst. clear Hrun.
      apply minimax_max_loop_value in Hloop as (_ & _ & Hall & Hcase);
        [|intros b m0 v0 c0 Hc; exact (proj2 (minimax_cache_off fuel color b _ g m0 v0 c0) Hc)].
      destruct (alphabeta_max_loop_sound
                  (fun new_board a b c =>
                     alphabeta_min_node fuel new_board color a b (limit - 1) 0 ordering c)
                  g
                  (fun b => value_of (minimax_min_node fuel b color (limit - 1) 0 g))
                  (max_successors bd color ordering (get_possible_moves bd color))
                  beta) with (best := @None move) (mu := NegInf) (a := alpha)
        as (best' & r & -> & _ & Hub & Hlb).
      * intros s Hs. apply max_successors_in in Hs as (mv & Hin & ->). simpl.
        destruct (Hall mv Hin) as (u & Hu & _). exists u. split; [exact Hu|].
        intros a b.
        destruct (minimax_min_node fuel (play_move bd color mv.1 mv.2) color (limit - 1) 0 g)
          as [[[m0 u0] c0]|] eqn:Hc; [|discriminate].
        simpl in Hu. injection Hu as ->.
        exact (proj2 (IH _ _ a b m0 u c0) Hc).
      * clear. value_order.
      * exists best', r. split; [reflexivity|]. split.
        -- intros Hlt. destruct Hcase as [-> | (mv & Hin & Hv)]; [clear; value_order|].
           apply (Hub Hlt (play_move bd color mv.1 mv.2, mv)); [|exact Hv].
           apply max_successors_in. eauto.
        -- intros Hlt. destruct (Hlb Hlt) as (s & u & Hs & Hu & Hr).
           apply max_successors_in in Hs as (mv & Hin & ->). simpl in Hu.
           destruct (Hall mv Hin) as (u' & Hu' & Hle). rewrite Hu in Hu'.
           injection Hu' as <-. eapply value_le_trans; eauto.
  - destruct (is_leaf (get_possible_moves bd (opponent_of color)) limit).
    + inversion Hrun; subst. exists None, (Fin (compute_utility bd color)).
      repeat split; auto using value_le_refl.
    + destruct (minimax_min_loop _ bd (opponent_of color) _ None PosInf g)
        as [[[best mu] c1]|] eqn:Hloop; [|discriminate].
      inversion Hrun; subst. clear Hrun.
      apply minimax_min_loop_value in Hloop as (_ & _ & Hall & Hcase);
        [|intros b m0 v0 c0 Hc; exact (proj1 (minimax_cache_off fuel color b _ g m0 v0 c0) Hc)].
      destruct (alphabeta_min_loop_sound
                  (fun new_board a b c =>
                     alphabeta_max_node fuel new_board color a b (limit - 1) 0 ordering c)
                  g
                  (fun b => value_of (minimax_max_node fuel b color (limit - 1) 0 g))
                  (min_successors bd color ordering
                     (get_possible_moves bd (opponent_of color)))
                  alpha) with (best := @None move) (mu := PosInf) (b := beta)
        as (best' & r & -> & _ & Hlb & Hub).
      * intros s Hs. apply min_successors_in in Hs as (mv & Hin & ->). simpl.
        destruct (Hall mv Hin) as (u & Hu & _). exists u. split; [exact Hu|].
        intros a b.
        destruct (minimax_max_node fuel (play_move bd (opponent_of color) mv.1 mv.2)
                    color (limit - 1) 0 g)
          as [[[m0 u0] c0]|] eqn:Hc; [|discriminate].
        simpl in Hu. injection Hu as ->.
        exact (proj1 (IH _ _ a b m0 u c0) Hc).
      * clear. value_order.
      * exists best', r. split; [reflexivity|]. split.
        -- intros Hlt. destruct (Hub Hlt) as (s & u & Hs & Hu & Hr).
           apply min_successors_in in Hs as (mv & Hin & ->). simpl in Hu.
           destruct (Hall mv Hin) as (u' & Hu' & Hle). rewrite Hu in Hu'.
           injection Hu' as <-. eapply value_le_trans; eauto.
        -- intros Hlt. destruct Hcase as [-> | (mv & Hin & Hv)];
             [clear; value_order|].
           apply (Hlb Hlt (play_move bd (opponent_of color) mv.1 mv.2, mv)); [|exact Hv].
           apply min_successors_in. eauto.
Qed.

End AlphaBetaNodes.

(** With caching off and the full window, the alpha-beta max node
    returns whenever the minimax max node with the same remaining depth
    does, with the same utility. *)
Lemma alphabeta_full_window `{OthelloShared}
    (fuel : nat) (bd : board) (color limit ordering : Z) (g : cache_t)
    (m : option move) (v : value) (g' : cache_t) :
  minimax_max_node fuel bd color limit 0 g = Some (m, v, g') ->
  exists m',
    alphabeta_max_node fuel bd color NegInf PosInf limit 0 ordering g = Some (m', v, g).
Proof.
  intros Hrun.
  destruct (proj1 (alphabeta_window_sound fuel color ordering g bd limit
                     NegInf PosInf m v g') Hrun) as (m' & r & Hab & Hup & Hlow).
  pose proof (proj1 (minimax_finite fuel 0 color bd limit g m v g'
                       (fun (e : truthy 0 = true) => False_ind _ (diff_false_true e)))
                    Hrun) as [Hfin _].
  exists m'. rewrite Hab. repeat f_equal.
  destruct v as [|z|]; simpl in Hfin; try contradiction.
  destruct r as [|y|].
  - specialize (Hup eq_refl). discriminate Hup.
  - apply value_le_antisym; [apply Hlow | apply Hup]; reflexivity.
  - specialize (Hlow eq_refl). discriminate Hlow.
Qed.

(** X1: with caching off, the root of [select_move_alphabeta] at depth
    limit [limit + 1] returns whenever the root of [select_move_minimax]
    at depth limit [limit] does, and computes the same utility, whether
    ordering is on or off. *)
Theorem alphabeta_value_is_minimax_value `{OthelloShared}
    (fuel : nat) (bd : board) (color limit ordering : Z) :
  is_Some (minimax_root fuel bd color limit 0) ->
  is_Some (alphabeta_root fuel bd color (limit + 1) 0 ordering)
  /\ value_of (alphabeta_root fuel bd color (limit + 1) 0 ordering)
     = value_of (minimax_root fuel bd color limit 0).
Proof.
  intros [[[m v] g'] Hrun]. unfold alphabeta_root, minimax_root in *.
  replace (limit + 1 - 1) with limit by lia.
  destruct (alphabeta_full_window fuel bd color limit ordering ∅ m v g' Hrun) as [m' Hab].
  rewrite Hab, Hrun. split; [eauto | reflexivity].
Qed.

(** The witness: light on the 4x4 midgame position, four plies deep. *)
Lemma alphabeta_value_is_minimax_value_witness :
  value_of (alphabeta_root (H := Othello.shared) 5 Othello.midgame4 2 (4 + 1) 0 1)
  = value_of (minimax_root (H := Othello.shared) 5 Othello.midgame4 2 4 0).
Proof.
  apply (alphabeta_value_is_minimax_value (H := Othello.shared) 5 Othello.midgame4 2 4 1).
  vm_compute. eauto.
Defined.

(** X2: with caching off, the root utility of [select_move_alphabeta]
    is the same with ordering on and with ordering off, as soon as the
    minimax search of the same depth returns; with a depth limit of at
    least 1, fuel equal to the limit is enough for that. *)
Theorem alphabeta_ordering_keeps_value `{OthelloShared}
    (fuel : nat) (bd : board) (color limit ordering ordering' : Z) :
  (1 <= limit <= Z.of_nat fuel
   \/ is_Some (minimax_max_node fuel bd color (limit - 1) 0 ∅)) ->
  is_Some (alphabeta_root fuel bd color limit 0 ordering)
  /\ value_of (alphabeta_root fuel bd color limit 0 ordering)
     = value_of (alphabeta_root fuel bd color limit 0 ordering').
Proof.
  intros Hterm.
  assert (Hmm : is_Some (minimax_max_node fuel bd color (limit - 1) 0 ∅)).
  { destruct Hterm as [Hl | Hs]; [|exact Hs].
    apply (minimax_returns fuel (limit - 1) bd color 0 ∅). lia. }
  destruct Hmm as [[[m v] g'] Hrun]. unfold alphabeta_root.
  destruct (alphabeta_full_window fuel bd color (limit - 1) ordering
              ∅ m v g' Hrun) as [m1 ->].
  destruct (alphabeta_full_window fuel bd color (limit - 1) ordering'
              ∅ m v g' Hrun) as [m2 ->].
  split; [eauto | reflexivity].
Qed.

(** The witness: the 4x4 midgame position at depth limit 5. *)
Lemma alphabeta_ordering_keeps_value_witness :
  value_of (alphabeta_root (H := Othello.shared) 5 Othello.midgame4 2 5 0 1)
  = value_of (alphabeta_root (H := Othello.shared) 5 Othello.midgame4 2 5 0 0).
Proof.
  apply (alphabeta_ordering_keeps_value (H := Othello.shared) 5 Othello.midgame4 2 5 1 0).
  left. lia.
Defined.

(** ** Every move of Othello fills one empty cell *)

Section OthelloFills.
Lemma zeros_insert_empty row u p :
  row !! u = Some 0 -> p <> 0 -> S (Othello.zeros (<[u := p]> row)) = Othello.zeros row.
Proof.
  revert u. induction row as [|x row IH]; intros [|u] Hu Hp; simpl in *; try discriminate.
  - injection Hu as ->. destruct (Z.eqb_spec p 0); [contradiction | reflexivity].
  - rewrite <- (IH u Hu Hp). lia.
Qed.

Lemma zeros_insert_other row u p :
  row !! u <> Some 0 -> p <> 0 -> Othello.zeros (<[u := p]> row) = Othello.zeros row.
Proof.
  revert u. induction row as [|x row IH]; intros [|u] Hu Hp; simpl in *; auto.
  - destruct (Z.eqb_spec p 0); [contradiction|].
    destruct (Z.eqb_spec x 0) as [->|]; [contradiction | reflexivity].
Qed.

Lemma empties_alter_empty bd u v p :
  Othello.lookup2 bd u v = Some 0 -> p <> 0 ->
  S (Othello.empties (alter (fun row => <[u := p]> row) v bd)) = Othello.empties bd.
Proof.
  unfold Othello.lookup2. revert v.
  induction bd as [|row bd IH]; intros [|v] Hl Hp; simpl in *; try discriminate.
  - pose proof (zeros_insert_empty row u p Hl Hp). lia.
  - specialize (IH v Hl Hp). unfold alter in IH. lia.
Qed.

Lemma empties_alter_other bd u v p :
  Othello.lookup2 bd u v <> Some 0 -> p <> 0 ->
  Othello.empties (alter (fun row => <[u := p]> row) v bd) = Othello.empties bd.
Proof.
  unfold Othello.lookup2. revert v.
  induction bd as [|row bd IH]; intros [|v] Hl Hp; simpl in *; auto.
  - pose proof (zeros_insert_other row u p Hl Hp). lia.
  - specialize (IH v Hl Hp). unfold alter in IH. lia.
Qed.

Lemma lookup2_alter_empty bd u v p u' v' :
  p <> 0 ->
  Othello.lookup2 (alter (fun row => <[u := p]> row) v bd) u' v' = Some 0 ->
  Othello.lookup2 bd u' v' = Some 0.
Proof.
  unfold Othello.lookup2. intros Hp.
  destruct (decide (v = v')) as [<-|Hv].
  - rewrite list_lookup_alter_eq. destruct (bd !! v) as [row|]; simpl; [|discriminate].
    destruct (decide (u = u')) as [<-|Hu].
    + destruct (decide (u < length row)%nat).
      * rewrite list_lookup_insert_eq by assumption. congruence.
      * rewrite list_insert_ge by lia. auto.
    + rewrite list_lookup_insert_ne by assumption. auto.
  - rewrite list_lookup_alter_ne by assumption. auto.
Qed.

Lemma cell_empty bd u v :
  Othello.cell bd u v = 0 <->
  0 <= u /\ 0 <= v /\ Othello.lookup2 bd (Z.to_nat u) (Z.to_nat v) = Some 0.
Proof.
  unfold Othello.cell, Othello.lookup2.
  destruct (Z.leb_spec 0 u), (Z.leb_spec 0 v); simpl; try (split; [discriminate | lia]).
  destruct (bd !! Z.to_nat v ≫= _) as [x|]; simpl.
  - split; [intros ->; auto | intros (_ & _ & [= ->]); reflexivity].
  - split; [discriminate | intros (_ & _ & [=])].
Qed.

(** [set_cell] with a disc never turns a cell empty, and fills at most
    the cell it is given. *)
Lemma set_cell_keeps_filled bd u v p u' v' :
  p <> 0 -> Othello.cell (Othello.set_cell bd u v p) u' v' = 0 -> Othello.cell bd u' v' = 0.
Proof.
  intros Hp. rewrite !cell_empty. intros (Hu & Hv & Hl). repeat split; auto.
  eapply lookup2_alter_empty; eauto.
Qed.

Lemma set_cell_fills bd u v p :
  p <> 0 -> Othello.cell bd u v = 0 -> S (Othello.empties (Othello.set_cell bd u v p)) = Othello.empties bd.
Proof.
  intros Hp Hc. apply cell_empty in Hc as (_ & _ & Hl).
  apply empties_alter_empty; assumption.
Qed.

Lemma set_cell_on_disc bd u v p :
  p <> 0 -> 0 <= u -> 0 <= v -> Othello.cell bd u v <> 0 ->
  Othello.empties (Othello.set_cell bd u v p) = Othello.empties bd.
Proof.
  intros Hp Hu Hv Hc. apply empties_alter_other; [|assumption].
  intros Hl. apply Hc. apply cell_empty. auto.
Qed.

Lemma walk_flippable steps bd player u v xdir ydir line line' :
  Othello.walk steps bd player u v xdir ydir line = Some line' ->
  Forall (Othello.flippable bd) line ->
  Forall (Othello.flippable bd) line' /\ player <> 0.
Proof.
  revert u v line. induction steps as [|steps IH]; intros u v line Hw Hline; simpl in Hw;
    [discriminate|].
  destruct (Z.leb_spec 0 u); simpl in Hw; [|discriminate].
  destruct (Z.ltb_spec u (Othello.size bd)); simpl in Hw; [|discriminate].
  destruct (Z.leb_spec 0 v); simpl in Hw; [|discriminate].
  destruct (Z.ltb_spec v (Othello.size bd)); simpl in Hw; [|discriminate].
  destruct (Z.eqb_spec (Othello.cell bd u v) 0) as [|Hne]; [discriminate|].
  destruct (Z.eqb_spec (Othello.cell bd u v) player) as [Hpl|_].
  - injection Hw as <-. split; [assumption | congruence].
  - apply IH in Hw; [assumption|].
    apply Forall_app. split; [assumption|]. repeat constructor; assumption.
Qed.

Lemma find_lines_flippable bd i j player :
  Forall (Forall (Othello.flippable bd)) (Othello.find_lines bd i j player)
  /\ (Othello.find_lines bd i j player <> [] -> player <> 0).
Proof.
  unfold Othello.find_lines.
  induction Othello.directions as [|d ds [IHl IHp]]; cbn [flat_map];
    [split; [constructor | congruence]|].
  destruct (Othello.walk (S (length bd)) bd player (i + d.1) (j + d.2) d.1 d.2 [])
    as [[|q line]|] eqn:Hw; cbn [app]; auto.
  apply walk_flippable in Hw as [Hline Hp]; [|constructor].
  split; [constructor; assumption | auto].
Qed.

Lemma possible_moves_in bd player mv :
  In mv (Othello.possible_moves bd player) ->
  Othello.cell bd mv.1 mv.2 = 0 /\ Othello.find_lines bd mv.1 mv.2 player <> [].
Proof.
  unfold Othello.possible_moves. intros Hin.
  apply in_flat_map in Hin as (i & _ & Hin).
  apply in_flat_map in Hin as (j & _ & Hin).
  destruct (Z.eqb_spec (Othello.cell bd i j) 0) as [Hc|]; [|destruct Hin].
  destruct (Othello.find_lines bd i j player) eqn:Hl; [destruct Hin|].
  destruct Hin as [<- | []]. simpl. rewrite Hl. split; [assumption | discriminate].
Qed.

(** Flipping captured discs leaves the number of empty cells as it is. *)
Lemma flip_line_keeps_empties bd player line :
  player <> 0 -> Forall (Othello.flippable bd) line ->
  forall b,
    (forall u v, Othello.cell b u v = 0 -> Othello.cell bd u v = 0) ->
    let b' := fold_left (fun b' (p : move) => Othello.set_cell b' p.1 p.2 player) line b in
    Othello.empties b' = Othello.empties b /\ (forall u v, Othello.cell b' u v = 0 -> Othello.cell bd u v = 0).
Proof.
  intros Hp. induction 1 as [|q line (Hu & Hv & Hq) _ IH]; intros b Hb; simpl; [auto|].
  destruct (IH (Othello.set_cell b q.1 q.2 player)) as [He Hz].
  - intros u v Hc. apply Hb. exact (set_cell_keeps_filled b q.1 q.2 player u v Hp Hc).
  - split; [|exact Hz]. rewrite He. apply set_cell_on_disc; auto.
Qed.

Lemma flip_lines_keep_empties bd player lines :
  player <> 0 -> Forall (Forall (Othello.flippable bd)) lines ->
  forall b,
    (forall u v, Othello.cell b u v = 0 -> Othello.cell bd u v = 0) ->
    Othello.empties
      (fold_left
         (fun b line => fold_left (fun b' (p : move) => Othello.set_cell b' p.1 p.2 player) line b)
         lines b)
    = Othello.empties b.
Proof.
  intros Hp. induction 1 as [|line lines Hline _ IH]; intros b Hb; simpl; [reflexivity|].
  destruct (flip_line_keeps_empties bd player line Hp Hline b Hb) as [He Hz].
  rewrite IH by exact Hz. exact He.
Qed.

(** A legal move fills exactly one empty cell. *)
Lemma play_fills_one_cell bd player mv :
  In mv (Othello.possible_moves bd player) ->
  S (Othello.empties (Othello.play bd player mv.1 mv.2)) = Othello.empties bd.
Proof.
  intros Hin. apply possible_moves_in in Hin as [Hc Hl].
  destruct (find_lines_flippable bd mv.1 mv.2 player) as [Hlines Hp].
  specialize (Hp Hl). unfold Othello.play.
  rewrite (flip_lines_keep_empties bd player _ Hp Hlines).
  - apply set_cell_fills; assumption.
  - intros u v. apply set_cell_keeps_filled. exact Hp.
Qed.

End OthelloFills.

(** ** Minimax with caching *)

Section MinimaxTransfer.
Context `{OthelloShared}.
Variable Inv : cache_t -> Prop.
Variables child0 child1 : board -> cache_t -> option result.
Variable g : cache_t.
Hypothesis child0_keeps_cache :
  forall bd m v c', child0 bd g = Some (m, v, c') -> c' = g.

(** When every child of the second search returns the utility its
    counterpart in the first returns, the loops return the same move and
    utility. *)
Lemma minimax_max_loop_transfer bd color moves :
  (forall mv cache m u,
      In mv moves -> Inv cache ->
      child0 (play_move bd color mv.1 mv.2) g = Some (m, u, g) ->
      exists m' cache',
        child1 (play_move bd color mv.1 mv.2) cache = Some (m', u, cache')
        /\ Inv cache') ->
  forall best mu cache best' v g',
    Inv cache ->
    minimax_max_loop child0 bd color moves best mu g = Some (best', v, g') ->
    exists cache',
      minimax_max_loop child1 bd color moves best mu cache = Some (best', v, cache')
      /\ Inv cache'.
Proof.
  induction moves as [|mv rest IH]; intros Hchild best mu cache best' v g' HI Hrun;
    simpl in Hrun |- *.
  - inversion Hrun; subst. eauto.
  - destruct (child0 (play_move bd color mv.1 mv.2) g) as [[[m u] c0]|] eqn:Hc;
      [|discriminate].
    pose proof (child0_keeps_cache _ _ _ _ Hc) as ->.
    destruct (Hchild mv cache m u (or_introl eq_refl) HI Hc) as (m' & cache1 & -> & HI1).
    assert (Hrest : forall mv0 cache0 m0 u0,
               In mv0 rest -> Inv cache0 ->
               child0 (play_move bd color mv0.1 mv0.2) g = Some (m0, u0, g) ->
               exists m1 cache2,
                 child1 (play_move bd color mv0.1 mv0.2) cache0 = Some (m1, u0, cache2)
                 /\ Inv cache2)
      by (intros; eapply Hchild; eauto; right; assumption).
    destruct (value_ltb mu u); eapply IH; eauto.
Qed.

Lemma minimax_min_loop_transfer bd opponent moves :
  (forall mv cache m u,
      In mv moves -> Inv cache ->
      child0 (play_move bd opponent mv.1 mv.2) g = Some (m, u, g) ->
      exists m' cache',
        child1 (play_move bd opponent mv.1 mv.2) cache = Some (m', u, cache')
        /\ Inv cache') ->
  forall best mu cache best' v g',
    Inv cache ->
    minimax_min_loop child0 bd opponent moves best mu g = Some (best', v, g') ->
    exists cache',
      minimax_min_loop child1 bd opponent moves best mu cache = Some (best', v, cache')
      /\ Inv cache'.
Proof.
  induction moves as [|mv rest IH]; intros Hchild best mu cache best' v g' HI Hrun;
    simpl in Hrun |- *.
  - inversion Hrun; subst. eauto.
  - destruct (child0 (play_move bd opponent mv.1 mv.2) g) as [[[m u] c0]|] eqn:Hc;
      [|discriminate].
    pose proof (child0_keeps_cache _ _ _ _ Hc) as ->.
    destruct (Hchild mv cache m u (or_introl eq_refl) HI Hc) as (m' & cache1 & -> & HI1).
    assert (Hrest : forall mv0 cache0 m0 u0,
               In mv0 rest -> Inv cache0 ->
               child0 (play_move bd opponent mv0.1 mv0.2) g = Some (m0, u0, g) ->
               exists m1 cache2,
                 child1 (play_move bd opponent mv0.1 mv0.2) cache0 = Some (m1, u0, cache2)
                 /\ Inv cache2)
      by (intros; eapply Hchild; eauto; right; assumption).
    destruct (value_ltb u mu); eapply IH; eauto.
Qed.

End MinimaxTransfer.

Section MinimaxCaching.
Context `{OthelloShared}.
Variable rank : board -> nat.
Hypothesis rank_graded : graded rank.
Variables (color caching cF cL : Z) (par : bool).

Lemma cache_exact_empty : cache_exact rank color cF cL par ∅.
Proof. intros bd v Hl. rewrite lookup_empty in Hl. discriminate. Qed.

Lemma cache_exact_store cache bd v :
  cache_exact rank color cF cL par cache ->
  value_of (exact_search rank color cF cL par bd) = Some v ->
  cache_exact rank color cF cL par (cache_store caching cache bd v).
Proof.
  intros Hc Hv. unfold cache_store. destruct (truthy caching); [|exact Hc].
  intros b w. rewrite lookup_insert. case_decide.
  - subst. intros [= <-]. exact Hv.
  - apply Hc.
Qed.

Lemma cache_exact_hit cache bd v :
  cache_exact rank color cF cL par cache ->
  cache_hit caching cache bd = Some v ->
  value_of (exact_search rank color cF cL par bd) = Some v.
Proof.
  unfold cache_hit. destruct (truthy caching); [|discriminate]. intros Hc Hl. auto.
Qed.

Lemma even_step n m : S n = m -> Nat.even n = negb (Nat.even m).
Proof. intros <-. rewrite Nat.even_succ, <- Nat.negb_even, negb_involutive. reflexivity. Qed.

(** On a graded game, a minimax node run with caching returns the
    utility the node without caching returns, and the same move unless
    the board was in the cache; the cache stays exact. *)
Lemma minimax_cached_node fuel :
  forall bd limit cache,
    Z.of_nat fuel = cF + Z.of_nat (rank bd) ->
    limit = cL + Z.of_nat (rank bd) ->
    cache_exact rank color cF cL par cache ->
    (Nat.even (rank bd) = par ->
     forall m v g',
       minimax_max_node fuel bd color limit 0 ∅ = Some (m, v, g') ->
       exists m' cache',
         minimax_max_node fuel bd color limit caching cache = Some (m', v, cache')
         /\ cache_exact rank color cF cL par cache'
         /\ (cache_hit caching cache bd = None -> m' = m))
    /\ (Nat.even (rank bd) = negb par ->
        forall m v g',
          minimax_min_node fuel bd color limit 0 ∅ = Some (m, v, g') ->
          exists m' cache',
            minimax_min_node fuel bd color limit caching cache = Some (m', v, cache')
            /\ cache_exact rank color cF cL par cache'
            /\ (cache_hit caching cache bd = None -> m' = m)).
Proof.
  induction fuel as [|fuel IH]; intros bd limit cache Hfuel Hlimit Hexact;
    [split; intros; discriminate|].
  assert (Href_max : Nat.even (rank bd) = par ->
            exact_search rank color cF cL par bd
            = minimax_max_node (S fuel) bd color limit 0 ∅).
  { intros Hp. unfold exact_search. rewrite Hp, eqb_reflx, <- Hfuel, <- Hlimit.
    rewrite Nat2Z.id. reflexivity. }
  assert (Href_min : Nat.even (rank bd) = negb par ->
            exact_search rank color cF cL par bd
            = minimax_min_node (S fuel) bd color limit 0 ∅).
  { intros Hp. unfold exact_search. rewrite Hp, <- Hfuel, <- Hlimit, Nat2Z.id.
    destruct par; reflexivity. }
  split; intros Hpar m v g' Hrun.
  - pose proof Hrun as Hwhole. simpl in Hrun |- *.
    unfold cache_store in Hrun; simpl in Hrun.
    destruct (cache_hit caching cache bd) as [v0|] eqn:Hhit.
    + apply (cache_exact_hit _ _ _ Hexact) in Hhit.
      rewrite (Href_max Hpar), Hwhole in Hhit. simpl in Hhit. injection Hhit as ->.
      exists None, cache. repeat split; auto. discriminate.
    + destruct (is_leaf (get_possible_moves bd color) limit).
      * injection Hrun as <- <- <-. eexists _, _. split; [reflexivity|]. split; [|auto].
        apply cache_exact_store; [assumption|].
        rewrite (Href_max Hpar), Hwhole. reflexivity.
      * destruct (minimax_max_loop _ bd color _ None NegInf ∅)
          as [[[best mu] c1]|] eqn:Hloop; [|discriminate].
        injection Hrun as <- <- <-.
        eapply (minimax_max_loop_transfer (cache_exact rank color cF cL par)
                  _ (fun new_board c =>
                       minimax_min_node fuel new_board color
                         (limit - 1) caching c)) in Hloop
          as (cache1 & -> & Hexact1); eauto.
        -- eexists _, _. split; [reflexivity|]. split; [|auto].
           apply cache_exact_store; [assumption|].
           rewrite (Href_max Hpar), Hwhole. reflexivity.
        -- intros b m0 v0 c0 Hc.
           exact (proj2 (minimax_cache_off fuel color b _ ∅ m0 v0 c0) Hc).
        -- intros mv cache0 m0 u Hin Hexact0 Hc.
           pose proof (rank_graded bd color mv Hin) as Hrank.
           assert (Hf : Z.of_nat fuel
                        = cF + Z.of_nat (rank (play_move bd color mv.1 mv.2))) by lia.
           assert (Hl : limit - 1
                        = cL + Z.of_nat (rank (play_move bd color mv.1 mv.2))) by lia.
           assert (Hp : Nat.even (rank (play_move bd color mv.1 mv.2)) = negb par)
             by (rewrite (even_step _ _ Hrank), Hpar; reflexivity).
           destruct (proj2 (IH _ _ cache0 Hf Hl Hexact0) Hp m0 u ∅ Hc)
             as (m1 & cache2 & Hrun1 & Hexact2 & _).
           eauto.
  - pose proof Hrun as Hwhole. simpl in Hrun |- *.
    unfold cache_store in Hrun; simpl in Hrun.
    destruct (cache_hit caching cache bd) as [v0|] eqn:Hhit.
    + apply (cache_exact_hit _ _ _ Hexact) in Hhit.
      rewrite (Href_min Hpar), Hwhole in Hhit. simpl in Hhit. injection Hhit as ->.
      exists None, cache. repeat split; auto. discriminate.
    + destruct (is_leaf (get_possible_moves bd (opponent_of color)) limit).
      * injection Hrun as <- <- <-. eexists _, _. split; [reflexivity|]. split; [|auto].
        apply cache_exact_store; [assumption|].
        rewrite (Href_min Hpar), Hwhole. reflexivity.
      * destruct (minimax_min_loop _ bd (opponent_of color) _ None PosInf ∅)
          as [[[best mu] c1]|] eqn:Hloop; [|discriminate].
        injection Hrun as <- <- <-.
        eapply (minimax_min_loop_transfer (cache_exact rank color cF cL par)
                  _ (fun new_board c =>
                       minimax_max_node fuel new_board color
                         (limit - 1) caching c)) in Hloop
          as (cache1 & -> & Hexact1); eauto.
        -- eexists _, _. split; [reflexivity|]. split; [|auto].
           apply cache_exact_store; [assumption|].
           rewrite (Href_min Hpar), Hwhole. reflexivity.
        -- intros b m0 v0 c0 Hc.
           exact (proj1 (minimax_cache_off fuel color b _ ∅ m0 v0 c0) Hc).
        -- intros mv cache0 m0 u Hin Hexact0 Hc.
           pose proof (rank_graded bd (opponent_of color) mv Hin) as Hrank.
           assert (Hf : Z.of_nat fuel
                        = cF + Z.of_nat (rank (play_move bd (opponent_of color) mv.1 mv.2)))
             by lia.
           assert (Hl : limit - 1
                        = cL + Z.of_nat (rank (play_move bd (opponent_of color) mv.1 mv.2)))
             by lia.
           assert (Hp : Nat.even (rank (play_move bd (opponent_of color) mv.1 mv.2)) = par)
             by (rewrite (even_step _ _ Hrank), Hpar; apply negb_involutive).
           destruct (proj1 (IH _ _ cache0 Hf Hl Hexact0) Hp m0 u ∅ Hc)
             as (m1 & cache2 & Hrun1 & Hexact2 & _).
           eauto.
Qed.

End MinimaxCaching.

(** On a graded game the root of the minimax search with caching
    returns the move and the utility of the root without caching. *)
Lemma minimax_cached_root `{OthelloShared} (rank : board -> nat)
    (fuel : nat) (bd : board) (color limit caching : Z)
    (m : option move) (v : value) (g' : cache_t) :
  graded rank ->
  minimax_root fuel bd color limit 0 = Some (m, v, g') ->
  exists cache', minimax_root fuel bd color limit caching = Some (m, v, cache').
Proof.
  intros Hgraded Hrun. unfold minimax_root in *.
  destruct (proj1 (minimax_cached_node rank Hgraded color caching
                     (Z.of_nat fuel - Z.of_nat (rank bd)) (limit - Z.of_nat (rank bd))
                     (Nat.even (rank bd)) fuel bd limit ∅
                     ltac:(lia) ltac:(lia)
                     (cache_exact_empty rank color _ _ _))
                  eq_refl m v g' Hrun) as (m' & cache' & Hcached & _ & Hmove).
  rewrite (Hmove (cache_hit_empty caching bd)) in Hcached. eauto.
Qed.

Section GradedTermination.
Context `{OthelloShared}.
Variable rank : board -> nat.
Hypothesis rank_graded : graded rank.

(** On a graded game the recursion is bounded by the rank of the board,
    whatever the depth limit: more fuel than the rank is enough for a
    minimax node to return. *)
Lemma minimax_returns_graded fuel :
  forall bd color limit caching cache,
    (rank bd < fuel)%nat ->
    is_Some (minimax_max_node fuel bd color limit caching cache)
    /\ is_Some (minimax_min_node fuel bd color limit caching cache).
Proof.
  induction fuel as [|fuel IH]; intros bd color limit caching cache Hr; [lia|].
  split; simpl; (destruct (cache_hit caching cache bd); [eauto|]).
  - destruct (is_leaf _ limit); [eauto|].
    destruct (minimax_max_loop_returns (fun _ => True)
                (fun new_board c =>
                   minimax_min_node fuel new_board color (limit - 1) caching c)
                bd color (get_possible_moves bd color)) with
      (best := @None move) (mu := NegInf) (cache := cache) as [[[b v] c] ->]; eauto.
    intros mv c Hin _. pose proof (rank_graded bd color mv Hin).
    destruct (IH (play_move bd color mv.1 mv.2) color (limit - 1) caching c)
      as [_ [[[m v] c'] ->]]; [lia | eauto].
  - destruct (is_leaf _ limit); [eauto|].
    destruct (minimax_min_loop_returns (fun _ => True)
                (fun new_board c =>
                   minimax_max_node fuel new_board color (limit - 1) caching c)
                bd (opponent_of color) (get_possible_moves bd (opponent_of color))) with
      (best := @None move) (mu := PosInf) (cache := cache) as [[[b v] c] ->]; eauto.
    intros mv c Hin _. pose proof (rank_graded bd (opponent_of color) mv Hin).
    destruct (IH (play_move bd (opponent_of color) mv.1 mv.2) color (limit - 1) caching c)
      as [[[[m v] c'] ->] _]; [lia | eauto].
Qed.

End GradedTermination.

(** Othello is graded by the number of empty cells. *)
Lemma othello_graded : graded (H := Othello.shared) Othello.empties.
Proof. intros bd player mv Hin. apply play_fills_one_cell. exact Hin. Qed.

(** X3: on a graded game, caching changes neither the move nor the
    utility that the minimax selector computes: whenever the search
    without caching returns, the search with caching returns the same
    move and the same root utility. *)
Theorem minimax_caching_keeps_result `{OthelloShared} (rank : board -> nat)
    (fuel : nat) (bd : board) (color limit caching : Z) (g1 g2 : global_t) :
  graded rank ->
  is_Some (minimax_root fuel bd color limit 0) ->
  answer_of (minimax_root fuel bd color limit caching)
    = answer_of (minimax_root fuel bd color limit 0)
  /\ fst <$> select_move_minimax fuel bd color limit caching g1
     = fst <$> select_move_minimax fuel bd color limit 0 g2.
Proof.
  intros Hgraded [[[m v] g'] Hrun].
  destruct (minimax_cached_root rank fuel bd color limit caching m v g' Hgraded Hrun)
    as [cache' Hcached].
  unfold select_move_minimax. rewrite Hcached, Hrun. split; reflexivity.
Qed.

(** The witness: Othello, graded by its empty cells, on the 4x4 midgame
    position with light to move and depth limit 4. *)
Lemma minimax_caching_keeps_result_witness :
  answer_of (minimax_root (H := Othello.shared) 5 Othello.midgame4 2 4 1)
    = answer_of (minimax_root (H := Othello.shared) 5 Othello.midgame4 2 4 0)
  /\ fst <$> select_move_minimax (H := Othello.shared) 5 Othello.midgame4 2 4 1 None
     = fst <$> select_move_minimax (H := Othello.shared) 5 Othello.midgame4 2 4 0 None.
Proof.
  apply (minimax_caching_keeps_result (H := Othello.shared) Othello.empties
           5 Othello.midgame4 2 4 1 None None othello_graded).
  vm_compute. eauto.
Defined.

(** In Othello the minimax selector returns for every depth limit,
    bounded or not, once the fuel exceeds the number of empty cells of
    the board, and caching changes neither its move nor the utility
    behind it. *)
Theorem othello_minimax_caching_keeps_result
    (fuel : nat) (bd : board) (color limit caching : Z) (g : global_t) :
  (Othello.empties bd < fuel)%nat ->
  exists m v cache0 cache1,
    minimax_root (H := Othello.shared) fuel bd color limit 0 = Some (m, v, cache0)
    /\ minimax_root (H := Othello.shared) fuel bd color limit caching
       = Some (m, v, cache1)
    /\ select_move_minimax (H := Othello.shared) fuel bd color limit 0 g
       = Some (m, Some cache0)
    /\ select_move_minimax (H := Othello.shared) fuel bd color limit caching g
       = Some (m, Some cache1).
Proof.
  intros Hfuel.
  destruct (proj1 (minimax_returns_graded (H := Othello.shared) Othello.empties
                     othello_graded fuel bd color limit 0 ∅ Hfuel))
    as [[[m v] cache0] Hrun].
  destruct (minimax_cached_root (H := Othello.shared) Othello.empties
              fuel bd color limit caching m v cache0 othello_graded Hrun)
    as [cache1 Hcached].
  exists m, v, cache0, cache1. unfold select_move_minimax.
  change (minimax_max_node fuel bd color limit 0 ∅)
    with (minimax_root (H := Othello.shared) fuel bd color limit 0) in Hrun.
  rewrite Hrun, Hcached. auto.
Qed.

(** ** The two selectors at the same depth limit *)

(** C1: on the 8x8 opening position with dark to move and depth limit 1,
    caching and ordering off, the root of [select_move_minimax] searches
    one ply and returns a move worth 3, while the root of
    [select_move_alphabeta], entered with [limit - 1 = 0], returns the
    static evaluation 0 and no move. *)
Theorem selectors_differ_at_equal_limit :
  answer_of (minimax_root (H := Othello.shared) 2 Othello.start8 1 1 0)
    = Some (Some (2, 3), Fin 3)
  /\ answer_of (alphabeta_root (H := Othello.shared) 2 Othello.start8 1 1 0 0)
    = Some (None, Fin 0)
  /\ select_move_minimax (H := Othello.shared) 2 Othello.start8 1 1 0 None
    = Some (Some (2, 3), Some ∅)
  /\ select_move_alphabeta (H := Othello.shared) 2 Othello.start8 1 1 0 0 None
    = Some (None, Some ∅).
Proof. vm_compute. repeat split; reflexivity. Qed.

(** ** Caching in the alpha-beta search *)

(** C2: on the 4x4 midgame position with light to move and depth limit
    5, ordering off, [select_move_alphabeta] returns the move (0, 0) with
    utility -5 when caching is off and the move (1, 0) with utility -3
    when caching is on; minimax, searching the same four plies, finds -5
    with and without caching. *)
Theorem alphabeta_caching_changes_result :
  answer_of (alphabeta_root (H := Othello.shared) 5 Othello.midgame4 2 5 0 0)
    = Some (Some (0, 0), Fin (-5))
  /\ answer_of (alphabeta_root (H := Othello.shared) 5 Othello.midgame4 2 5 1 0)
    = Some (Some (1, 0), Fin (-3))
  /\ answer_of (minimax_root (H := Othello.shared) 5 Othello.midgame4 2 4 0)
    = Some (Some (0, 0), Fin (-5))
  /\ answer_of (minimax_root (H := Othello.shared) 5 Othello.midgame4 2 4 1)
    = Some (Some (0, 0), Fin (-5)).
Proof. vm_compute. repeat split; reflexivity. Qed.

(** ** Ordering in the alpha-beta search *)

(** C5: on the same position and depth limit with caching on,
    [select_move_alphabeta] finds the utility -3 with ordering off and
    the utility -5 with ordering on. *)
Theorem alphabeta_ordering_changes_value_when_caching :
  value_of (alphabeta_root (H := Othello.shared) 5 Othello.midgame4 2 5 1 0)
    = Some (Fin (-3))
  /\ value_of (alphabeta_root (H := Othello.shared) 5 Othello.midgame4 2 5 1 1)
    = Some (Fin (-5)).
Proof. vm_compute. repeat split; reflexivity. Qed.

(** ** The loops of the alpha-beta nodes *)

Section AlphaBetaRules.
Variables (P : cache_t -> Prop) (V : value -> Prop).
Variable child : board -> value -> value -> cache_t -> option result.

(** What a finished alpha-beta max loop returns, cut off or not: [P] is
    kept along the caches, and the result is either the seed or a child
    utility that beat the seed, with the move of its successor. *)
Lemma alphabeta_max_loop_rule successors :
  (forall s a b c m v c', In s successors -> P c ->
     child s.1 a b c = Some (m, v, c') -> V v /\ P c') ->
  forall best mu a b cache best' v c',
    P cache ->
    alphabeta_max_loop child successors best mu a b cache = Some (best', v, c') ->
    P c' /\ ((v = mu /\ best' = best)
             \/ (V v /\ value_lt mu v /\ exists s, best' = Some s.2 /\ In s successors)).
Proof.
  induction successors as [|s rest IH]; intros Hchild best mu a b cache best' v c' HP Hrun.
  - simpl in Hrun. inversion Hrun; subst. auto.
  - simpl in Hrun.
    destruct (child s.1 a b cache) as [[[m v1] c1]|] eqn:Hc; [|discriminate].
    destruct (Hchild s a b cache m v1 c1 (or_introl eq_refl) HP Hc) as [HV HP1].
    assert (Hrest : forall s0 a0 b0 c m0 v0 c0, In s0 rest -> P c ->
               child s0.1 a0 b0 c = Some (m0, v0, c0) -> V v0 /\ P c0)
      by (intros; eapply Hchild; eauto; right; assumption).
    destruct (value_ltb mu v1) eqn:Hlt.
    + destruct (value_leb b v1).
      * inversion Hrun; subst. split; [assumption|]. right. repeat split; auto.
        exists s. split; auto. left; auto.
      * destruct (IH Hrest _ _ _ _ _ _ _ _ HP1 Hrun)
          as [HP' [[-> ->] | (HV' & Hlt' & s' & -> & Hin)]].
        -- split; [assumption|]. right. repeat split; auto.
           exists s. split; auto. left; auto.
        -- split; [assumption|]. right. repeat split; auto.
           ++ revert Hlt Hlt'. clear. value_order.
           ++ exists s'. split; auto. right; auto.
    + destruct (value_leb b mu).
      * inversion Hrun; subst. auto.
      * destruct (IH Hrest _ _ _ _ _ _ _ _ HP1 Hrun)
          as [HP' [[-> ->] | (HV' & Hlt' & s' & -> & Hin)]]; [auto|].
        split; [assumption|]. right. repeat split; auto.
        exists s'. split; auto. right; auto.
Qed.

Lemma alphabeta_min_loop_rule successors :
  (forall s a b c m v c', In s successors -> P c ->
     child s.1 a b c = Some (m, v, c') -> V v /\ P c') ->
  forall best mu a b cache best' v c',
    P cache ->
    alphabeta_min_loop child successors best mu a b cache = Some (best', v, c') ->
    P c' /\ ((v = mu /\ best' = best)
             \/ (V v /\ value_lt v mu /\ exists s, best' = Some s.2 /\ In s successors)).
Proof.
  induction successors as [|s rest IH]; intros Hchild best mu a b cache best' v c' HP Hrun.
  - simpl in Hrun. inversion Hrun; subst. auto.
  - simpl in Hrun.
    destruct (child s.1 a b cache) as [[[m v1] c1]|] eqn:Hc; [|discriminate].
    destruct (Hchild s a b cache m v1 c1 (or_introl eq_refl) HP Hc) as [HV HP1].
    assert (Hrest : forall s0 a0 b0 c m0 v0 c0, In s0 rest -> P c ->
               child s0.1 a0 b0 c = Some (m0, v0, c0) -> V v0 /\ P c0)
      by (intros; eapply Hchild; eauto; right; assumption).
    destruct (value_ltb v1 mu) eqn:Hlt.
    + destruct (value_leb v1 a).
      * inversion Hrun; subst. split; [assumption|]. right. repeat split; auto.
        exists s. split; auto. left; auto.
      * destruct (IH Hrest _ _ _ _ _ _ _ _ HP1 Hrun)
          as [HP' [[-> ->] | (HV' & Hlt' & s' & -> & Hin)]].
        -- split; [assumption|]. right. repeat split; auto.
           exists s. split; auto. left; auto.
        -- split; [assumption|]. right. repeat split; auto.
           ++ revert Hlt Hlt'. clear. value_order.
           ++ exists s'. split; auto. right; auto.
    + destruct (value_leb mu a).
      * inversion Hrun; subst. auto.
      * destruct (IH Hrest _ _ _ _ _ _ _ _ HP1 Hrun)
          as [HP' [[-> ->] | (HV' & Hlt' & s' & -> & Hin)]]; [auto|].
        split; [assumption|]. right. repeat split; auto.
        exists s'. split; auto. right; auto.
Qed.

(** On a non-empty list whose child utilities all beat the seed, the
    loop returns a child utility and the move of a successor. *)
Lemma alphabeta_max_loop_rule_nonempty successors :
  successors <> [] ->
  (forall s a b c m v c', In s successors -> P c ->
     child s.1 a b c = Some (m, v, c') -> V v /\ P c') ->
  forall best mu a b cache best' v c',
    (forall w, V w -> value_lt mu w) ->
    P cache ->
    alphabeta_max_loop child successors best mu a b cache = Some (best', v, c') ->
    P c' /\ V v /\ exists s, best' = Some s.2 /\ In s successors.
Proof.
  destruct successors as [|s rest]; [congruence|].
  intros _ Hchild best mu a b cache best' v c' Hseed HP Hrun. simpl in Hrun.
  destruct (child s.1 a b cache) as [[[m v1] c1]|] eqn:Hc; [|discriminate].
  destruct (Hchild s a b cache m v1 c1 (or_introl eq_refl) HP Hc) as [HV HP1].
  rewrite (Hseed v1 HV) in Hrun.
  destruct (value_leb b v1).
  - inversion Hrun; subst. repeat split; auto. exists s. split; auto. left; auto.
  - eapply alphabeta_max_loop_rule in Hrun; eauto.
    + destruct Hrun as [HP' [[-> ->] | (HV' & _ & s' & -> & Hin)]].
      * repeat split; auto. exists s. split; auto. left; auto.
      * repeat split; auto. exists s'. split; auto. right; auto.
    + intros; eapply Hchild; eauto. right; assumption.
Qed.

Lemma alphabeta_min_loop_rule_nonempty successors :
  successors <> [] ->
  (forall s a b c m v c', In s successors -> P c ->
     child s.1 a b c = Some (m, v, c') -> V v /\ P c') ->
  forall best mu a b cache best' v c',
    (forall w, V w -> value_lt w mu) ->
    P cache ->
    alphabeta_min_loop child successors best mu a b cache = Some (best', v, c') ->
    P c' /\ V v /\ exists s, best' = Some s.2 /\ In s successors.
Proof.
  destruct successors as [|s rest]; [congruence|].
  intros _ Hchild best mu a b cache best' v c' Hseed HP Hrun. simpl in Hrun.
  destruct (child s.1 a b cache) as [[[m v1] c1]|] eqn:Hc; [|discriminate].
  destruct (Hchild s a b cache m v1 c1 (or_introl eq_refl) HP Hc) as [HV HP1].
  rewrite (Hseed v1 HV) in Hrun.
  destruct (value_leb v1 a).
  - inversion Hrun; subst. repeat split; auto. exists s. split; auto. left; auto.
  - eapply alphabeta_min_loop_rule in Hrun; eauto.
    + destruct Hrun as [HP' [[-> ->] | (HV' & _ & s' & -> & Hin)]].
      * repeat split; auto. exists s. split; auto. left; auto.
      * repeat split; auto. exists s'. split; auto. right; auto.
    + intros; eapply Hchild; eauto. right; assumption.
Qed.

(** A loop returns as soon as each of its children does, whatever the
    window. *)
Lemma alphabeta_max_loop_returns successors :
  (forall s a b c, In s successors -> P c ->
     exists m v c', child s.1 a b c = Some (m, v, c') /\ P c') ->
  forall best mu a b cache,
    P cache -> is_Some (alphabeta_max_loop child successors best mu a b cache).
Proof.
  induction successors as [|s rest IH]; intros Hchild best mu a b cache HP.
  - simpl. eauto.
  - simpl. destruct (Hchild s a b cache (or_introl eq_refl) HP) as (m & v & c1 & -> & HP1).
    destruct (value_ltb mu v).
    + destruct (value_leb b v); [eauto|]. apply IH; auto.
      intros; apply Hchild; auto; right; auto.
    + destruct (value_leb b mu); [eauto|]. apply IH; auto.
      intros; apply Hchild; auto; right; auto.
Qed.

Lemma alphabeta_min_loop_returns successors :
  (forall s a b c, In s successors -> P c ->
     exists m v c', child s.1 a b c = Some (m, v, c') /\ P c') ->
  forall best mu a b cache,
    P cache -> is_Some (alphabeta_min_loop child successors best mu a b cache).
Proof.
  induction successors as [|s rest IH]; intros Hchild best mu a b cache HP.
  - simpl. eauto.
  - simpl. destruct (Hchild s a b cache (or_introl eq_refl) HP) as (m & v & c1 & -> & HP1).
    destruct (value_ltb v mu).
    + destruct (value_leb v a); [eauto|]. apply IH; auto.
      intros; apply Hchild; auto; right; auto.
    + destruct (value_leb mu a); [eauto|]. apply IH; auto.
      intros; apply Hchild; auto; right; auto.
Qed.

End AlphaBetaRules.

(** ** The alpha-beta nodes *)

Section AlphaBetaFacts.
Context `{OthelloShared}.

(** Every utility returned by an alpha-beta node is an integer, and the
    cache only ever holds integers. *)
Lemma alphabeta_finite fuel caching ordering color :
  forall bd alpha beta limit cache m v c',
    (truthy caching = true -> cache_finite cache) ->
    (alphabeta_max_node fuel bd color alpha beta limit caching ordering cache
     = Some (m, v, c') ->
     is_finite v /\ (truthy caching = true -> cache_finite c'))
    /\ (alphabeta_min_node fuel bd color alpha beta limit caching ordering cache
        = Some (m, v, c') ->
        is_finite v /\ (truthy caching = true -> cache_finite c')).
Proof.
  induction fuel as [|fuel IH]; intros bd alpha beta limit cache m v c' HP;
    [split; discriminate|].
  split; intros Hrun; simpl in Hrun;
    (destruct (cache_hit caching cache bd) as [v0|] eqn:Hhit;
     [ inversion Hrun; subst; split; [eapply cache_hit_finite; eauto | assumption] |]).
  - destruct (is_leaf (get_possible_moves bd color) limit) eqn:Hleaf.
    + inversion Hrun; subst. split; [exact I|].
      apply cache_store_finite; [exact I | assumption].
    + destruct (alphabeta_max_loop _ _ None NegInf alpha beta cache)
        as [[[best mu] c1]|] eqn:Hloop; [|discriminate].
      inversion Hrun; subst. apply is_leaf_false_inv in Hleaf as [Hne _].
      eapply (alphabeta_max_loop_rule_nonempty
                (fun c => truthy caching = true -> cache_finite c) is_finite)
        in Hloop as (HP1 & HV & _); eauto.
      * split; [assumption|]. apply cache_store_finite; assumption.
      * intros Hnil. apply Hne.
        destruct (get_possible_moves bd color) as [|mv rest]; [reflexivity|].
        assert (Hin : In (play_move bd color mv.1 mv.2, mv)
                        (max_successors bd color ordering (mv :: rest)))
          by (apply max_successors_in; exists mv; split; [left|]; reflexivity).
        rewrite Hnil in Hin. destruct Hin.
      * intros s a b c m0 v0 c0 _ HPc Hc.
        exact (proj2 (IH _ _ _ _ _ m0 v0 c0 HPc) Hc).
      * intros w Hw. destruct w; simpl in Hw; try contradiction; reflexivity.
  - destruct (is_leaf (get_possible_moves bd (opponent_of color)) limit) eqn:Hleaf.
    + inversion Hrun; subst. split; [exact I|].
      apply cache_store_finite; [exact I | assumption].
    + destruct (alphabeta_min_loop _ _ None PosInf alpha beta cache)
        as [[[best mu] c1]|] eqn:Hloop; [|discriminate].
      inversion Hrun; subst. apply is_leaf_false_inv in Hleaf as [Hne _].
      eapply (alphabeta_min_loop_rule_nonempty
                (fun c => truthy caching = true -> cache_finite c) is_finite)
        in Hloop as (HP1 & HV & _); eauto.
      * split; [assumption|]. apply cache_store_finite; assumption.
      * intros Hnil. apply Hne.
        destruct (get_possible_moves bd (opponent_of color)) as [|mv rest]; [reflexivity|].
        assert (Hin : In (play_move bd (opponent_of color) mv.1 mv.2, mv)
                        (min_successors bd color ordering (mv :: rest)))
          by (apply min_successors_in; exists mv; split; [left|]; reflexivity).
        rewrite Hnil in Hin. destruct Hin.
      * intros s a b c m0 v0 c0 _ HPc Hc.
        exact (proj1 (IH _ _ _ _ _ m0 v0 c0 HPc) Hc).
      * intros w Hw. destruct w; simpl in Hw; try contradiction; reflexivity.
Qed.

(** With a non-negative depth limit, more fuel than the limit is enough
    for an alpha-beta node to return. *)
Lemma alphabeta_returns fuel :
  forall limit bd color alpha beta caching ordering cache,
    0 <= limit < Z.of_nat fuel ->
    is_Some (alphabeta_max_node fuel bd color alpha beta limit caching ordering cache)
    /\ is_Some (alphabeta_min_node fuel bd color alpha beta limit caching ordering cache).
Proof.
  induction fuel as [|fuel IH]; intros limit bd color alpha beta caching ordering cache Hl;
    [lia|].
  split; simpl; (destruct (cache_hit caching cache bd); [eauto|]).
  - destruct (is_leaf _ limit) eqn:Hleaf; [eauto|].
    apply is_leaf_false_inv in Hleaf as [_ Hnz].
    destruct (alphabeta_max_loop_returns (fun _ => True)
                (fun new_board a b c =>
                   alphabeta_min_node fuel new_board color a b (limit - 1)
                     caching ordering c)
                (max_successors bd color ordering (get_possible_moves bd color))) with
      (best := @None move) (mu := NegInf) (a := alpha) (b := beta) (cache := cache)
      as [[[b v] c] ->]; eauto.
    intros s a b c _ _.
    destruct (IH (limit - 1) s.1 color a b caching ordering c)
      as [_ [[[m v] c'] ->]]; [lia | eauto].
  - destruct (is_leaf _ limit) eqn:Hleaf; [eauto|].
    apply is_leaf_false_inv in Hleaf as [_ Hnz].
    destruct (alphabeta_min_loop_returns (fun _ => True)
                (fun new_board a b c =>
                   alphabeta_max_node fuel new_board color a b (limit - 1)
                     caching ordering c)
                (min_successors bd color ordering
                   (get_possible_moves bd (opponent_of color)))) with
      (best := @None move) (mu := PosInf) (a := alpha) (b := beta) (cache := cache)
      as [[[b v] c] ->]; eauto.
    intros s a b c _ _.
    destruct (IH (limit - 1) s.1 color a b caching ordering c)
      as [[[[m v] c'] ->] _]; [lia | eauto].
Qed.

(** A max node that expands its moves returns one of them. *)
Lemma alphabeta_max_node_picks fuel bd color alpha beta limit caching ordering cache m v c' :
  (truthy caching = true -> cache_finite cache) ->
  cache_hit caching cache bd = None ->
  is_leaf (get_possible_moves bd color) limit = false ->
  alphabeta_max_node fuel bd color alpha beta limit caching ordering cache
  = Some (m, v, c') ->
  exists mv, m = Some mv /\ In mv (get_possible_moves bd color).
Proof.
  intros HP Hhit Hleaf Hrun. destruct fuel as [|fuel]; [discriminate|].
  simpl in Hrun. rewrite Hhit, Hleaf in Hrun.
  destruct (alphabeta_max_loop _ _ None NegInf alpha beta cache)
    as [[[best mu] c1]|] eqn:Hloop; [|discriminate].
  inversion Hrun; subst. apply is_leaf_false_inv in Hleaf as [Hne _].
  eapply (alphabeta_max_loop_rule_nonempty
            (fun c => truthy caching = true -> cache_finite c) is_finite)
    in Hloop as (_ & _ & s & -> & Hin); eauto.
  - apply max_successors_in in Hin as (mv & Hmv & ->). eauto.
  - intros Hnil. apply Hne.
    destruct (get_possible_moves bd color) as [|mv rest]; [reflexivity|].
    assert (Hin : In (play_move bd color mv.1 mv.2, mv)
                    (max_successors bd color ordering (mv :: rest)))
      by (apply max_successors_in; exists mv; split; [left|]; reflexivity).
    rewrite Hnil in Hin. destruct Hin.
  - intros s a b c m0 v0 c0 _ HPc Hc.
    exact (proj2 (alphabeta_finite fuel caching ordering color _ _ _ _ _ m0 v0 c0 HPc) Hc).
  - intros w Hw. destruct w; simpl in Hw; try contradiction; reflexivity.
Qed.

End AlphaBetaFacts.

(** ** The cache during a search *)

Section CacheGrowth.
Context `{OthelloShared}.

Lemma cache_miss_lookup (caching : Z) (cache : cache_t) (bd : board) :
  cache_hit caching cache bd = None -> truthy caching = true -> cache !! bd = None.
Proof. unfold cache_hit. intros Hm Ht. rewrite Ht in Hm. exact Hm. Qed.

Lemma cache_store_grows (caching : Z) (cache c1 : cache_t) (bd : board) (v : value) :
  cache_hit caching cache bd = None -> cache ⊆ c1 ->
  cache ⊆ cache_store caching c1 bd v.
Proof.
  intros Hm Hs. unfold cache_store. destruct (truthy caching) eqn:Ht; [|exact Hs].
  apply insert_subseteq_r; [|exact Hs]. apply (cache_miss_lookup caching); assumption.
Qed.

Lemma cache_kept_hit (caching : Z) (cache : cache_t) (bd : board) (v : value) :
  cache_hit caching cache bd = Some v -> cache_kept caching cache bd v cache.
Proof.
  unfold cache_hit, cache_kept. destruct (truthy caching); [|discriminate]. auto.
Qed.

Lemma cache_kept_store (caching : Z) (cache c1 : cache_t) (bd : board) (v : value) :
  cache_hit caching cache bd = None ->
  cache ⊆ c1 /\ (truthy caching = false -> c1 = cache) ->
  cache_kept caching cache bd v (cache_store caching c1 bd v).
Proof.
  intros Hm [Hs He]. split; [apply cache_store_grows; assumption|].
  unfold cache_store. destruct (truthy caching); [apply lookup_insert_eq | auto].
Qed.

Lemma cache_kept_step (caching : Z) (cache c c' : cache_t) (bd : board) (v : value) :
  cache ⊆ c /\ (truthy caching = false -> c = cache) ->
  cache_kept caching c bd v c' ->
  cache ⊆ c' /\ (truthy caching = false -> c' = cache).
Proof.
  intros [Hs He] [Hs' Hk]. split; [etrans; eassumption|].
  intros Ht. rewrite Ht in Hk. rewrite Hk. auto.
Qed.

Lemma minimax_cache_kept fuel caching color :
  forall bd limit cache m v c',
    (minimax_max_node fuel bd color limit caching cache = Some (m, v, c') ->
     cache_kept caching cache bd v c')
    /\ (minimax_min_node fuel bd color limit caching cache = Some (m, v, c') ->
        cache_kept caching cache bd v c').
Proof.
  induction fuel as [|fuel IH]; intros bd limit cache m v c'; [split; discriminate|].
  split; intros Hrun; simpl in Hrun;
    (destruct (cache_hit caching cache bd) as [v0|] eqn:Hhit;
     [injection Hrun as <- <- <-; apply cache_kept_hit; assumption|]).
  - destruct (is_leaf (get_possible_moves bd color) limit).
    + injection Hrun as <- <- <-. apply cache_kept_store; auto.
    + destruct (minimax_max_loop _ bd color _ None NegInf cache)
        as [[[best mu] c1]|] eqn:Hloop; [|discriminate].
      injection Hrun as <- <- <-. apply cache_kept_store; [assumption|].
      eapply (minimax_max_loop_rule
                (fun c => cache ⊆ c /\ (truthy caching = false -> c = cache))
                (fun _ => True)) in Hloop as [HP _]; eauto.
      intros mv c m0 v0 c0 _ HPc Hc. split; [exact I|].
      eapply cache_kept_step; [exact HPc|]. exact (proj2 (IH _ _ _ _ _ _) Hc).
  - destruct (is_leaf (get_possible_moves bd (opponent_of color)) limit).
    + injection Hrun as <- <- <-. apply cache_kept_store; auto.
    + destruct (minimax_min_loop _ bd (opponent_of color) _ None PosInf cache)
        as [[[best mu] c1]|] eqn:Hloop; [|discriminate].
      injection Hrun as <- <- <-. apply cache_kept_store; [assumption|].
      eapply (minimax_min_loop_rule
                (fun c => cache ⊆ c /\ (truthy caching = false -> c = cache))
                (fun _ => True)) in Hloop as [HP _]; eauto.
      intros mv c m0 v0 c0 _ HPc Hc. split; [exact I|].
      eapply cache_kept_step; [exact HPc|]. exact (proj1 (IH _ _ _ _ _ _) Hc).
Qed.

Lemma alphabeta_cache_kept fuel caching ordering color :
  forall bd alpha beta limit cache m v c',
    (alphabeta_max_node fuel bd color alpha beta limit caching ordering cache
     = Some (m, v, c') ->
     cache_kept caching cache bd v c')
    /\ (alphabeta_min_node fuel bd color alpha beta limit caching ordering cache
        = Some (m, v, c') ->
        cache_kept caching cache bd v c').
Proof.
  induction fuel as [|fuel IH]; intros bd alpha beta limit cache m v c';
    [split; discriminate|].
  split; intros Hrun; simpl in Hrun;
    (destruct (cache_hit caching cache bd) as [v0|] eqn:Hhit;
     [injection Hrun as <- <- <-; apply cache_kept_hit; assumption|]).
  - destruct (is_leaf (get_possible_moves bd color) limit).
    + injection Hrun as <- <- <-. apply cache_kept_store; auto.
    + destruct (alphabeta_max_loop _ _ None NegInf alpha beta cache)
        as [[[best mu] c1]|] eqn:Hloop; [|discriminate].
      injection Hrun as <- <- <-. apply cache_kept_store; [assumption|].
      eapply (alphabeta_max_loop_rule
                (fun c => cache ⊆ c /\ (truthy caching = false -> c = cache))
                (fun _ => True)) in Hloop as [HP _]; eauto.
      intros s a b c m0 v0 c0 _ HPc Hc. split; [exact I|].
      eapply cache_kept_step; [exact HPc|]. exact (proj2 (IH _ _ _ _ _ _ _ _) Hc).
  - destruct (is_leaf (get_possible_moves bd (opponent_of color)) limit).
    + injection Hrun as <- <- <-. apply cache_kept_store; auto.
    + destruct (alphabeta_min_loop _ _ None PosInf alpha beta cache)
        as [[[best mu] c1]|] eqn:Hloop; [|discriminate].
      injection Hrun as <- <- <-. apply cache_kept_store; [assumption|].
      eapply (alphabeta_min_loop_rule
                (fun c => cache ⊆ c /\ (truthy caching = false -> c = cache))
                (fun _ => True)) in Hloop as [HP _]; eauto.
      intros s a b c m0 v0 c0 _ HPc Hc. split; [exact I|].
      eapply cache_kept_step; [exact HPc|]. exact (proj1 (IH _ _ _ _ _ _ _ _) Hc).
Qed.

End CacheGrowth.

Lemma truthy_true_iff (z : Z) : truthy z = true <-> z <> 0.
Proof. unfold truthy. destruct (Z.eqb_spec z 0); simpl; split; congruence. Qed.

Lemma truthy_false_iff (z : Z) : truthy z = false <-> z = 0.
Proof. unfold truthy. destruct (Z.eqb_spec z 0); simpl; split; congruence. Qed.

Lemma run_node_hit `{OthelloShared} (k : node_kind) (fuel : nat) (bd : board)
    (color : Z) (alpha beta : value) (limit caching ordering : Z) (cache : cache_t)
    (v : value) :
  cache_hit caching cache bd = Some v ->
  run_node k (S fuel) bd color alpha beta limit caching ordering cache
  = Some (None, v, cache).
Proof. intros Hhit. destruct k; simpl; rewrite Hhit; reflexivity. Qed.

(** X5: a node of either search never changes or drops a cache entry it
    found. With caching on it leaves its board in the cache with the
    utility it returns, so that any later visit of that board, by any of
    the four node functions and with any color, window, depth limit or
    ordering, returns that utility and no move without searching; with
    caching off it returns the cache as it was. *)
Theorem node_cache_bookkeeping `{OthelloShared}
    (k : node_kind) (fuel : nat) (bd : board) (color : Z) (alpha beta : value)
    (limit caching ordering : Z) (cache : cache_t)
    (m : option move) (v : value) (c' : cache_t) :
  run_node k fuel bd color alpha beta limit caching ordering cache = Some (m, v, c') ->
  cache ⊆ c'
  /\ (caching = 0 -> c' = cache)
  /\ (caching <> 0 ->
      c' !! bd = Some v
      /\ forall k' fuel' color' alpha' beta' limit' ordering',
           run_node k' (S fuel') bd color' alpha' beta' limit' caching ordering' c'
           = Some (None, v, c')).
Proof.
  intros Hrun.
  assert (Hkept : cache_kept caching cache bd v c').
  { destruct k; simpl in Hrun.
    - exact (proj2 (minimax_cache_kept _ _ _ _ _ _ _ _ _) Hrun).
    - exact (proj1 (minimax_cache_kept _ _ _ _ _ _ _ _ _) Hrun).
    - exact (proj2 (alphabeta_cache_kept _ _ _ _ _ _ _ _ _ _ _ _) Hrun).
    - exact (proj1 (alphabeta_cache_kept _ _ _ _ _ _ _ _ _ _ _ _) Hrun). }
  destruct Hkept as [Hsub Hk]. split; [exact Hsub|]. split.
  - intros Hz. apply truthy_false_iff in Hz. rewrite Hz in Hk. exact Hk.
  - intros Hnz. apply truthy_true_iff in Hnz. rewrite Hnz in Hk. split; [exact Hk|].
    intros. apply run_node_hit. unfold cache_hit. rewrite Hnz. exact Hk.
Qed.

(** The witness: a leaf of the alpha-beta search, revisited by a minimax
    min node for the other color. *)
Lemma node_cache_bookkeeping_witness :
  run_node (H := Othello.shared) MinimaxMin 1 Othello.start4 2 NegInf PosInf 7 1 0
    {[ Othello.start4 := Fin 0 ]}
  = Some (None, Fin 0, {[ Othello.start4 := Fin 0 ]}).
Proof.
  destruct (node_cache_bookkeeping (H := Othello.shared) AlphabetaMax 1 Othello.start4 1
              NegInf PosInf 0 1 1 ∅ None (Fin 0) {[ Othello.start4 := Fin 0 ]})
    as (_ & _ & Hon).
  - vm_compute. reflexivity.
  - destruct Hon as [_ Hagain]; [lia|]. apply Hagain.
Defined.

(** X6: every utility a node returns is an integer, never one of the
    infinite loop seeds, and the cache only ever holds integers, provided
    it held only integers when the node was entered. *)
Theorem node_utilities_are_integers `{OthelloShared}
    (k : node_kind) (fuel : nat) (bd : board) (color : Z) (alpha beta : value)
    (limit caching ordering : Z) (cache : cache_t)
    (m : option move) (v : value) (c' : cache_t) :
  cache_finite cache ->
  run_node k fuel bd color alpha beta limit caching ordering cache = Some (m, v, c') ->
  (exists z, v = Fin z) /\ cache_finite c'.
Proof.
  intros Hfin Hrun.
  assert (Hboth : is_finite v /\ (truthy caching = true -> cache_finite c')).
  { destruct k; simpl in Hrun.
    - exact (proj2 (minimax_finite _ _ _ _ _ _ _ _ _ (fun _ => Hfin)) Hrun).
    - exact (proj1 (minimax_finite _ _ _ _ _ _ _ _ _ (fun _ => Hfin)) Hrun).
    - exact (proj2 (alphabeta_finite _ _ _ _ _ _ _ _ _ _ _ _ (fun _ => Hfin)) Hrun).
    - exact (proj1 (alphabeta_finite _ _ _ _ _ _ _ _ _ _ _ _ (fun _ => Hfin)) Hrun). }
  destruct Hboth as [Hv Hc]. split.
  - destruct v; simpl in Hv; try contradiction. eauto.
  - destruct (truthy caching) eqn:Ht; [auto|].
    assert (Hkept : cache_kept caching cache bd v c').
    { destruct k; simpl in Hrun.
      - exact (proj2 (minimax_cache_kept _ _ _ _ _ _ _ _ _) Hrun).
      - exact (proj1 (minimax_cache_kept _ _ _ _ _ _ _ _ _) Hrun).
      - exact (proj2 (alphabeta_cache_kept _ _ _ _ _ _ _ _ _ _ _ _) Hrun).
      - exact (proj1 (alphabeta_cache_kept _ _ _ _ _ _ _ _ _ _ _ _) Hrun). }
    destruct Hkept as [_ Hk]. rewrite Ht in Hk. rewrite Hk. exact Hfin.
Qed.

(** The witness: the alpha-beta search of the 4x4 midgame position,
    four plies deep with ordering on, which returns -5. *)
Lemma node_utilities_are_integers_witness :
  (exists z, Fin (-5) = Fin z) /\ cache_finite (∅ : cache_t).
Proof.
  apply (node_utilities_are_integers (H := Othello.shared) AlphabetaMax 5
           Othello.midgame4 2 NegInf PosInf 4 0 1 ∅ (Some (1, 0)) (Fin (-5)) ∅
           cache_finite_empty).
  vm_compute. reflexivity.
Defined.

(** ** Depth limits that never run out *)

Section LoopExtensionality.
Context `{OthelloShared}.

Lemma minimax_max_loop_ext child1 child2 bd color moves :
  (forall mv c, In mv moves ->
     child1 (play_move bd color mv.1 mv.2) c = child2 (play_move bd color mv.1 mv.2) c) ->
  forall best mu cache,
    minimax_max_loop child1 bd color moves best mu cache
    = minimax_max_loop child2 bd color moves best mu cache.
Proof.
  induction moves as [|mv rest IH]; intros Hext best mu cache; simpl; [reflexivity|].
  rewrite Hext by (left; reflexivity).
  destruct (child2 _ cache) as [[[m v] c]|]; [|reflexivity].
  destruct (value_ltb mu v); apply IH; intros; apply Hext; right; assumption.
Qed.

Lemma minimax_min_loop_ext child1 child2 bd opponent moves :
  (forall mv c, In mv moves ->
     child1 (play_move bd opponent mv.1 mv.2) c
     = child2 (play_move bd opponent mv.1 mv.2) c) ->
  forall best mu cache,
    minimax_min_loop child1 bd opponent moves best mu cache
    = minimax_min_loop child2 bd opponent moves best mu cache.
Proof.
  induction moves as [|mv rest IH]; intros Hext best mu cache; simpl; [reflexivity|].
  rewrite Hext by (left; reflexivity).
  destruct (child2 _ cache) as [[[m v] c]|]; [|reflexivity].
  destruct (value_ltb v mu); apply IH; intros; apply Hext; right; assumption.
Qed.

Lemma alphabeta_max_loop_ext child1 child2 successors :
  (forall s a b c, In s successors -> child1 s.1 a b c = child2 s.1 a b c) ->
  forall best mu a b cache,
    alphabeta_max_loop child1 successors best mu a b cache
    = alphabeta_max_loop child2 successors best mu a b cache.
Proof.
  induction successors as [|s rest IH]; intros Hext best mu a b cache; simpl; [reflexivity|].
  rewrite Hext by (left; reflexivity).
  destruct (child2 s.1 a b cache) as [[[m v] c]|]; [|reflexivity].
  assert (Hrest : forall s0 a0 b0 c0, In s0 rest -> child1 s0.1 a0 b0 c0 = child2 s0.1 a0 b0 c0)
    by (intros; apply Hext; right; assumption).
  destruct (value_ltb mu v).
  - destruct (value_leb b v); [reflexivity | apply IH; exact Hrest].
  - destruct (value_leb b mu); [reflexivity | apply IH; exact Hrest].
Qed.

Lemma alphabeta_min_loop_ext child1 child2 successors :
  (forall s a b c, In s successors -> child1 s.1 a b c = child2 s.1 a b c) ->
  forall best mu a b cache,
    alphabeta_min_loop child1 successors best mu a b cache
    = alphabeta_min_loop child2 successors best mu a b cache.
Proof.
  induction successors as [|s rest IH]; intros Hext best mu a b cache; simpl; [reflexivity|].
  rewrite Hext by (left; reflexivity).
  destruct (child2 s.1 a b cache) as [[[m v] c]|]; [|reflexivity].
  assert (Hrest : forall s0 a0 b0 c0, In s0 rest -> child1 s0.1 a0 b0 c0 = child2 s0.1 a0 b0 c0)
    by (intros; apply Hext; right; assumption).
  destruct (value_ltb v mu).
  - destruct (value_leb v a); [reflexivity | apply IH; exact Hrest].
  - destruct (value_leb mu a); [reflexivity | apply IH; exact Hrest].
Qed.

Lemma is_leaf_nonzero (moves : list move) (limit limit' : Z) :
  limit <> 0 -> limit' <> 0 -> is_leaf moves limit = is_leaf moves limit'.
Proof.
  intros Hl Hl'. destruct moves as [|mv rest]; [reflexivity|]. simpl. unfold truthy.
  destruct (Z.eqb_spec limit 0), (Z.eqb_spec limit' 0); congruence.
Qed.

(** Two depth limits below zero are never used up, and the four node
    functions do the same under both. *)
Lemma negative_limits_agree fuel :
  forall k bd color alpha beta limit limit' caching ordering cache,
    limit < 0 -> limit' < 0 ->
    run_node k fuel bd color alpha beta limit caching ordering cache
    = run_node k fuel bd color alpha beta limit' caching ordering cache.
Proof.
  induction fuel as [|fuel IH];
    intros k bd color alpha beta limit limit' caching ordering cache Hl Hl';
    [destruct k; reflexivity|].
  assert (Hleaf : forall moves, is_leaf moves limit = is_leaf moves limit')
    by (intros; apply is_leaf_nonzero; lia).
  assert (Hl1 : limit - 1 < 0) by lia. assert (Hl1' : limit' - 1 < 0) by lia.
  destruct k; simpl; (destruct (cache_hit caching cache bd); [reflexivity|]);
    rewrite Hleaf; (destruct (is_leaf _ limit'); [reflexivity|]).
  - erewrite minimax_min_loop_ext; [reflexivity|]. intros mv c _.
    exact (IH MinimaxMax _ color NegInf NegInf _ _ caching 0 c Hl1 Hl1').
  - erewrite minimax_max_loop_ext; [reflexivity|]. intros mv c _.
    exact (IH MinimaxMin _ color NegInf NegInf _ _ caching 0 c Hl1 Hl1').
  - erewrite alphabeta_min_loop_ext; [reflexivity|]. intros s a b c _.
    exact (IH AlphabetaMax s.1 color a b _ _ caching ordering c Hl1 Hl1').
  - erewrite alphabeta_max_loop_ext; [reflexivity|]. intros s a b c _.
    exact (IH AlphabetaMin s.1 color a b _ _ caching ordering c Hl1 Hl1').
Qed.

End LoopExtensionality.

(** X7: a negative depth limit is no limit at all: the four node
    functions and [select_move_minimax] compute the same under any two
    negative limits, and [select_move_alphabeta], which searches with
    [limit - 1], under any two limits that are at most 0. *)
Theorem negative_limit_is_no_limit `{OthelloShared}
    (fuel : nat) (bd : board) (color : Z) (alpha beta : value)
    (limit limit' caching ordering : Z) (cache : cache_t) (g : global_t) :
  limit < 0 -> limit' < 0 ->
  (forall k,
      run_node k fuel bd color alpha beta limit caching ordering cache
      = run_node k fuel bd color alpha beta limit' caching ordering cache)
  /\ select_move_minimax fuel bd color limit caching g
     = select_move_minimax fuel bd color limit' caching g
  /\ select_move_alphabeta fuel bd color (limit + 1) caching ordering g
     = select_move_alphabeta fuel bd color (limit' + 1) caching ordering g.
Proof.
  intros Hl Hl'. split; [|split].
  - intros k. apply negative_limits_agree; assumption.
  - unfold select_move_minimax, minimax_root.
    pose proof (negative_limits_agree fuel MinimaxMax bd color NegInf NegInf limit limit'
                  caching 0 ∅ Hl Hl') as E.
    unfold run_node in E. rewrite E. reflexivity.
  - unfold select_move_alphabeta, alphabeta_root.
    assert (Hl1 : limit + 1 - 1 < 0) by lia.
    assert (Hl1' : limit' + 1 - 1 < 0) by lia.
    pose proof (negative_limits_agree fuel AlphabetaMax bd color NegInf PosInf
                  (limit + 1 - 1) (limit' + 1 - 1) caching ordering ∅ Hl1 Hl1') as E.
    unfold run_node in E. rewrite E. reflexivity.
Qed.

(** The witness: depth limit 0 against depth limit -1 on the 4x4
    opening position; both search the game to its end. *)
Lemma negative_limit_is_no_limit_witness :
  select_move_alphabeta (H := Othello.shared) 13 Othello.start4 1 (-1 + 1) 0 0 None
  = select_move_alphabeta (H := Othello.shared) 13 Othello.start4 1 (-2 + 1) 0 0 None.
Proof.
  apply (negative_limit_is_no_limit (H := Othello.shared) 13 Othello.start4 1
           NegInf PosInf (-1) (-2) 0 0 ∅ None); lia.
Defined.

Section DeepLimits.
Context `{OthelloShared}.
Variable rank : board -> nat.
Hypothesis rank_graded : graded rank.

(** On a graded game a depth limit above the rank of the board is never
    used up either. *)
Lemma deep_limits_agree fuel :
  forall k bd color alpha beta limit limit' caching ordering cache,
    Z.of_nat (rank bd) < limit -> limit' < 0 ->
    run_node k fuel bd color alpha beta limit caching ordering cache
    = run_node k fuel bd color alpha beta limit' caching ordering cache.
Proof.
  induction fuel as [|fuel IH];
    intros k bd color alpha beta limit limit' caching ordering cache Hl Hl';
    [destruct k; reflexivity|].
  assert (Hleaf : forall moves, is_leaf moves limit = is_leaf moves limit')
    by (intros; apply is_leaf_nonzero; lia).
  assert (Hl1' : limit' - 1 < 0) by lia.
  destruct k; simpl; (destruct (cache_hit caching cache bd); [reflexivity|]);
    rewrite Hleaf; (destruct (is_leaf _ limit'); [reflexivity|]).
  - erewrite minimax_min_loop_ext; [reflexivity|]. intros mv c Hin.
    pose proof (rank_graded bd (opponent_of color) mv Hin).
    refine (IH MinimaxMax _ color NegInf NegInf _ _ caching 0 c _ Hl1'). lia.
  - erewrite minimax_max_loop_ext; [reflexivity|]. intros mv c Hin.
    pose proof (rank_graded bd color mv Hin).
    refine (IH MinimaxMin _ color NegInf NegInf _ _ caching 0 c _ Hl1'). lia.
  - erewrite alphabeta_min_loop_ext; [reflexivity|]. intros s a b c Hin.
    apply min_successors_in in Hin as (mv & Hin & ->).
    pose proof (rank_graded bd (opponent_of color) mv Hin).
    refine (IH AlphabetaMax _ color a b _ _ caching ordering c _ Hl1'). simpl. lia.
  - erewrite alphabeta_max_loop_ext; [reflexivity|]. intros s a b c Hin.
    apply max_successors_in in Hin as (mv & Hin & ->).
    pose proof (rank_graded bd color mv Hin).
    refine (IH AlphabetaMin _ color a b _ _ caching ordering c _ Hl1'). simpl. lia.
Qed.

End DeepLimits.

(** ** Termination of the searches *)

Section AlphaBetaGraded.
Context `{OthelloShared}.
Variable rank : board -> nat.
Hypothesis rank_graded : graded rank.

(** On a graded game more fuel than the rank of the board is enough for
    an alpha-beta node to return, whatever the depth limit. *)
Lemma alphabeta_returns_graded fuel :
  forall bd color alpha beta limit caching ordering cache,
    (rank bd < fuel)%nat ->
    is_Some (alphabeta_max_node fuel bd color alpha beta limit caching ordering cache)
    /\ is_Some (alphabeta_min_node fuel bd color alpha beta limit caching ordering cache).
Proof.
  induction fuel as [|fuel IH];
    intros bd color alpha beta limit caching ordering cache Hr; [lia|].
  split; simpl; (destruct (cache_hit caching cache bd); [eauto|]).
  - destruct (is_leaf _ limit); [eauto|].
    destruct (alphabeta_max_loop_returns (fun _ => True)
                (fun new_board a b c =>
                   alphabeta_min_node fuel new_board color a b (limit - 1)
                     caching ordering c)
                (max_successors bd color ordering (get_possible_moves bd color))) with
      (best := @None move) (mu := NegInf) (a := alpha) (b := beta) (cache := cache)
      as [[[b v] c] ->]; eauto.
    intros s a b c Hin _. apply max_successors_in in Hin as (mv & Hin & ->).
    pose proof (rank_graded bd color mv Hin). simpl.
    destruct (IH (play_move bd color mv.1 mv.2) color a b (limit - 1) caching ordering c)
      as [_ [[[m v] c'] ->]]; [lia | eauto].
  - destruct (is_leaf _ limit); [eauto|].
    destruct (alphabeta_min_loop_returns (fun _ => True)
                (fun new_board a b c =>
                   alphabeta_max_node fuel new_board color a b (limit - 1)
                     caching ordering c)
                (min_successors bd color ordering
                   (get_possible_moves bd (opponent_of color)))) with
      (best := @None move) (mu := PosInf) (a := alpha) (b := beta) (cache := cache)
      as [[[b v] c] ->]; eauto.
    intros s a b c Hin _. apply min_successors_in in Hin as (mv & Hin & ->).
    pose proof (rank_graded bd (opponent_of color) mv Hin). simpl.
    destruct (IH (play_move bd (opponent_of color) mv.1 mv.2) color a b (limit - 1)
                caching ordering c)
      as [[[[m v] c'] ->] _]; [lia | eauto].
Qed.

End AlphaBetaGraded.

(** X8: on a graded game, such as Othello graded by its empty cells,
    every node function and both selectors return for every depth
    limit, negative ones included, once the recursion may go deeper
    than the rank of the board. *)
Theorem searches_return_on_graded_games `{OthelloShared} (rank : board -> nat)
    (fuel : nat) (bd : board) (color : Z) (alpha beta : value)
    (limit caching ordering : Z) (cache : cache_t) (g : global_t) :
  graded rank ->
  (rank bd < fuel)%nat ->
  (forall k, is_Some (run_node k fuel bd color alpha beta limit caching ordering cache))
  /\ is_Some (select_move_minimax fuel bd color limit caching g)
  /\ is_Some (select_move_alphabeta fuel bd color limit caching ordering g).
Proof.
  intros Hgraded Hfuel. split; [|split].
  - intros []; simpl.
    + apply (minimax_returns_graded rank Hgraded fuel bd color limit caching cache Hfuel).
    + apply (minimax_returns_graded rank Hgraded fuel bd color limit caching cache Hfuel).
    + apply (alphabeta_returns_graded rank Hgraded fuel bd color alpha beta limit
               caching ordering cache Hfuel).
    + apply (alphabeta_returns_graded rank Hgraded fuel bd color alpha beta limit
               caching ordering cache Hfuel).
  - unfold select_move_minimax, minimax_root.
    destruct (proj1 (minimax_returns_graded rank Hgraded fuel bd color limit caching ∅ Hfuel))
      as [[[m v] c] ->]. eauto.
  - unfold select_move_alphabeta, alphabeta_root.
    destruct (proj1 (alphabeta_returns_graded rank Hgraded fuel bd color NegInf PosInf
                       (limit - 1) caching ordering ∅ Hfuel))
      as [[[m v] c] ->]. eauto.
Qed.

(** The witness: Othello on the 4x4 opening position, which has twelve
    empty cells, with the depth limit off. *)
Lemma searches_return_on_graded_games_witness :
  is_Some (select_move_minimax (H := Othello.shared) 13 Othello.start4 1 (-1) 1 None)
  /\ is_Some (select_move_alphabeta (H := Othello.shared) 13 Othello.start4 1 (-1) 1 1 None).
Proof.
  apply (searches_return_on_graded_games (H := Othello.shared) Othello.empties
           13 Othello.start4 1 NegInf PosInf (-1) 1 1 ∅ None othello_graded).
  vm_compute. lia.
Defined.

(** X9: on a graded game a depth limit above the rank of the board is
    never used up: the node functions and [select_move_minimax] compute
    under it what they compute with the depth limit off, and
    [select_move_alphabeta], which searches with [limit - 1], does so
    from one level more. *)
Theorem deep_limit_is_no_limit `{OthelloShared} (rank : board -> nat)
    (fuel : nat) (bd : board) (color : Z) (alpha beta : value)
    (limit caching ordering : Z) (cache : cache_t) (g : global_t) :
  graded rank ->
  Z.of_nat (rank bd) < limit ->
  (forall k,
      run_node k fuel bd color alpha beta limit caching ordering cache
      = run_node k fuel bd color alpha beta (-1) caching ordering cache)
  /\ select_move_minimax fuel bd color limit caching g
     = select_move_minimax fuel bd color (-1) caching g
  /\ select_move_alphabeta fuel bd color (limit + 1) caching ordering g
     = select_move_alphabeta fuel bd color (-1) caching ordering g.
Proof.
  intros Hgraded Hl. split; [|split].
  - intros k. apply (deep_limits_agree rank Hgraded); lia.
  - unfold select_move_minimax, minimax_root.
    pose proof (deep_limits_agree rank Hgraded fuel MinimaxMax bd color NegInf NegInf
                  limit (-1) caching 0 ∅ Hl eq_refl) as E.
    unfold run_node in E. rewrite E. reflexivity.
  - unfold select_move_alphabeta, alphabeta_root.
    assert (Hl1 : Z.of_nat (rank bd) < limit + 1 - 1) by lia.
    pose proof (deep_limits_agree rank Hgraded fuel AlphabetaMax bd color NegInf PosInf
                  (limit + 1 - 1) (-2) caching ordering ∅ Hl1 eq_refl) as E.
    pose proof (negative_limits_agree fuel AlphabetaMax bd color NegInf PosInf
                  (-2) (-1 - 1) caching ordering ∅ eq_refl eq_refl) as E'.
    unfold run_node in E, E'. rewrite E, E'. reflexivity.
Qed.

(** The witness: Othello on the 4x4 midgame position, which has five
    empty cells, at depth limit 6. *)
Lemma deep_limit_is_no_limit_witness :
  select_move_minimax (H := Othello.shared) 6 Othello.midgame4 2 6 1 None
  = select_move_minimax (H := Othello.shared) 6 Othello.midgame4 2 (-1) 1 None.
Proof.
  apply (deep_limit_is_no_limit (H := Othello.shared) Othello.empties
           6 Othello.midgame4 2 NegInf PosInf 6 1 1 ∅ None othello_graded).
  vm_compute. reflexivity.
Defined.

(** X10: with a depth limit of at least 1, the alpha-beta selector
    returns as soon as the fuel reaches the limit, whatever the board,
    the color and the two flags. *)
Theorem alphabeta_returns_within_limit `{OthelloShared}
    (fuel : nat) (bd : board) (color limit caching ordering : Z) (g : global_t) :
  1 <= limit <= Z.of_nat fuel ->
  is_Some (alphabeta_root fuel bd color limit caching ordering)
  /\ is_Some (select_move_alphabeta fuel bd color limit caching ordering g).
Proof.
  intros Hl. unfold select_move_alphabeta, alphabeta_root.
  assert (Hl1 : 0 <= limit - 1 < Z.of_nat fuel) by lia.
  destruct (proj1 (alphabeta_returns fuel (limit - 1) bd color NegInf PosInf
                     caching ordering ∅ Hl1)) as [[[m v] c] ->].
  eauto.
Qed.

(** The witness: the 8x8 opening position at depth limit 3. *)
Lemma alphabeta_returns_within_limit_witness :
  is_Some (alphabeta_root (H := Othello.shared) 3 Othello.start8 1 3 1 1)
  /\ is_Some (select_move_alphabeta (H := Othello.shared) 3 Othello.start8 1 3 1 1 None).
Proof.
  apply (alphabeta_returns_within_limit (H := Othello.shared) 3 Othello.start8 1 3 1 1 None).
  lia.
Defined.

(** ** Alpha-beta against minimax, move by move *)

Section AlphaBetaMoves.
Context `{OthelloShared}.
Variable child_ab : board -> value -> value -> cache_t -> option result.
Variable child_mm : board -> cache_t -> option result.
Variable g : cache_t.

(** Under the window [(max_util, inf)], which is the one the root loop
    of [select_move_alphabeta] keeps, the alpha-beta max loop over the
    unsorted successors makes the choices of the minimax max loop. *)
Lemma alphabeta_max_loop_follows_minimax bd color moves :
  (forall mv, In mv moves ->
     exists m u, child_mm (play_move bd color mv.1 mv.2) g = Some (m, Fin u, g)
       /\ forall a b, exists m' r,
            child_ab (play_move bd color mv.1 mv.2) a b g = Some (m', Fin r, g)
            /\ (value_lt (Fin r) b -> value_le (Fin u) (Fin r))
            /\ (value_lt a (Fin r) -> value_le (Fin r) (Fin u))) ->
  forall best mu,
    mu <> PosInf ->
    alphabeta_max_loop child_ab (successors_of bd color moves) best mu mu PosInf g
    = minimax_max_loop child_mm bd color moves best mu g.
Proof.
  induction moves as [|mv rest IH]; intros Hchild best mu Hmu; [reflexivity|].
  destruct (Hchild mv (or_introl eq_refl)) as (m & u & Hmm & Hab).
  destruct (Hab mu PosInf) as (m' & r & Hrun & Hup & Hlow).
  assert (Hrest : forall mv0, In mv0 rest ->
            exists m u, child_mm (play_move bd color mv0.1 mv0.2) g = Some (m, Fin u, g)
              /\ forall a b, exists m' r,
                   child_ab (play_move bd color mv0.1 mv0.2) a b g = Some (m', Fin r, g)
                   /\ (value_lt (Fin r) b -> value_le (Fin u) (Fin r))
                   /\ (value_lt a (Fin r) -> value_le (Fin r) (Fin u)))
    by (intros; apply Hchild; right; assumption).
  cbn [successors_of map alphabeta_max_loop minimax_max_loop fst snd].
  rewrite Hrun, Hmm. specialize (Hup eq_refl).
  destruct (value_ltb mu (Fin u)) eqn:Hbetter.
  - assert (Hr : value_ltb mu (Fin r) = true)
      by (revert Hbetter Hup; clear; value_order).
    specialize (Hlow Hr).
    assert (r = u) as -> by (revert Hup Hlow; clear; value_order).
    rewrite Hbetter.
    replace (value_leb PosInf (Fin u)) with false by reflexivity.
    replace (py_max mu (Fin u)) with (Fin u) by (revert Hbetter; clear; value_order).
    apply IH; [exact Hrest | discriminate].
  - assert (Hr : value_ltb mu (Fin r) = false).
    { destruct (value_ltb mu (Fin r)) eqn:E; [|reflexivity].
      specialize (Hlow E). revert Hbetter Hlow E. clear. value_order. }
    rewrite Hr.
    replace (value_leb PosInf mu) with false
      by (destruct mu; [reflexivity | reflexivity | contradiction]).
    replace (py_max mu mu) with mu by (clear; value_order).
    apply IH; [exact Hrest | exact Hmu].
Qed.

End AlphaBetaMoves.

(** With caching and ordering off, the alpha-beta max node under the
    full window returns what the minimax max node returns: the same
    move, the same utility, the same (untouched) cache. *)
Lemma alphabeta_follows_minimax `{OthelloShared}
    (fuel : nat) (bd : board) (color limit : Z) (g : cache_t)
    (m : option move) (v : value) (g' : cache_t) :
  minimax_max_node fuel bd color limit 0 g = Some (m, v, g') ->
  alphabeta_max_node fuel bd color NegInf PosInf limit 0 0 g = Some (m, v, g').
Proof.
  intros Hrun. destruct fuel as [|fuel]; [discriminate|].
  rewrite <- Hrun. simpl in Hrun |- *.
  destruct (is_leaf (get_possible_moves bd color) limit); [reflexivity|].
  unfold max_successors. simpl.
  rewrite (alphabeta_max_loop_follows_minimax
             (fun new_board a b c =>
                alphabeta_min_node fuel new_board color a b (limit - 1) 0 0 c)
             (fun new_board c => minimax_min_node fuel new_board color (limit - 1) 0 c));
    [reflexivity | | discriminate].
  destruct (minimax_max_loop _ bd color _ None NegInf g)
    as [[[best mu] c1]|] eqn:Hloop; [|discriminate].
  apply minimax_max_loop_value in Hloop as (_ & _ & Hall & _);
    [|intros b m0 v0 c0 Hc; exact (proj2 (minimax_cache_off fuel color b _ g m0 v0 c0) Hc)].
  intros mv Hin. destruct (Hall mv Hin) as (u & Hu & _).
  destruct (minimax_min_node fuel (play_move bd color mv.1 mv.2) color (limit - 1) 0 g)
    as [[[m0 u0] c0]|] eqn:Hc; [|discriminate].
  simpl in Hu. injection Hu as ->.
  pose proof (proj2 (minimax_cache_off fuel color _ _ g m0 u c0) Hc) as ->.
  pose proof (proj2 (minimax_finite fuel 0 color _ _ g m0 u g
                       (fun (e : truthy 0 = true) => False_ind _ (diff_false_true e)))
                    Hc) as [Hfin _].
  destruct u as [|u|]; simpl in Hfin; try contradiction.
  exists m0, u. split; [reflexivity|]. intros a b.
  destruct (proj2 (alphabeta_window_sound fuel color 0 g _ _ a b m0 (Fin u) g) Hc)
    as (m' & r & Hab & Hup & Hlow).
  pose proof (proj2 (alphabeta_finite fuel 0 0 color _ a b _ g m' r g
                       (fun (e : truthy 0 = true) => False_ind _ (diff_false_true e)))
                    Hab) as [Hfin' _].
  destruct r as [|r|]; simpl in Hfin'; try contradiction.
  exists m', r. auto.
Qed.

(** X11: with caching and ordering off, [select_move_alphabeta] at depth
    limit [limit + 1] returns the move that [select_move_minimax]
    returns at depth limit [limit], whenever the latter returns: pruning
    changes neither the root utility nor the move chosen. *)
Theorem alphabeta_move_is_minimax_move `{OthelloShared}
    (fuel : nat) (bd : board) (color limit : Z) (g1 g2 : global_t) :
  is_Some (select_move_minimax fuel bd color limit 0 g1) ->
  select_move_alphabeta fuel bd color (limit + 1) 0 0 g2
  = select_move_minimax fuel bd color limit 0 g1
  /\ answer_of (alphabeta_root fuel bd color (limit + 1) 0 0)
     = answer_of (minimax_root fuel bd color limit 0).
Proof.
  unfold select_move_alphabeta, select_move_minimax, alphabeta_root, minimax_root.
  replace (limit + 1 - 1) with limit by lia.
  destruct (minimax_max_node fuel bd color limit 0 ∅) as [[[m v] g']|] eqn:Hrun;
    [|intros [x Hx]; discriminate].
  intros _. rewrite (alphabeta_follows_minimax fuel bd color limit ∅ m v g' Hrun).
  split; reflexivity.
Qed.

(** The witness: light on the 4x4 midgame position, four plies deep
    against five. *)
Lemma alphabeta_move_is_minimax_move_witness :
  select_move_alphabeta (H := Othello.shared) 5 Othello.midgame4 2 (4 + 1) 0 0 None
  = select_move_minimax (H := Othello.shared) 5 Othello.midgame4 2 4 0 None.
Proof.
  apply (alphabeta_move_is_minimax_move (H := Othello.shared) 5 Othello.midgame4 2 4
           None None).
  vm_compute. eauto.
Defined.

(** X12: with caching off an alpha-beta node is fail-soft around the
    minimax utility [v] of its board: called with a window
    [alpha < beta], it returns [v] itself when its result lies inside
    the window, an upper bound of [v] when the result is at most
    [alpha], and a lower bound when it is at least [beta]. *)
Theorem alphabeta_is_fail_soft `{OthelloShared}
    (fuel : nat) (bd : board) (color : Z) (alpha beta : value)
    (limit ordering : Z) (g : cache_t) :
  value_lt alpha beta ->
  (forall m v g',
     minimax_max_node fuel bd color limit 0 g = Some (m, v, g') ->
     exists m' r,
       alphabeta_max_node fuel bd color alpha beta limit 0 ordering g = Some (m', r, g)
       /\ (value_lt alpha r -> value_lt r beta -> r = v)
       /\ (value_le r alpha -> value_le v r)
       /\ (value_le beta r -> value_le r v))
  /\ (forall m v g',
        minimax_min_node fuel bd color limit 0 g = Some (m, v, g') ->
        exists m' r,
          alphabeta_min_node fuel bd color alpha beta limit 0 ordering g = Some (m', r, g)
          /\ (value_lt alpha r -> value_lt r beta -> r = v)
          /\ (value_le r alpha -> value_le v r)
          /\ (value_le beta r -> value_le r v)).
Proof.
  intros Hwin. split; intros m v g' Hrun.
  - destruct (proj1 (alphabeta_window_sound fuel color ordering g bd limit
                       alpha beta m v g') Hrun) as (m' & r & Hab & Hup & Hlow).
    exists m', r. split; [exact Hab|]. repeat split.
    + intros Ha Hb. apply value_le_antisym; auto.
    + intros Hle. apply Hup. revert Hwin Hle. clear. value_order.
    + intros Hle. apply Hlow. revert Hwin Hle. clear. value_order.
  - destruct (proj2 (alphabeta_window_sound fuel color ordering g bd limit
                       alpha beta m v g') Hrun) as (m' & r & Hab & Hup & Hlow).
    exists m', r. split; [exact Hab|]. repeat split.
    + intros Ha Hb. apply value_le_antisym; auto.
    + intros Hle. apply Hup. revert Hwin Hle. clear. value_order.
    + intros Hle. apply Hlow. revert Hwin Hle. clear. value_order.
Qed.

(** The witness: light on the 4x4 midgame position, three plies deep,
    whose minimax utility is -3, searched with the window (5, 7). *)
Lemma alphabeta_is_fail_soft_witness :
  exists m' r,
    alphabeta_max_node (H := Othello.shared) 4 Othello.midgame4 2 (Fin 5) (Fin 7) 3 0 1 ∅
    = Some (m', r, ∅)
    /\ (value_le r (Fin 5) -> value_le (Fin (-3)) r).
Proof.
  destruct (alphabeta_is_fail_soft (H := Othello.shared) 4 Othello.midgame4 2
              (Fin 5) (Fin 7) 3 1 ∅ eq_refl) as [Hmax _].
  destruct (Hmax (Some (1, 0)) (Fin (-3)) ∅) as (m' & r & Hab & _ & Hle & _).
  - vm_compute. reflexivity.
  - exists m', r. split; assumption.
Defined.

(** ** Node ordering *)



(** ** Boards on which the heuristic raises *)

Section HeuristicErrors.
Context `{OthelloShared}.

Lemma py_index_past_end {A : Type} (l : list A) (i : Z) :
  Z.of_nat (length l) <= i -> py_index l i = None.
Proof.
  intros Hi. unfold py_index.
  destruct (Z.ltb_spec i (Z.of_nat (length l))); [lia|]. rewrite andb_false_r.
  destruct (Z.ltb_spec i 0); [lia|]. rewrite andb_false_r. reflexivity.
Qed.

Lemma board_at_wide bd i j :
  ~ has_short_row bd -> 0 <= i < len bd -> 0 <= j < len bd ->
  is_Some (board_at bd i j).
Proof.
  intros Hw Hi Hj. unfold len in *.
  destruct (lookup_lt_is_Some_2 bd (Z.to_nat i)) as [row Hrow]; [lia|].
  assert (Hlen : (length bd <= length row)%nat).
  { apply Nat.nlt_ge. intros Hlt. apply Hw. apply Exists_exists. exists row.
    split; [|exact Hlt]. eapply list_elem_of_lookup_2; eauto. }
  unfold board_at. rewrite py_index_in_range by lia. rewrite Hrow.
  rewrite py_index_in_range by lia. apply lookup_lt_is_Some_2. lia.
Qed.

Lemma check_empty_cols_total bd coordinates i js :
  ~ has_short_row bd -> 0 <= i < len bd ->
  is_Some (check_empty_cols bd (len bd) coordinates i js).
Proof.
  intros Hw Hi. induction js as [|j js IH]; simpl; [eauto|].
  destruct (Z.leb_spec 0 j); simpl; [|exact IH].
  destruct (Z.leb_spec j (len bd - 1)); simpl; [|exact IH].
  destruct (negb _); simpl; [|exact IH].
  destruct (board_at_wide bd i j Hw) as [c ->]; [lia | lia |].
  destruct (c =? 0); [eauto | exact IH].
Qed.

Lemma check_empty_rows_total bd coordinates rows :
  ~ has_short_row bd ->
  is_Some (check_empty_rows bd (len bd) coordinates rows).
Proof.
  intros Hw. induction rows as [|i rows IH]; simpl; [eauto|].
  destruct (Z.leb_spec 0 i); simpl; [|exact IH].
  destruct (Z.leb_spec i (len bd - 1)); simpl; [|exact IH].
  destruct (check_empty_cols_total bd coordinates i
              (py_range (coordinates.2 - 1) (coordinates.2 + 2)) Hw) as [[] ->];
    [lia | eauto | exact IH].
Qed.

Lemma count_empty_cols_total bd color i js total :
  ~ has_short_row bd -> 0 <= i < len bd -> Forall (fun j => 0 <= j < len bd) js ->
  is_Some (count_empty_cols bd color i js total).
Proof.
  intros Hw Hi Hjs. revert total.
  induction Hjs as [|j js Hj _ IH]; intros total; simpl; [eauto|].
  destruct (board_at_wide bd i j Hw Hi Hj) as [c ->].
  destruct (c =? color); [|apply IH].
  destruct (check_empty_rows_total bd (i, j)
              (py_range ((i, j).1 - 1) ((i, j).1 + 2)) Hw) as [[] Hce];
    unfold check_empty; rewrite Hce; apply IH.
Qed.

Lemma count_empty_rows_total bd color rows total :
  ~ has_short_row bd -> Forall (fun i => 0 <= i < len bd) rows ->
  is_Some (count_empty_rows bd color (len bd) rows total).
Proof.
  intros Hw Hrows. revert total.
  induction Hrows as [|i rows Hi _ IH]; intros total; simpl; [eauto|].
  destruct (count_empty_cols_total bd color i (py_range 0 (len bd)) total Hw Hi
              (py_range_bounds (len bd))) as [total' ->].
  apply IH.
Qed.

Lemma count_corners_total bd color opponent corners my_corners opp_corners :
  ~ has_short_row bd ->
  Forall (fun p => 0 <= p.1 < len bd /\ 0 <= p.2 < len bd) corners ->
  is_Some (count_corners bd color opponent corners my_corners opp_corners).
Proof.
  intros Hw Hcs. revert my_corners opp_corners.
  induction Hcs as [|[i j] corners [Hi Hj] _ IH]; intros my_corners opp_corners; simpl;
    [eauto|].
  simpl in Hi, Hj. destruct (board_at_wide bd i j Hw Hi Hj) as [c ->].
  destruct (c =? color); [apply IH|]. destruct (c =? opponent); apply IH.
Qed.

(** A read past the end of a row stops the inner loop of [count_empty],
    wherever in the row the loop is. *)
Lemma count_empty_cols_raises bd color i js total :
  (exists j, In j js /\ board_at bd i j = None) ->
  count_empty_cols bd color i js total = None.
Proof.
  revert total. induction js as [|j js IH]; intros total (j0 & Hin & Hj0);
    [destruct Hin|]. simpl.
  destruct (board_at bd i j) as [c|] eqn:Hc; [|reflexivity].
  assert (Hrest : exists j, In j js /\ board_at bd i j = None).
  { destruct Hin as [-> | Hin]; [congruence | eauto]. }
  destruct (c =? color); [|apply IH; exact Hrest].
  destruct (check_empty bd (i, j)) as [[]|]; [apply IH | apply IH | reflexivity];
    exact Hrest.
Qed.

Lemma count_empty_rows_raises bd color n rows total :
  (exists i, In i rows
             /\ forall total', count_empty_cols bd color i (py_range 0 n) total' = None) ->
  count_empty_rows bd color n rows total = None.
Proof.
  revert total. induction rows as [|i rows IH]; intros total (i0 & Hin & Hi0);
    [destruct Hin|]. simpl.
  destruct (count_empty_cols bd color i (py_range 0 n) total) as [total'|] eqn:Hc;
    [|reflexivity].
  apply IH. destruct Hin as [-> | Hin]; [rewrite Hi0 in Hc; discriminate | eauto].
Qed.

Lemma in_py_range i n : 0 <= i < n -> In i (py_range 0 n).
Proof.
  intros Hi. apply list_elem_of_In. unfold py_range. apply elem_of_seqZ. lia.
Qed.

Lemma count_empty_raises bd color :
  has_short_row bd -> count_empty bd color = None.
Proof.
  intros Hs. apply Exists_exists in Hs as (row & Hin & Hlen).
  apply list_elem_of_lookup_1 in Hin as [i Hi].
  pose proof (lookup_lt_Some _ _ _ Hi) as Hlt.
  unfold count_empty. apply count_empty_rows_raises.
  exists (Z.of_nat i). split; [apply in_py_range; unfold len; lia|].
  intros total. apply count_empty_cols_raises.
  exists (Z.of_nat (length row)). split; [apply in_py_range; unfold len; lia|].
  unfold board_at. rewrite py_index_in_range by lia.
  rewrite Nat2Z.id, Hi. apply py_index_past_end. lia.
Qed.

Lemma count_empty_total bd color :
  ~ has_short_row bd -> is_Some (count_empty bd color).
Proof.
  intros Hw. unfold count_empty.
  apply count_empty_rows_total; [exact Hw | apply py_range_bounds].
Qed.

End HeuristicErrors.

(** X14: [count_empty] raises (an IndexError) exactly when some row of
    the board is shorter than the board is high, and
    [compute_heuristic], once [get_possible_moves] has returned, exactly
    then or when the board has no row at all; on every other board,
    square or wider than high, both return. *)
Theorem compute_heuristic_raises_iff `{OthelloShared} (bd : board) (color : Z) :
  (count_empty bd color = None <-> has_short_row bd)
  /\ (compute_heuristic bd color = None <-> bd = [] \/ has_short_row bd).
Proof.
  assert (Hdec : has_short_row bd \/ ~ has_short_row bd).
  { unfold has_short_row.
    destruct (decide (Exists (fun row => (length row < length bd)%nat) bd)); auto. }
  split.
  - split; [|apply count_empty_raises].
    intros Hnone. destruct Hdec as [Hs | Hw]; [exact Hs|].
    destruct (count_empty_total bd color Hw) as [n Hn]. congruence.
  - split.
    + intros Hnone. destruct bd as [|row0 bd0]; [left; reflexivity|]. right.
      destruct Hdec as [Hs | Hw]; [exact Hs|]. exfalso.
      unfold compute_heuristic in Hnone.
      destruct (add_ratio_rounded 1 (PyInt 0)
                  (Z.of_nat (length (get_possible_moves (row0 :: bd0) color)))
                  (Z.of_nat (length (get_possible_moves (row0 :: bd0)
                                       (opponent_of color)))))
        as [E1 B1]; [lia | lia | lia | unfold prec; lia | left; reflexivity |].
      rewrite E1 in Hnone.
      destruct (count_empty_total (row0 :: bd0) color Hw) as [n1 Hn1].
      destruct (count_empty_total (row0 :: bd0) (opponent_of color) Hw) as [n2 Hn2].
      rewrite Hn1, Hn2 in Hnone.
      destruct (add_ratio_rounded (1 + 100) _ n1 n2
                  (count_empty_nonneg _ _ _ Hn1) (count_empty_nonneg _ _ _ Hn2)
                  ltac:(lia) ltac:(unfold prec; lia) B1) as [E2 B2].
      rewrite E2 in Hnone.
      destruct (count_corners_total (row0 :: bd0) color (opponent_of color)
                  [(0, 0); (0, len (row0 :: bd0) - 1); (len (row0 :: bd0) - 1, 0);
                   (len (row0 :: bd0) - 1, len (row0 :: bd0) - 1)] 0 0 Hw)
        as [[c1 c2] Hc].
      { unfold len. simpl length. repeat constructor; simpl; lia. }
      cbv zeta in Hnone. rewrite Hc in Hnone.
      destruct (count_corners_nonneg _ _ _ _ _ _ _ _ Hc) as [Hc1 Hc2].
      destruct (add_ratio_rounded (1 + 100 + 100) _ c1 c2 Hc1 Hc2
                  ltac:(lia) ltac:(unfold prec; lia) B2) as [E3 _].
      rewrite E3 in Hnone. discriminate.
    + intros [-> | Hs]; unfold compute_heuristic;
        (destruct (add_ratio (PyInt 0) _ _) as [result|]; [|reflexivity]).
      * reflexivity.
      * rewrite (count_empty_raises bd color Hs). reflexivity.
Qed.

(** ** The heuristic is zero-sum *)

Section FloatSymmetry.

Lemma binary_round_aux_opp (s : bool) (mx ex : Z) (lx : location) :
  binary_round_aux prec emax (negb s) mx ex lx
  = SFopp (binary_round_aux prec emax s mx ex lx).
Proof.
  unfold binary_round_aux. destruct (shr_fexp prec emax mx ex lx) as [mrs e1].
  destruct (shr_fexp prec emax _ e1 loc_Exact) as [mrs2 e2].
  destruct (shr_m mrs2); [reflexivity | | reflexivity].
  destruct (e2 <=? emax - prec); reflexivity.
Qed.

Lemma binary_round_opp (s : bool) (mx : positive) (ex : Z) :
  binary_round prec emax (negb s) mx ex = SFopp (binary_round prec emax s mx ex).
Proof.
  unfold binary_round. destruct (shl_align mx ex _) as [mz ez].
  apply binary_round_aux_opp.
Qed.

Lemma float_opp_SFopp (K E : Z) (x : spec_float) :
  bounded_by K E x -> float_opp x (SFopp x).
Proof. destruct x; simpl; try contradiction; auto. Qed.

Lemma float_opp_sym (x y : spec_float) : float_opp x y -> float_opp y x.
Proof.
  destruct x as [| | |s m e], y as [| | |s' m' e']; simpl; try tauto.
  intros (-> & -> & ->). rewrite negb_involutive. auto.
Qed.

Lemma float_opp_bounded (K E : Z) (x y : spec_float) :
  float_opp x y -> bounded_by K E x -> bounded_by K E y.
Proof.
  destruct x as [| | |s m e], y as [| | |s' m' e']; simpl; try tauto.
  intros (_ & -> & ->). tauto.
Qed.

Lemma float_opp_finite (s : bool) (m : positive) (e : Z) (y : spec_float) :
  float_opp (S754_finite s m e) y -> y = SFopp (S754_finite s m e).
Proof. destruct y; simpl; try tauto. intros (-> & -> & ->). reflexivity. Qed.

Lemma SFdiv_opp (sa sb : bool) (ma mb : positive) :
  SFdiv prec emax (S754_finite (negb sa) ma 0) (S754_finite sb mb 0)
  = SFopp (SFdiv prec emax (S754_finite sa ma 0) (S754_finite sb mb 0)).
Proof.
  unfold SFdiv. destruct (SFdiv_core_binary prec emax (Z.pos ma) 0 (Z.pos mb) 0)
    as [[mz ez] lz].
  replace (xorb (negb sa) sb) with (negb (xorb sa sb)) by (destruct sa, sb; reflexivity).
  apply binary_round_aux_opp.
Qed.

Lemma SFmul_opp (sc sx : bool) (mc mx : positive) (ec ex : Z) :
  SFmul prec emax (S754_finite sc mc ec) (S754_finite (negb sx) mx ex)
  = SFopp (SFmul prec emax (S754_finite sc mc ec) (S754_finite sx mx ex)).
Proof.
  unfold SFmul.
  replace (xorb sc (negb sx)) with (negb (xorb sc sx)) by (destruct sc, sx; reflexivity).
  apply binary_round_aux_opp.
Qed.

(** The quotients of opposite numerators are opposite. *)
Lemma int_division_opp (n d : Z) :
  0 < d -> Z.abs n <= d ->
  float_opp (SFdiv prec emax (int_operand n) (int_operand d))
            (SFdiv prec emax (int_operand (- n)) (int_operand d)).
Proof.
  intros Hd Hn. pose proof (int_division_bound n d Hd Hn) as Hb.
  destruct d as [|d|d]; try lia.
  destruct n as [|n|n].
  - exact I.
  - change (int_operand (- Z.pos n)) with (S754_finite (negb false) n 0).
    change (int_operand (Z.pos n)) with (S754_finite false n 0) in *.
    change (int_operand (Z.pos d)) with (S754_finite false d 0) in *.
    rewrite SFdiv_opp. apply (float_opp_SFopp 1 0). exact Hb.
  - change (int_operand (- Z.neg n)) with (S754_finite (negb true) n 0).
    change (int_operand (Z.neg n)) with (S754_finite true n 0) in *.
    change (int_operand (Z.pos d)) with (S754_finite false d 0) in *.
    rewrite SFdiv_opp. apply (float_opp_SFopp 1 0). exact Hb.
Qed.

(** The products of a float with two opposite floats are opposite. *)
Lemma SFmul_float_opp (K : Z) (sc : bool) (mc : positive) (ec : Z) (x y : spec_float) :
  float_opp x y ->
  bounded_by K 0 (SFmul prec emax (S754_finite sc mc ec) x) ->
  float_opp (SFmul prec emax (S754_finite sc mc ec) x)
            (SFmul prec emax (S754_finite sc mc ec) y).
Proof.
  intros Hopp Hb. destruct x as [s| | |s m e].
  - destruct y; simpl in Hopp; try contradiction. exact I.
  - contradiction.
  - contradiction.
  - rewrite (float_opp_finite s m e y Hopp). simpl SFopp.
    rewrite SFmul_opp. apply (float_opp_SFopp K 0). exact Hb.
Qed.

(** The sums of two pairs of opposite floats are opposite. *)
Lemma SFadd_float_opp (K : Z) (x y t t' : spec_float) :
  float_opp x y -> float_opp t t' ->
  bounded_by K 0 (SFadd prec emax x t) ->
  float_opp (SFadd prec emax x t) (SFadd prec emax y t').
Proof.
  intros Hx Ht Hb.
  destruct x as [sx| | |sx mx ex]; try contradiction;
    destruct t as [st| | |st mt et]; try contradiction.
  - destruct y as [sy| | |]; simpl in Hx; try contradiction.
    destruct t' as [st'| | |]; simpl in Ht; try contradiction.
    destruct sx, st, sy, st'; exact I.
  - destruct y as [sy| | |]; simpl in Hx; try contradiction.
    rewrite (float_opp_finite st mt et t' Ht). simpl. auto.
  - destruct t' as [st'| | |]; simpl in Ht; try contradiction.
    rewrite (float_opp_finite sx mx ex y Hx). simpl. auto.
  - rewrite (float_opp_finite sx mx ex y Hx), (float_opp_finite st mt et t' Ht).
    unfold SFadd, SFopp in *.
    set (ez := Z.min ex et) in *.
    set (a := Z.pos (shl_align mx ex ez).1) in *.
    set (b := Z.pos (shl_align mt et ez).1) in *.
    replace (cond_Zopp (negb sx) a + cond_Zopp (negb st) b)
      with (- (cond_Zopp sx a + cond_Zopp st b))
      by (destruct sx, st; simpl; lia).
    destruct (cond_Zopp sx a + cond_Zopp st b) as [|p|p]; simpl in Hb |- *.
    + exact I.
    + change true with (negb false). rewrite binary_round_opp.
      apply (float_opp_SFopp K 0). exact Hb.
    + apply float_opp_sym. change true with (negb false) in Hb |- *.
      rewrite binary_round_opp in *. apply (float_opp_SFopp K 0).
      apply (float_opp_bounded K 0 _ _ (float_opp_SFopp K 0 _ Hb)) in Hb as Hb'.
      destruct (binary_round prec emax false p ez); simpl in Hb |- *; auto.
Qed.

Lemma nearest_float_hundred :
  nearest_float 100 = S754_finite false 7036874417766400 (-46).
Proof. vm_compute. reflexivity. Qed.

(** Exchanging the two counts of a ratio negates it. *)
Lemma rounded_ratio_opp (mine theirs : Z) :
  0 <= mine -> 0 <= theirs -> mine + theirs <> 0 ->
  exists t t',
    rounded_ratio mine theirs = Some t /\ rounded_ratio theirs mine = Some t'
    /\ bounded_by 100 0 t /\ float_opp t t'.
Proof.
  intros Hm Ht Hne.
  destruct (ratio_term_rounded mine theirs Hm Ht Hne) as (t & _ & Et & Bt).
  destruct (ratio_term_rounded theirs mine Ht Hm ltac:(lia)) as (t' & _ & Et' & Bt').
  exists t, t'. split; [exact Et|]. split; [exact Et'|]. split; [exact Bt|].
  unfold rounded_ratio in Et, Et'. rewrite (Z.add_comm theirs mine) in Et'.
  destruct (Z.eqb_spec (mine + theirs) 0) as [|_]; [contradiction|].
  apply (inj Some) in Et, Et'. subst t t'.
  replace (theirs - mine) with (- (mine - theirs)) by lia.
  rewrite nearest_float_hundred in *.
  apply (SFmul_float_opp 100); [|exact Bt].
  apply int_division_opp; lia.
Qed.

End FloatSymmetry.

Section HeuristicSymmetry.
Context `{OthelloShared}.

(** Exchanging the two colors exchanges the two corner counts. *)
Lemma count_corners_swap bd color opponent corners my_corners opp_corners :
  opponent <> color ->
  count_corners bd opponent color corners opp_corners my_corners
  = (fun c => (c.2, c.1)) <$> count_corners bd color opponent corners my_corners opp_corners.
Proof.
  intros Hne. revert my_corners opp_corners.
  induction corners as [|corner rest IH]; intros my_corners opp_corners; simpl;
    [reflexivity|].
  destruct (board_at bd corner.1 corner.2) as [c|]; [|reflexivity].
  destruct (Z.eqb_spec c opponent) as [Eo|Ho], (Z.eqb_spec c color) as [Ec|Hc];
    try congruence; apply IH.
Qed.

Lemma opposite_results_bounded (K : Z) (a b : py_number) :
  opposite_results K a b -> bounded_result K a /\ bounded_result K b.
Proof.
  intros [[-> ->] | (x & y & -> & -> & Bx & Hxy)].
  - split; left; reflexivity.
  - split; right; eexists; (split; [reflexivity|]); [exact Bx|].
    exact (float_opp_bounded K 0 x y Hxy Bx).
Qed.

(** Exchanging the two counts keeps two opposite results opposite. *)
Lemma add_ratio_opposite (K : Z) (a b : py_number) (mine theirs : Z) :
  0 <= mine -> 0 <= theirs -> 0 < K -> K + 100 < 2 ^ prec ->
  opposite_results K a b ->
  exists a' b',
    add_ratio a mine theirs = Some a' /\ add_ratio b theirs mine = Some b'
    /\ opposite_results (K + 100) a' b'.
Proof.
  intros Hm Ht HK HK' Hopp.
  destruct (opposite_results_bounded K a b Hopp) as [Ba Bb].
  destruct (add_ratio_rounded K a mine theirs Hm Ht HK HK' Ba) as [Ea Ba'].
  destruct (add_ratio_rounded K b theirs mine Ht Hm HK HK' Bb) as [Eb Bb'].
  eexists _, _. split; [exact Ea|]. split; [exact Eb|].
  destruct (Z.eq_dec (mine + theirs) 0) as [Hz|Hnz].
  - rewrite (proj2 (rounded_ratio_none mine theirs) Hz).
    rewrite (proj2 (rounded_ratio_none theirs mine) ltac:(lia)). simpl.
    destruct Hopp as [[-> ->] | (x & y & -> & -> & Bx & Hxy)]; [left; auto|].
    right. exists x, y. split; [reflexivity|]. split; [reflexivity|].
    split; [apply (bounded_by_mono K); [lia | exact Bx] | exact Hxy].
  - destruct (rounded_ratio_opp mine theirs Hm Ht Hnz) as (t & t' & Et & Et' & Bt & Htt').
    rewrite Et in Ba' |- *. rewrite Et'. right.
    destruct Ba' as [Habs | (s & Hs & Bs)];
      [destruct a; discriminate Habs|].
    destruct Hopp as [[-> ->] | (x & y & -> & -> & Bx & Hxy)].
    + change (add_rounded (PyInt 0) (Some t))
        with (PyFloat (SFadd prec emax (nearest_float 0) t)) in *.
      change (add_rounded (PyInt 0) (Some t'))
        with (PyFloat (SFadd prec emax (nearest_float 0) t')).
      assert (Es : s = SFadd prec emax (nearest_float 0) t) by congruence. subst s.
      eexists _, _. split; [reflexivity|]. split; [reflexivity|]. split; [exact Bs|].
      apply (SFadd_float_opp (K + 100)); [exact I | exact Htt' | exact Bs].
    + change (add_rounded (PyFloat x) (Some t))
        with (PyFloat (SFadd prec emax x t)) in *.
      change (add_rounded (PyFloat y) (Some t'))
        with (PyFloat (SFadd prec emax y t')).
      assert (Es : s = SFadd prec emax x t) by congruence. subst s.
      eexists _, _. split; [reflexivity|]. split; [reflexivity|]. split; [exact Bs|].
      apply (SFadd_float_opp (K + 100)); [exact Hxy | exact Htt' | exact Bs].
Qed.

Lemma float_opp_value (K : Z) (x y : spec_float) :
  bounded_by K 0 x -> float_opp x y ->
  exists v w, float_value x = Some v /\ float_value y = Some w /\ (v == - w)%Q.
Proof.
  intros Hb Hopp. destruct x as [s| | |s m e]; simpl in Hb; try contradiction.
  - destruct y; simpl in Hopp; try contradiction. exists 0%Q, 0%Q. simpl.
    split; [reflexivity|]. split; reflexivity.
  - rewrite (float_opp_finite s m e y Hopp). simpl. eexists _, _.
    split; [reflexivity|]. split; [reflexivity|].
    replace (cond_Zopp (negb s) (Z.pos m) * 2 ^ Z.max e 0)
      with (- (cond_Zopp s (Z.pos m) * 2 ^ Z.max e 0)) by (destruct s; simpl; lia).
    rewrite inject_Z_opp. unfold Qdiv. ring.
Qed.

Lemma opposite_results_value (K : Z) (a b : py_number) :
  opposite_results K a b ->
  exists v w, number_value a = Some v /\ number_value b = Some w /\ (v == - w)%Q.
Proof.
  intros [[-> ->] | (x & y & -> & -> & Bx & Hxy)].
  - exists 0%Q, 0%Q. simpl. split; [reflexivity|]. split; reflexivity.
  - exact (float_opp_value K x y Bx Hxy).
Qed.

End HeuristicSymmetry.

(** X15: [compute_heuristic] is zero-sum between the two colors: on any
    board it returns for dark exactly when it returns for light, and
    the two results, with every operation rounded as the floats round
    it, are opposite numbers. *)
Theorem compute_heuristic_is_zero_sum `{OthelloShared} (bd : board) :
  match compute_heuristic bd 1, compute_heuristic bd 2 with
  | Some dark, Some light =>
    exists v w,
      number_value dark = Some v /\ number_value light = Some w /\ (v == - w)%Q
  | None, None => True
  | _, _ => False
  end.
Proof.
  unfold compute_heuristic. change (opponent_of 1) with 2. change (opponent_of 2) with 1.
  destruct (add_ratio_opposite 1 (PyInt 0) (PyInt 0)
              (Z.of_nat (length (get_possible_moves bd 1)))
              (Z.of_nat (length (get_possible_moves bd 2))))
    as (a1 & b1 & -> & -> & O1);
    [lia | lia | lia | unfold prec; lia | left; auto |].
  destruct (count_empty bd 1) as [p1|] eqn:Hp1, (count_empty bd 2) as [p2|] eqn:Hp2;
    try exact I.
  destruct (add_ratio_opposite (1 + 100) a1 b1 p1 p2
              (count_empty_nonneg _ _ _ Hp1) (count_empty_nonneg _ _ _ Hp2)
              ltac:(lia) ltac:(unfold prec; lia) O1)
    as (a2 & b2 & -> & -> & O2).
  cbv zeta.
  rewrite (count_corners_swap bd 2 1 _ 0 0) by lia.
  destruct (count_corners bd 2 1 _ 0 0) as [[c2 c1]|] eqn:Hc; simpl; [|exact I].
  destruct (count_corners_nonneg _ _ _ _ _ _ _ _ Hc) as [Hc2 Hc1].
  destruct (add_ratio_opposite (1 + 100 + 100) a2 b2 c1 c2 Hc1 Hc2
              ltac:(lia) ltac:(unfold prec; lia) O2)
    as (a3 & b3 & -> & -> & O3).
  exact (opposite_results_value _ _ _ O3).
Qed.

(** ** The move a node returns *)

Section NodeMoves.
Context `{OthelloShared}.

Lemma is_leaf_true_iff (moves : list move) (limit : Z) :
  is_leaf moves limit = true <-> moves = [] \/ limit = 0.
Proof.
  split.
  - intros Hl. destruct moves as [|mv rest]; [auto|]. right.
    simpl in Hl. unfold truthy in Hl. destruct (Z.eqb_spec limit 0); [assumption|discriminate].
  - intros [-> | ->]; [apply is_leaf_nil | apply is_leaf_zero].
Qed.

Lemma max_successors_nonempty bd color ordering moves :
  moves <> [] -> max_successors bd color ordering moves <> [].
Proof.
  intros Hne Hnil. apply Hne. destruct moves as [|mv rest]; [reflexivity|].
  assert (Hin : In (play_move bd color mv.1 mv.2, mv)
                  (max_successors bd color ordering (mv :: rest)))
    by (apply max_successors_in; exists mv; split; [left|]; reflexivity).
  rewrite Hnil in Hin. destruct Hin.
Qed.

Lemma min_successors_nonempty bd color ordering moves :
  moves <> [] -> min_successors bd color ordering moves <> [].
Proof.
  intros Hne Hnil. apply Hne. destruct moves as [|mv rest]; [reflexivity|].
  assert (Hin : In (play_move bd (opponent_of color) mv.1 mv.2, mv)
                  (min_successors bd color ordering (mv :: rest)))
    by (apply min_successors_in; exists mv; split; [left|]; reflexivity).
  rewrite Hnil in Hin. destruct Hin.
Qed.

(** A min node that expands its moves returns one of them. *)
Lemma minimax_min_node_picks fuel bd color limit caching cache m v c' :
  (truthy caching = true -> cache_finite cache) ->
  cache_hit caching cache bd = None ->
  is_leaf (get_possible_moves bd (opponent_of color)) limit = false ->
  minimax_min_node fuel bd color limit caching cache = Some (m, v, c') ->
  exists mv, m = Some mv /\ In mv (get_possible_moves bd (opponent_of color)).
Proof.
  intros HP Hhit Hleaf Hrun. destruct fuel as [|fuel]; [discriminate|].
  simpl in Hrun. rewrite Hhit, Hleaf in Hrun.
  destruct (minimax_min_loop _ bd (opponent_of color) _ None PosInf cache)
    as [[[best mu] c1]|] eqn:Hloop; [|discriminate].
  inversion Hrun; subst. apply is_leaf_false_inv in Hleaf as [Hne _].
  eapply (minimax_min_loop_rule_nonempty
            (fun c => truthy caching = true -> cache_finite c) is_finite)
    in Hloop as (_ & _ & Hmv); eauto.
  - intros mv c m0 v0 c0 _ HPc Hc.
    exact (proj1 (minimax_finite fuel caching color _ _ _ m0 v0 c0 HPc) Hc).
  - intros w Hw. destruct w; simpl in Hw; try contradiction; reflexivity.
Qed.

Lemma alphabeta_min_node_picks fuel bd color alpha beta limit caching ordering cache m v c' :
  (truthy caching = true -> cache_finite cache) ->
  cache_hit caching cache bd = None ->
  is_leaf (get_possible_moves bd (opponent_of color)) limit = false ->
  alphabeta_min_node fuel bd color alpha beta limit caching ordering cache
  = Some (m, v, c') ->
  exists mv, m = Some mv /\ In mv (get_possible_moves bd (opponent_of color)).
Proof.
  intros HP Hhit Hleaf Hrun. destruct fuel as [|fuel]; [discriminate|].
  simpl in Hrun. rewrite Hhit, Hleaf in Hrun.
  destruct (alphabeta_min_loop _ _ None PosInf alpha beta cache)
    as [[[best mu] c1]|] eqn:Hloop; [|discriminate].
  inversion Hrun; subst. apply is_leaf_false_inv in Hleaf as [Hne _].
  eapply (alphabeta_min_loop_rule_nonempty
            (fun c => truthy caching = true -> cache_finite c) is_finite)
    in Hloop as (_ & _ & s & -> & Hin); eauto using min_successors_nonempty.
  - apply min_successors_in in Hin as (mv & Hmv & ->). eauto.
  - intros s a b c m0 v0 c0 _ HPc Hc.
    exact (proj1 (alphabeta_finite fuel caching ordering color _ _ _ _ _ m0 v0 c0 HPc) Hc).
  - intros w Hw. destruct w; simpl in Hw; try contradiction; reflexivity.
Qed.

(** The root of [select_move_minimax] returns no move exactly at a leaf,
    and a legal move otherwise. *)
Lemma minimax_root_move fuel bd color limit caching m v c' :
  minimax_root fuel bd color limit caching = Some (m, v, c') ->
  (m = None <-> get_possible_moves bd color = [] \/ limit = 0)
  /\ (forall mv, m = Some mv -> In mv (get_possible_moves bd color)).
Proof.
  unfold minimax_root. intros Hrun. rewrite <- is_leaf_true_iff.
  destruct (is_leaf (get_possible_moves bd color) limit) eqn:Hleaf.
  - destruct fuel as [|fuel]; [discriminate|].
    rewrite (minimax_max_node_leaf _ _ _ _ _ _ (cache_hit_empty caching bd) Hleaf) in Hrun.
    injection Hrun as <- _ _. split; [tauto | discriminate].
  - destruct (minimax_max_node_picks _ _ _ _ _ _ _ _ _
                (fun _ => cache_finite_empty) (cache_hit_empty caching bd) Hleaf Hrun)
      as (mv & -> & Hin).
    split; [split; discriminate|]. intros mv' [= <-]. exact Hin.
Qed.

(** The root of [select_move_alphabeta], which searches with
    [limit - 1], returns no move exactly at a leaf of that depth. *)
Lemma alphabeta_root_move fuel bd color limit caching ordering m v c' :
  alphabeta_root fuel bd color limit caching ordering = Some (m, v, c') ->
  (m = None <-> get_possible_moves bd color = [] \/ limit = 1)
  /\ (forall mv, m = Some mv -> In mv (get_possible_moves bd color)).
Proof.
  unfold alphabeta_root. intros Hrun.
  assert (Hiff : is_leaf (get_possible_moves bd color) (limit - 1) = true
                 <-> get_possible_moves bd color = [] \/ limit = 1)
    by (rewrite is_leaf_true_iff; intuition lia).
  rewrite <- Hiff.
  destruct (is_leaf (get_possible_moves bd color) (limit - 1)) eqn:Hleaf.
  - destruct fuel as [|fuel]; [discriminate|].
    rewrite (alphabeta_max_node_leaf _ _ _ _ _ _ _ _ _
               (cache_hit_empty caching bd) Hleaf) in Hrun.
    injection Hrun as <- _ _. split; [tauto | discriminate].
  - destruct (alphabeta_max_node_picks _ _ _ _ _ _ _ _ _ _ _ _
                (fun _ => cache_finite_empty) (cache_hit_empty caching bd) Hleaf Hrun)
      as (mv & -> & Hin).
    split; [split; discriminate|]. intros mv' [= <-]. exact Hin.
Qed.

End NodeMoves.

(** X16: a node of either search, entered with a cache that holds
    integers only, returns no move exactly when it finds its board in
    the cache, when the player it expands (the color itself at a max
    node, the opponent at a min node) has no legal move, or when the
    depth limit is 0; otherwise it returns a legal move of that
    player. *)
Theorem node_move_is_legal `{OthelloShared} (k : node_kind) (fuel : nat) (bd : board)
    (color : Z) (alpha beta : value) (limit caching ordering : Z) (cache : cache_t)
    (m : option move) (v : value) (c' : cache_t) :
  cache_finite cache ->
  run_node k fuel bd color alpha beta limit caching ordering cache = Some (m, v, c') ->
  (m = None <-> is_Some (cache_hit caching cache bd)
                \/ get_possible_moves bd (mover k color) = [] \/ limit = 0)
  /\ (forall mv, m = Some mv -> In mv (get_possible_moves bd (mover k color))).
Proof.
  intros Hfin Hrun. rewrite <- is_leaf_true_iff.
  destruct (cache_hit caching cache bd) as [v0|] eqn:Hhit.
  - destruct fuel as [|fuel]; [destruct k; discriminate|].
    rewrite (run_node_hit k fuel bd color alpha beta limit caching ordering cache v0 Hhit)
      in Hrun.
    injection Hrun as <- _ _. split; [|discriminate]. split; eauto.
  - destruct (is_leaf (get_possible_moves bd (mover k color)) limit) eqn:Hleaf.
    + destruct fuel as [|fuel]; [destruct k; discriminate|].
      assert (m = None) as ->.
      { destruct k; simpl in Hrun, Hleaf; rewrite Hhit, Hleaf in Hrun; congruence. }
      split; [tauto | discriminate].
    + assert (Hpick : exists mv, m = Some mv
                                 /\ In mv (get_possible_moves bd (mover k color))).
      { destruct k; simpl in Hrun, Hleaf |- *.
        - eapply minimax_min_node_picks; eauto.
        - eapply minimax_max_node_picks; eauto.
        - eapply alphabeta_min_node_picks; eauto.
        - eapply alphabeta_max_node_picks; eauto. }
      destruct Hpick as (mv & -> & Hin). split.
      * split; [discriminate|]. intros [[x Hx] | Hl]; discriminate.
      * intros mv' [= <-]. exact Hin.
Qed.

(** The witness: an alpha-beta min node on the 4x4 opening position,
    which returns the move (0, 1) of dark. *)
Lemma node_move_is_legal_witness :
  In (0, 1) (get_possible_moves (OthelloShared := Othello.shared) Othello.start4 1).
Proof.
  assert (Hrun : run_node (H := Othello.shared) AlphabetaMin 3 Othello.start4 2
                   NegInf PosInf 2 0 1 ∅ = Some (Some (0, 1), Fin 0, ∅))
    by (vm_compute; reflexivity).
  exact (proj2 (node_move_is_legal (H := Othello.shared) AlphabetaMin 3 Othello.start4 2
                  NegInf PosInf 2 0 1 ∅ (Some (0, 1)) (Fin 0) ∅ cache_finite_empty Hrun)
               (0, 1) eq_refl).
Defined.

(** X17: whenever [select_move_minimax] returns, it returns no move
    exactly when the acting color has no legal move or the depth limit
    is 0, and otherwise one of the legal moves of the acting color. *)
Theorem minimax_selector_move `{OthelloShared}
    (fuel : nat) (bd : board) (color limit caching : Z) (g g' : global_t)
    (m : option move) :
  select_move_minimax fuel bd color limit caching g = Some (m, g') ->
  (m = None <-> get_possible_moves bd color = [] \/ limit = 0)
  /\ (forall mv, m = Some mv -> In mv (get_possible_moves bd color)).
Proof.
  unfold select_move_minimax.
  destruct (minimax_root fuel bd color limit caching) as [[[m0 v] c]|] eqn:Hrun;
    [|discriminate].
  intros [= -> <-]. exact (minimax_root_move fuel bd color limit caching m v c Hrun).
Qed.

(** The witness: the 8x8 opening position, dark to move, depth limit 2. *)
Lemma minimax_selector_move_witness :
  (Some (2, 3) = None
   <-> get_possible_moves (OthelloShared := Othello.shared) Othello.start8 1 = []
       \/ 2 = 0)
  /\ (forall mv, Some (2, 3) = Some mv ->
                 In mv (get_possible_moves (OthelloShared := Othello.shared)
                          Othello.start8 1)).
Proof.
  apply (minimax_selector_move (H := Othello.shared) 3 Othello.start8 1 2 0 None (Some ∅)).
  vm_compute. reflexivity.
Defined.

(** X18: whenever [select_move_alphabeta] returns, it returns no move
    exactly when the acting color has no legal move or the depth limit
    is 1, and otherwise one of the legal moves of the acting color,
    whatever the caching and ordering flags. *)
Theorem alphabeta_selector_move `{OthelloShared}
    (fuel : nat) (bd : board) (color limit caching ordering : Z) (g g' : global_t)
    (m : option move) :
  select_move_alphabeta fuel bd color limit caching ordering g = Some (m, g') ->
  (m = None <-> get_possible_moves bd color = [] \/ limit = 1)
  /\ (forall mv, m = Some mv -> In mv (get_possible_moves bd color)).
Proof.
  unfold select_move_alphabeta.
  destruct (alphabeta_root fuel bd color limit caching ordering) as [[[m0 v] c]|] eqn:Hrun;
    [|discriminate].
  intros [= -> <-].
  exact (alphabeta_root_move fuel bd color limit caching ordering m v c Hrun).
Qed.

(** The witness: the 4x4 midgame position, light to move, depth limit 5,
    ordering on. *)
Lemma alphabeta_selector_move_witness :
  (Some (1, 0) = None
   <-> get_possible_moves (OthelloShared := Othello.shared) Othello.midgame4 2 = []
       \/ 5 = 1)
  /\ (forall mv, Some (1, 0) = Some mv ->
                 In mv (get_possible_moves (OthelloShared := Othello.shared)
                          Othello.midgame4 2)).
Proof.
  apply (alphabeta_selector_move (H := Othello.shared) 5 Othello.midgame4 2 5 0 1
           None (Some ∅)).
  vm_compute. reflexivity.
Defined.

(** X19: a turn of [run_ai] in which the selector returns ends in the
    TypeError of unpacking [None] exactly when the color has no legal
    move, or minimax runs with depth limit 0, or alpha-beta runs with
    depth limit 1; in every other turn the move printed is a legal move
    of the color on the board read. *)
Theorem run_ai_turn_outcome `{OthelloShared} (fuel : nat)
    (color limit minimax caching ordering : Z) (bd : board) (g g' : global_t)
    (outcome : turn_outcome) :
  run_ai_turn fuel color limit minimax caching ordering bd g = Some (outcome, g') ->
  (outcome = TypeError
   <-> get_possible_moves bd color = []
       \/ (minimax = 1 /\ limit = 0) \/ (minimax <> 1 /\ limit = 1))
  /\ (forall movei movej,
        outcome = Printed movei movej -> In (movei, movej) (get_possible_moves bd color)).
Proof.
  unfold run_ai_turn, select_move_minimax, select_move_alphabeta.
  destruct (Z.eqb_spec minimax 1) as [Hmm | Hab].
  - destruct (minimax_root fuel bd color limit caching) as [[[m v] c]|] eqn:Hrun;
      [|discriminate].
    destruct (minimax_root_move fuel bd color limit caching m v c Hrun) as [Hnone Hlegal].
    destruct m as [[movei movej]|]; intros [= <- <-].
    + split.
      * split; [discriminate|]. intros Hleaf. exfalso.
        assert (Hn : Some (movei, movej) = None) by (apply Hnone; tauto). discriminate.
      * intros i j [= <- <-]. apply Hlegal. reflexivity.
    + split; [|discriminate]. split; [|reflexivity]. intros _.
      destruct (proj1 Hnone eq_refl); tauto.
  - destruct (alphabeta_root fuel bd color limit caching ordering) as [[[m v] c]|] eqn:Hrun;
      [|discriminate].
    destruct (alphabeta_root_move fuel bd color limit caching ordering m v c Hrun)
      as [Hnone Hlegal].
    destruct m as [[movei movej]|]; intros [= <- <-].
    + split.
      * split; [discriminate|]. intros Hleaf. exfalso.
        assert (Hn : Some (movei, movej) = None) by (apply Hnone; tauto). discriminate.
      * intros i j [= <- <-]. apply Hlegal. reflexivity.
    + split; [|discriminate]. split; [|reflexivity]. intros _.
      destruct (proj1 Hnone eq_refl); tauto.
Qed.

(** The witness: dark on the 8x8 opening position with the arguments
    [1,1,0,0,0]: alpha-beta at depth limit 1. *)
Lemma run_ai_turn_outcome_witness :
  TypeError = TypeError
  <-> get_possible_moves (OthelloShared := Othello.shared) Othello.start8 1 = []
      \/ (0 = 1 /\ 1 = 0) \/ (0 <> 1 /\ 1 = 1).
Proof.
  assert (Hrun : run_ai_turn (H := Othello.shared) 2 1 1 0 0 0 Othello.start8 None
                 = Some (TypeError, Some ∅)) by (vm_compute; reflexivity).
  exact (proj1 (run_ai_turn_outcome (H := Othello.shared) 2 1 1 0 0 0 Othello.start8
                  None (Some ∅) TypeError Hrun)).
Defined.

(** ** Potential mobility *)

Section PotentialMobility.

Lemma count_where_le (f f' : Z * Z -> bool) (l : list (Z * Z)) :
  (forall p, f p = true -> f' p = true) -> count_where f l <= count_where f' l.
Proof.
  intros Himp. induction l as [|p l IH]; [reflexivity|].
  rewrite !count_where_cons. destruct (f p) eqn:E; [rewrite (Himp p E); lia|].
  destruct (f' p); lia.
Qed.

Lemma count_where_none (f : Z * Z -> bool) (l : list (Z * Z)) :
  (forall p, In p l -> f p = false) -> count_where f l = 0.
Proof.
  intros Hnone. induction l as [|p l IH]; [reflexivity|].
  rewrite count_where_cons, (Hnone p (or_introl eq_refl)), IH; [reflexivity|].
  intros; apply Hnone; right; assumption.
Qed.

End PotentialMobility.

(** X20: on a square board [check_empty] returns, for any coordinates,
    whether one of the up to eight neighbouring cells on the board is
    empty, the cell itself not being looked at, and [count_empty] the
    number of cells that hold [color] and have such a neighbour; that
    number is at most the number of cells holding [color], and 0 when
    no cell of the board is empty. *)
Theorem count_empty_counts_frontier
    (bd : board) (color : Z) (coordinates : Z * Z) :
  square bd ->
  check_empty bd coordinates = Some (has_empty_neighbour bd coordinates)
  /\ count_empty bd color = Some (spec_potential bd color)
  /\ 0 <= spec_potential bd color
     <= count_where (fun p => cell_is bd p color) (squares (len bd))
  /\ ((forall p, cell_is bd p 0 = false) -> count_empty bd color = Some 0).
Proof.
  intros Hsq. split; [apply check_empty_spec; exact Hsq|].
  split; [apply count_empty_spec; exact Hsq|]. split.
  - split; [apply count_where_nonneg|]. apply count_where_le.
    intros p Hp. unfold counted in Hp. apply andb_true_iff in Hp as [Hp _]. exact Hp.
  - intros Hfull. rewrite count_empty_spec by exact Hsq. f_equal.
    apply count_where_none. intros p _. unfold counted, has_empty_neighbour.
    replace (existsb _ (neighbours p)) with false; [apply andb_false_r|].
    symmetry. apply not_true_is_false. intros Hex.
    apply existsb_exists in Hex as (q & _ & Hq). rewrite Hfull, andb_false_r in Hq.
    discriminate.
Qed.

(** The witness: light on the 4x4 midgame position, seen from the cell
    (1, 1). *)
Lemma count_empty_counts_frontier_witness :
  check_empty Othello.midgame4 (1, 1)
  = Some (has_empty_neighbour Othello.midgame4 (1, 1))
  /\ count_empty Othello.midgame4 2
     = Some (spec_potential Othello.midgame4 2).
Proof.
  destruct (count_empty_counts_frontier Othello.midgame4 2 (1, 1))
    as (Hce & Hcount & _).
  - split; [simpl; lia | repeat constructor].
  - split; assumption.
Defined.

(** ** The two colors in the search *)

Lemma value_ltb_opp (x y : value) : value_ltb (value_opp x) (value_opp y) = value_ltb y x.
Proof.
  destruct x, y; simpl; try reflexivity.
  destruct (Z.ltb_spec (- z) (- z0)), (Z.ltb_spec z0 z); lia || reflexivity.
Qed.

Lemma value_leb_opp (x y : value) : value_leb (value_opp x) (value_opp y) = value_leb y x.
Proof. unfold value_leb. rewrite value_ltb_opp. reflexivity. Qed.

Lemma value_opp_involutive (v : value) : value_opp (value_opp v) = v.
Proof. destruct v; simpl; f_equal; lia. Qed.

Lemma py_max_opp (x y : value) : py_max (value_opp x) (value_opp y) = value_opp (py_min x y).
Proof. unfold py_max, py_min. rewrite value_ltb_opp. destruct (value_ltb y x); reflexivity. Qed.

Lemma py_min_opp (x y : value) : py_min (value_opp x) (value_opp y) = value_opp (py_max x y).
Proof. unfold py_max, py_min. rewrite value_ltb_opp. destruct (value_ltb x y); reflexivity. Qed.

Section Duality.
Context `{OthelloShared}.

Lemma minimax_loops_dual child1 child2 bd player moves :
  (forall mv c, In mv moves ->
     child2 (play_move bd player mv.1 mv.2) c
     = result_opp <$> child1 (play_move bd player mv.1 mv.2) c) ->
  forall best mu cache,
    minimax_max_loop child2 bd player moves best (value_opp mu) cache
    = result_opp <$> minimax_min_loop child1 bd player moves best mu cache.
Proof.
  induction moves as [|mv rest IH]; intros Hchild best mu cache; [reflexivity|].
  simpl. rewrite Hchild by (left; reflexivity).
  destruct (child1 _ cache) as [[[m v] c]|]; [|reflexivity]. simpl.
  rewrite value_ltb_opp.
  destruct (value_ltb v mu); apply IH; intros; apply Hchild; right; assumption.
Qed.

Lemma minimax_loops_dual' child1 child2 bd player moves :
  (forall mv c, In mv moves ->
     child2 (play_move bd player mv.1 mv.2) c
     = result_opp <$> child1 (play_move bd player mv.1 mv.2) c) ->
  forall best mu cache,
    minimax_min_loop child2 bd player moves best (value_opp mu) cache
    = result_opp <$> minimax_max_loop child1 bd player moves best mu cache.
Proof.
  induction moves as [|mv rest IH]; intros Hchild best mu cache; [reflexivity|].
  simpl. rewrite Hchild by (left; reflexivity).
  destruct (child1 _ cache) as [[[m v] c]|]; [|reflexivity]. simpl.
  rewrite value_ltb_opp.
  destruct (value_ltb mu v); apply IH; intros; apply Hchild; right; assumption.
Qed.

Lemma compute_utility_opp bd color :
  color = 1 \/ color = 2 ->
  compute_utility bd (opponent_of color) = - compute_utility bd color.
Proof.
  intros [-> | ->]; unfold compute_utility; simpl; destruct (get_score bd); lia.
Qed.

Lemma opponent_of_opponent color :
  color = 1 \/ color = 2 -> opponent_of (opponent_of color) = color.
Proof. intros [-> | ->]; reflexivity. Qed.

Lemma opponent_of_valid color :
  color = 1 \/ color = 2 -> opponent_of color = 1 \/ opponent_of color = 2.
Proof. intros [-> | ->]; simpl; auto. Qed.

(** With caching off, a min node for a color is the max node for the
    opponent with the utility negated, and the other way round. *)
Lemma minimax_dual fuel :
  forall bd color limit cache,
    color = 1 \/ color = 2 ->
    minimax_max_node fuel bd (opponent_of color) limit 0 cache
    = result_opp <$> minimax_min_node fuel bd color limit 0 cache
    /\ minimax_min_node fuel bd (opponent_of color) limit 0 cache
       = result_opp <$> minimax_max_node fuel bd color limit 0 cache.
Proof.
  induction fuel as [|fuel IH]; intros bd color limit cache Hc; [split; reflexivity|].
  split; simpl; rewrite ?(opponent_of_opponent color Hc).
  - destruct (is_leaf _ limit);
      [rewrite (compute_utility_opp bd color Hc); reflexivity|].
    change NegInf with (value_opp PosInf).
    rewrite (minimax_loops_dual
               (fun new_board c => minimax_max_node fuel new_board color (limit - 1) 0 c)).
    + destruct (minimax_min_loop _ _ _ _ _ _ _) as [[[m v] c]|]; reflexivity.
    + intros mv c _.
      pose proof (proj2 (IH (play_move bd (opponent_of color) mv.1 mv.2)
                           color (limit - 1) c Hc)) as E.
      exact E.
  - destruct (is_leaf _ limit);
      [rewrite (compute_utility_opp bd color Hc); reflexivity|].
    change PosInf with (value_opp NegInf).
    rewrite (minimax_loops_dual'
               (fun new_board c => minimax_min_node fuel new_board color (limit - 1) 0 c)).
    + destruct (minimax_max_loop _ _ _ _ _ _ _) as [[[m v] c]|]; reflexivity.
    + intros mv c _.
      exact (proj1 (IH (play_move bd color mv.1 mv.2) color (limit - 1) c Hc)).
Qed.

End Duality.

Section AlphaBetaDuality.
Context `{OthelloShared}.

Lemma alphabeta_loops_dual child1 child2 successors :
  (forall s a b c, In s successors ->
     child2 s.1 (value_opp b) (value_opp a) c = result_opp <$> child1 s.1 a b c) ->
  forall best mu alpha beta cache,
    alphabeta_max_loop child2 successors best (value_opp mu)
      (value_opp beta) (value_opp alpha) cache
    = result_opp <$> alphabeta_min_loop child1 successors best mu alpha beta cache.
Proof.
  induction successors as [|s rest IH]; intros Hchild best mu alpha beta cache;
    [reflexivity|].
  simpl. rewrite Hchild by (left; reflexivity).
  destruct (child1 s.1 alpha beta cache) as [[[m v] c]|]; [|reflexivity]. simpl.
  rewrite value_ltb_opp.
  destruct (value_ltb v mu); rewrite value_leb_opp.
  - destruct (value_leb v alpha); [reflexivity|]. rewrite py_max_opp.
    apply IH. intros; apply Hchild; right; assumption.
  - destruct (value_leb mu alpha); [reflexivity|]. rewrite py_max_opp.
    apply IH. intros; apply Hchild; right; assumption.
Qed.

Lemma alphabeta_loops_dual' child1 child2 successors :
  (forall s a b c, In s successors ->
     child2 s.1 (value_opp b) (value_opp a) c = result_opp <$> child1 s.1 a b c) ->
  forall best mu alpha beta cache,
    alphabeta_min_loop child2 successors best (value_opp mu)
      (value_opp beta) (value_opp alpha) cache
    = result_opp <$> alphabeta_max_loop child1 successors best mu alpha beta cache.
Proof.
  induction successors as [|s rest IH]; intros Hchild best mu alpha beta cache;
    [reflexivity|].
  simpl. rewrite Hchild by (left; reflexivity).
  destruct (child1 s.1 alpha beta cache) as [[[m v] c]|]; [|reflexivity]. simpl.
  rewrite value_ltb_opp.
  destruct (value_ltb mu v); rewrite value_leb_opp.
  - destruct (value_leb beta v); [reflexivity|]. rewrite py_min_opp.
    apply IH. intros; apply Hchild; right; assumption.
  - destruct (value_leb beta mu); [reflexivity|]. rewrite py_min_opp.
    apply IH. intros; apply Hchild; right; assumption.
Qed.

(** Sorting by the negated key in the other direction gives the same
    list. *)
Lemma insert_descending_opp key key' x l :
  (forall s, key' s = - key s) ->
  insert_descending key' x l = insert_ascending key x l.
Proof.
  intros Hk. induction l as [|y l IH]; [reflexivity|]. simpl. rewrite !Hk, IH.
  destruct (Z.leb_spec (- key x) (- key y)), (Z.leb_spec (key y) (key x));
    lia || reflexivity.
Qed.

Lemma sort_descending_opp key key' l :
  (forall s, key' s = - key s) ->
  sort_descending key' l = sort_ascending key l.
Proof.
  intros Hk. unfold sort_descending, sort_ascending. generalize (@nil (board * move)).
  induction l as [|x l IH]; intros acc; [reflexivity|]. simpl.
  rewrite (insert_descending_opp key key' x acc Hk). apply IH.
Qed.

Lemma successors_dual bd color ordering moves :
  color = 1 \/ color = 2 ->
  max_successors bd (opponent_of color) ordering moves
  = min_successors bd color ordering moves
  /\ min_successors bd (opponent_of color) ordering moves
     = max_successors bd color ordering moves.
Proof.
  intros Hc. unfold max_successors, min_successors.
  rewrite (opponent_of_opponent color Hc).
  destruct (truthy ordering); [|split; reflexivity]. split.
  - apply sort_descending_opp. intros s. apply compute_utility_opp. exact Hc.
  - symmetry. apply sort_descending_opp. intros s.
    rewrite (compute_utility_opp s.1 color Hc). lia.
Qed.

Lemma alphabeta_dual fuel ordering :
  forall bd color alpha beta limit cache,
    color = 1 \/ color = 2 ->
    alphabeta_max_node fuel bd (opponent_of color) (value_opp beta) (value_opp alpha)
      limit 0 ordering cache
    = result_opp <$> alphabeta_min_node fuel bd color alpha beta limit 0 ordering cache
    /\ alphabeta_min_node fuel bd (opponent_of color) (value_opp beta) (value_opp alpha)
         limit 0 ordering cache
       = result_opp <$> alphabeta_max_node fuel bd color alpha beta limit 0 ordering cache.
Proof.
  induction fuel as [|fuel IH]; intros bd color alpha beta limit cache Hc;
    [split; reflexivity|].
  destruct (successors_dual bd color ordering) with (moves := get_possible_moves bd
    (opponent_of color)) as [Hmax _]; [exact Hc|].
  destruct (successors_dual bd color ordering) with (moves := get_possible_moves bd color)
    as [_ Hmin]; [exact Hc|].
  split; simpl; rewrite ?(opponent_of_opponent color Hc).
  - destruct (is_leaf _ limit);
      [rewrite (compute_utility_opp bd color Hc); reflexivity|].
    rewrite Hmax. change NegInf with (value_opp PosInf).
    rewrite (alphabeta_loops_dual
               (fun new_board a b c =>
                  alphabeta_max_node fuel new_board color a b (limit - 1) 0 ordering c)).
    + destruct (alphabeta_min_loop _ _ _ _ _ _ _) as [[[m v] c]|]; reflexivity.
    + intros s a b c _. exact (proj2 (IH s.1 color a b (limit - 1) c Hc)).
  - destruct (is_leaf _ limit);
      [rewrite (compute_utility_opp bd color Hc); reflexivity|].
    rewrite Hmin. change PosInf with (value_opp NegInf).
    rewrite (alphabeta_loops_dual'
               (fun new_board a b c =>
                  alphabeta_min_node fuel new_board color a b (limit - 1) 0 ordering c)).
    + destruct (alphabeta_max_loop _ _ _ _ _ _ _) as [[[m v] c]|]; reflexivity.
    + intros s a b c _. exact (proj1 (IH s.1 color a b (limit - 1) c Hc)).
Qed.

End AlphaBetaDuality.

(** X21: with caching off the searches treat the two colors
    symmetrically: a min node for a color returns what the max node for
    the opponent returns, with the utility negated (and, in alpha-beta,
    the window negated and swapped), and the other way round: the same
    move and, with ordering on, the same order of visit. *)
Theorem search_is_symmetric `{OthelloShared}
    (fuel : nat) (bd : board) (color : Z) (alpha beta : value)
    (limit ordering : Z) (cache : cache_t) :
  color = 1 \/ color = 2 ->
  minimax_max_node fuel bd (opponent_of color) limit 0 cache
  = result_opp <$> minimax_min_node fuel bd color limit 0 cache
  /\ minimax_min_node fuel bd (opponent_of color) limit 0 cache
     = result_opp <$> minimax_max_node fuel bd color limit 0 cache
  /\ alphabeta_max_node fuel bd (opponent_of color) (value_opp beta) (value_opp alpha)
       limit 0 ordering cache
     = result_opp <$> alphabeta_min_node fuel bd color alpha beta limit 0 ordering cache
  /\ alphabeta_min_node fuel bd (opponent_of color) (value_opp beta) (value_opp alpha)
       limit 0 ordering cache
     = result_opp <$> alphabeta_max_node fuel bd color alpha beta limit 0 ordering cache.
Proof.
  intros Hc.
  destruct (minimax_dual fuel bd color limit cache Hc) as [M1 M2].
  destruct (alphabeta_dual fuel ordering bd color alpha beta limit cache Hc) as [A1 A2].
  auto.
Qed.

(** The witness: the 4x4 midgame position, three plies deep, searched
    for dark by a min node and for light by a max node. *)
Lemma search_is_symmetric_witness :
  alphabeta_max_node (H := Othello.shared) 4 Othello.midgame4 (opponent_of 1)
    (value_opp (Fin 7)) (value_opp (Fin 5)) 3 0 1 ∅
  = result_opp <$> alphabeta_min_node (H := Othello.shared) 4 Othello.midgame4 1
                     (Fin 5) (Fin 7) 3 0 1 ∅.
Proof.
  exact (proj1 (proj2 (proj2
           (search_is_symmetric (H := Othello.shared) 4 Othello.midgame4 1 (Fin 5) (Fin 7)
              3 1 ∅ (or_introl eq_refl))))).
Defined.
